(** * JobMap: a shallow embedding of the query, geocoding and import code

    The development follows the TypeScript sources:
    - [pages/api/jobs.ts]: the per-IP rate limiter, the Adzuna normaliser
      [mapAdzunaToJob] and the filter and sort steps of [handler];
    - [utils/geocode.ts]: the cached two-provider resolver
      [fetchGeocodeIfNeeded];
    - [app/api/cron/import-adzuna/route.ts]: the normaliser
      [mapAdzunaToUpsert] with its dedup hash, and the [POST] import route.

    The first half of the file holds the embedding, one module per source
    file, after the JavaScript values and built-ins they rest on; the
    second half holds the properties, one module per component.

    JavaScript numbers are IEEE binary64 values ([PrimFloat.float]);
    timestamps returned by [Date.now()] and request counters are integers far
    below 2^53, where binary64 arithmetic is exact, and are kept in [Z].
    Strings are sequences of code units restricted to the ASCII range, one
    [ascii] per code unit.  Module-level mutable state ([ipStore], [cache])
    and the requests sent to the network are passed explicitly. *)

From Stdlib Require Import ZArith String Ascii List Bool Lia.
From Stdlib Require Import PrimFloat.
From Stdlib Require Uint63 FloatOps FloatAxioms SpecFloat.
From stdpp Require Import base option list gmap strings pretty.

Local Open Scope Z_scope.
Local Open Scope string_scope.

(* Decimal literals such as 48.2 denote the nearest binary64 value, as they
   do in the sources. *)
Set Warnings "-inexact-float".

(* ===================================================================== *)
(** * JavaScript values and the built-in operations the sources use *)
(* ===================================================================== *)

Module Js.

(** Values as [JSON.parse] and the sources produce them. *)
#[warnings="-register-all"]
Inductive JsVal : Type :=
| JUndefined
| JNull
| JBool (b : bool)
| JNum (n : float)
| JStr (s : string)
| JArr (items : list JsVal)
| JObj (fields : list (string * JsVal)).

(** Built-ins whose results are fixed by the host and not by the sources:
    number formatting, numeric parsing of text, date parsing and the
    trigonometric functions of [Math].  Every theorem below holds for
    whatever these functions answer. *)
Class Host : Type := {
  Number_toString : float -> string;
  StringToNumber : string -> float;
  Date_parse : string -> float;
  Math_sin : float -> float;
  Math_cos : float -> float;
  Math_atan2 : float -> float -> float
}.

(** [ToBoolean]. *)
Definition truthy (v : JsVal) : bool :=
  match v with
  | JUndefined | JNull => false
  | JBool b => b
  | JNum n => negb (PrimFloat.is_zero n || PrimFloat.is_nan n)
  | JStr s => negb (String.eqb s "")
  | JArr _ | JObj _ => true
  end.

Definition nullish (v : JsVal) : bool :=
  match v with
  | JUndefined | JNull => true
  | _ => false
  end.

(** [typeof v === 'number'], with the number when it is one. *)
Definition as_number (v : JsVal) : option float :=
  match v with
  | JNum n => Some n
  | _ => None
  end.

Definition isArray (v : JsVal) : bool :=
  match v with
  | JArr _ => true
  | _ => false
  end.

(** Own-property lookup in an object literal; a missing key reads as
    [undefined]. *)
Fixpoint assoc (k : string) (fields : list (string * JsVal)) : JsVal :=
  match fields with
  | [] => JUndefined
  | (k', v) :: rest => if String.eqb k k' then v else assoc k rest
  end.

Fixpoint has_key (k : string) (fields : list (string * JsVal)) : bool :=
  match fields with
  | [] => false
  | (k', _) :: rest => String.eqb k k' || has_key k rest
  end.

Definition num_of_nat (n : nat) : float :=
  PrimFloat.of_uint63 (Uint63.of_Z (Z.of_nat n)).

(** [v.k].  [None] is the [TypeError] raised on [undefined] and [null].
    Strings and arrays answer their [length]; no other inherited property
    is a data property the sources read. *)
Definition get (v : JsVal) (k : string) : option JsVal :=
  match v with
  | JUndefined | JNull => None
  | JObj fields => Some (assoc k fields)
  | JStr s =>
      Some (if String.eqb k "length" then JNum (num_of_nat (String.length s))
            else JUndefined)
  | JArr items =>
      Some (if String.eqb k "length" then JNum (num_of_nat (length items))
            else JUndefined)
  | JBool _ | JNum _ => Some JUndefined
  end.

(** [v?.k]: never raises. *)
Definition get_opt (v : JsVal) (k : string) : JsVal :=
  match get v k with
  | Some x => x
  | None => JUndefined
  end.

(** [v[i]] for a non-negative integer [i]. *)
Definition index (v : JsVal) (i : nat) : option JsVal :=
  match v with
  | JUndefined | JNull => None
  | JArr items => Some (nth i items JUndefined)
  | JStr s =>
      Some (match String.get i s with
            | Some c => JStr (String c "")
            | None => JUndefined
            end)
  | JObj fields => Some (assoc (pretty i) fields)
  | JBool _ | JNum _ => Some JUndefined
  end.

(** [v?.[i]]. *)
Definition index_opt (v : JsVal) (i : nat) : JsVal :=
  match index v i with
  | Some x => x
  | None => JUndefined
  end.

(** [a || b] and [a ?? b]; the right operand is only looked at, and so can
    only raise, when the left one does not decide. *)
Definition or_else (a b : option JsVal) : option JsVal :=
  match a with
  | Some v => if truthy v then Some v else b
  | None => None
  end.

Definition coalesce (a b : option JsVal) : option JsVal :=
  match a with
  | Some v => if nullish v then b else Some v
  | None => None
  end.

Fixpoint join (sep : string) (parts : list string) : string :=
  match parts with
  | [] => ""
  | [p] => p
  | p :: rest => p +:+ sep +:+ join sep rest
  end.

Fixpoint sequence {A : Type} (l : list (option A)) : option (list A) :=
  match l with
  | [] => Some []
  | x :: rest =>
      match x, sequence rest with
      | Some a, Some r => Some (a :: r)
      | _, _ => None
      end
  end.

Section Conversions.
Context {host : Host}.

(** [String(v)] and the conversion template literals apply.  An array
    joins its elements with commas, [null] and [undefined] elements
    contributing nothing; a plain object prints as [[object Object]], and
    raises when it carries an own [toString] entry (which, coming from
    JSON, cannot be called). *)
Fixpoint toString (v : JsVal) : option string :=
  match v with
  | JUndefined => Some "undefined"
  | JNull => Some "null"
  | JBool true => Some "true"
  | JBool false => Some "false"
  | JNum n => Some (Number_toString n)
  | JStr s => Some s
  | JArr items =>
      join "," <$>
        sequence (List.map (fun x => if nullish x then Some "" else toString x) items)
  | JObj fields =>
      if has_key "toString" fields then None else Some "[object Object]"
  end.

(** [Number(v)]. *)
Definition toNumber (v : JsVal) : option float :=
  match v with
  | JUndefined => Some nan
  | JNull => Some 0%float
  | JBool b => Some (if b then 1%float else 0%float)
  | JNum n => Some n
  | JStr s => Some (StringToNumber s)
  | JArr _ | JObj _ => StringToNumber <$> toString v
  end.

End Conversions.

(** ** String methods *)

Definition lower_char (c : ascii) : ascii :=
  let n := nat_of_ascii c in
  if (65 <=? n)%nat && (n <=? 90)%nat then ascii_of_nat (n + 32) else c.

(** [s.toLowerCase()]. *)
Fixpoint toLowerCase (s : string) : string :=
  match s with
  | EmptyString => EmptyString
  | String c rest => String (lower_char c) (toLowerCase rest)
  end.

Definition is_white (c : ascii) : bool :=
  let n := nat_of_ascii c in
  ((9 <=? n)%nat && (n <=? 13)%nat) || (n =? 32)%nat.

Fixpoint trimStart (s : string) : string :=
  match s with
  | EmptyString => EmptyString
  | String c rest => if is_white c then trimStart rest else s
  end.

(** Drops trailing white space: a character is kept when it is not white
    or when something is kept after it. *)
Fixpoint trimEnd (s : string) : string :=
  match s with
  | EmptyString => EmptyString
  | String c rest =>
      match trimEnd rest with
      | EmptyString => if is_white c then EmptyString else String c EmptyString
      | kept => String c kept
      end
  end.

(** [s.trim()]. *)
Definition trim (s : string) : string := trimEnd (trimStart s).

(** [s.includes(needle)]. *)
Fixpoint includes (needle s : string) : bool :=
  String.prefix needle s ||
  match s with
  | EmptyString => false
  | String _ rest => includes needle rest
  end.

(** [s.slice(0, n)]. *)
Definition slice_to (n : nat) (s : string) : string := String.substring 0 n s.

(** [s.replace(/<[^>]+>/g, '')].  [open] is [None] outside a candidate tag
    and otherwise holds, in reverse, what followed the [<] that may start
    one.  A [>] closes the candidate when at least one character was
    collected, and the whole tag is dropped; [<>] is not a tag and is kept.
    A candidate still open at the end of the text matched nothing and is
    kept as it stands. *)
Fixpoint strip_tags_from (open : option string) (s : string) : string :=
  match s, open with
  | EmptyString, None => EmptyString
  | EmptyString, Some inside => String "<" (String.rev inside)
  | String c rest, None =>
      if Ascii.eqb c "<" then strip_tags_from (Some EmptyString) rest
      else String c (strip_tags_from None rest)
  | String c rest, Some inside =>
      if Ascii.eqb c ">" then
        match inside with
        | EmptyString => String "<" (String ">" (strip_tags_from None rest))
        | _ => strip_tags_from None rest
        end
      else strip_tags_from (Some (String c inside)) rest
  end.

Definition strip_tags (s : string) : string := strip_tags_from None s.

(** [s.split(',')]. *)
Fixpoint split_commas_from (cur : string) (s : string) : list string :=
  match s with
  | EmptyString => [String.rev cur]
  | String c rest =>
      if Ascii.eqb c "," then String.rev cur :: split_commas_from EmptyString rest
      else split_commas_from (String c cur) rest
  end.

Definition split_commas (s : string) : list string :=
  split_commas_from EmptyString s.

End Js.

(* ===================================================================== *)
(** * A host for running the definitions on examples *)
(* ===================================================================== *)

Module ExampleHost.
Import Js.

Definition digit_of (c : ascii) : option Z :=
  let n := nat_of_ascii c in
  if (48 <=? n)%nat && (n <=? 57)%nat then Some (Z.of_nat n - 48) else None.

(** Reads a run of digits: the value accumulated onto [acc], the number of
    digits read, and what follows the run. *)
Fixpoint read_digits (s : string) (acc : Z) (count : nat) : Z * nat * string :=
  match s with
  | EmptyString => (acc, count, s)
  | String c rest =>
      match digit_of c with
      | Some d => read_digits rest (10 * acc + d) (S count)
      | None => (acc, count, s)
      end
  end.

(** [digits], [digits.], [digits.digits] or [.digits]: the digits read as
    one integer, and how many of them follow the point. *)
Definition read_unsigned (s : string) : option (Z * nat) :=
  let '(whole, n_whole, rest) := read_digits s 0 0 in
  match rest with
  | EmptyString => if (n_whole =? 0)%nat then None else Some (whole, 0%nat)
  | String c rest' =>
      if Ascii.eqb c "." then
        let '(all, n_frac, rest'') := read_digits rest' whole 0 in
        match rest'' with
        | EmptyString =>
            if (n_whole + n_frac =? 0)%nat then None else Some (all, n_frac)
        | _ => None
        end
      else None
  end.

(** The binary64 value of [digits / 10^places].  Both operands are exact
    in binary64 under the bounds tested, so the one rounding of the division
    gives the nearest binary64 value of the numeral, as the language
    requires. *)
Definition float_of_decimal (digits : Z) (places : nat) : float :=
  if (digits <? 2 ^ 53)%Z && (places <=? 18)%nat then
    PrimFloat.div (PrimFloat.of_uint63 (Uint63.of_Z digits))
                  (PrimFloat.of_uint63 (Uint63.of_Z (10 ^ Z.of_nat places)))
  else nan.

(** [Number(s)] on white space (zero) and on signed decimal numerals
    without exponent; other spellings (exponents, [Infinity], radix
    prefixes) and numerals beyond the bounds above are outside what this
    host reads and come out as NaN. *)
Definition read_decimal (s : string) : float :=
  match trim s with
  | EmptyString => 0%float
  | String c rest as t =>
      if Ascii.eqb c "-" then
        match read_unsigned rest with
        | Some (d, k) => PrimFloat.opp (float_of_decimal d k)
        | None => nan
        end
      else
        match read_unsigned (if Ascii.eqb c "+" then rest else t) with
        | Some (d, k) => float_of_decimal d k
        | None => nan
        end
  end.

(** The examples below read decimal numerals and nothing else from the
    host: they never format a number, parse a date or call a trigonometric
    function, and those entries are left inert. *)
Definition example_host : Host :=
  {| Number_toString := fun _ => EmptyString;
     StringToNumber := read_decimal;
     Date_parse := fun _ => nan;
     Math_sin := fun _ => nan;
     Math_cos := fun _ => nan;
     Math_atan2 := fun _ _ => nan |}.

End ExampleHost.

(* ===================================================================== *)
(** * SHA-256 (FIPS 180-4), as [createHash('sha256')] computes it *)
(* ===================================================================== *)

Module Sha256.

(** 32-bit words are kept in [Z], reduced with the mask after every
    operation that can leave the range. *)
Definition mask32 : Z := 0xffffffff.
Definition wrap32 (x : Z) : Z := Z.land x mask32.
Definition add32 (x y : Z) : Z := wrap32 (x + y).
Definition not32 (x : Z) : Z := Z.lxor x mask32.
Definition rotr (n x : Z) : Z :=
  Z.lor (Z.shiftr x n) (wrap32 (Z.shiftl x (32 - n))).
Definition shr (n x : Z) : Z := Z.shiftr x n.

Definition Ch (x y z : Z) : Z := Z.lxor (Z.land x y) (Z.land (not32 x) z).
Definition Maj (x y z : Z) : Z :=
  Z.lxor (Z.lxor (Z.land x y) (Z.land x z)) (Z.land y z).
Definition Sigma0 (x : Z) : Z := Z.lxor (Z.lxor (rotr 2 x) (rotr 13 x)) (rotr 22 x).
Definition Sigma1 (x : Z) : Z := Z.lxor (Z.lxor (rotr 6 x) (rotr 11 x)) (rotr 25 x).
Definition sigma0 (x : Z) : Z := Z.lxor (Z.lxor (rotr 7 x) (rotr 18 x)) (shr 3 x).
Definition sigma1 (x : Z) : Z := Z.lxor (Z.lxor (rotr 17 x) (rotr 19 x)) (shr 10 x).

(** The constants are fixed by the standard as fractional parts of roots of
    the first primes, and are computed here from that description. *)
Definition is_prime (n : Z) : bool :=
  (1 <? n)%Z && forallb (fun d => negb (n mod d =? 0)%Z)
                  (List.map Z.of_nat (seq 2 (Z.to_nat n - 2))).

Definition first_primes (count : nat) : list Z :=
  firstn count (List.filter is_prime (List.map Z.of_nat (seq 2 400))).

(** The largest [x] between [lo] and [hi] whose cube is at most [n], by
    bisection; [steps] halvings are enough when [hi - lo < 2 ^ steps]. *)
Fixpoint cube_root_between (steps : nat) (lo hi n : Z) : Z :=
  match steps with
  | O => lo
  | S steps' =>
      let mid := (lo + hi + 1) / 2 in
      if (mid * mid * mid <=? n)%Z then cube_root_between steps' mid hi n
      else cube_root_between steps' lo (mid - 1) n
  end.

Definition cube_root (n : Z) : Z := cube_root_between 40 0 (2 ^ 39) n.

(** The first 32 bits of the fractional part of the cube root of each of
    the first sixty-four primes. *)
Definition K : list Z :=
  Eval vm_compute in
    List.map (fun p => wrap32 (cube_root (p * 2 ^ 96))) (first_primes 64).

(** The first 32 bits of the fractional part of the square root of each of
    the first eight primes. *)
Definition H0 : list Z :=
  Eval vm_compute in
    List.map (fun p => wrap32 (Z.sqrt (p * 2 ^ 64))) (first_primes 8).

(** The message followed by the bit 1, zero bytes up to 56 modulo 64, and
    the bit length as a 64-bit big-endian integer. *)
Definition be_bytes (count : nat) (x : Z) : list Z :=
  List.map (fun i => Z.land (Z.shiftr x (8 * Z.of_nat (count - 1 - i))) 0xff)
    (seq 0 count).

Definition pad (msg : list Z) : list Z :=
  let len := Z.of_nat (length msg) in
  msg ++ [0x80] ++ repeat 0 (Z.to_nat ((55 - len) mod 64)) ++ be_bytes 8 (8 * len).

Definition word_of_bytes (bs : list Z) : Z :=
  fold_left (fun acc b => Z.lor (Z.shiftl acc 8) b) bs 0.

(** Cuts a list into pieces of [size] elements; [n] bounds the number of
    pieces and is the length of the list where it is used. *)
Fixpoint chunks {A : Type} (size : nat) (n : nat) (l : list A) : list (list A) :=
  match n, l with
  | O, _ | _, [] => []
  | S n', _ => firstn size l :: chunks size n' (skipn size l)
  end.

Definition words_of_block (block : list Z) : list Z :=
  List.map word_of_bytes (chunks 4 16 block).

(** The message schedule: sixteen words of the block, then forty-eight
    derived from the words 2, 7, 15 and 16 places back. *)
Fixpoint extend_schedule (steps : nat) (W : list Z) : list Z :=
  match steps with
  | O => W
  | S steps' =>
      let t := length W in
      let at_back k := nth (t - k) W 0 in
      extend_schedule steps'
        (W ++ [add32 (add32 (sigma1 (at_back 2%nat)) (at_back 7%nat))
                     (add32 (sigma0 (at_back 15%nat)) (at_back 16%nat))])
  end.

Definition schedule (block : list Z) : list Z :=
  extend_schedule 48 (words_of_block block).

Record Regs : Type := mkRegs { ra : Z; rb : Z; rc : Z; rd : Z; re : Z; rf : Z; rg : Z; rh : Z }.

Definition round (s : Regs) (kw : Z * Z) : Regs :=
  let '(k, w) := kw in
  let T1 := add32 (add32 (add32 (add32 (rh s) (Sigma1 (re s))) (Ch (re s) (rf s) (rg s))) k) w in
  let T2 := add32 (Sigma0 (ra s)) (Maj (ra s) (rb s) (rc s)) in
  {| ra := add32 T1 T2; rb := ra s; rc := rb s; rd := rc s;
     re := add32 (rd s) T1; rf := re s; rg := rf s; rh := rg s |}.

Definition compress (H : Regs) (block : list Z) : Regs :=
  let s := fold_left round (combine K (schedule block)) H in
  {| ra := add32 (ra H) (ra s); rb := add32 (rb H) (rb s);
     rc := add32 (rc H) (rc s); rd := add32 (rd H) (rd s);
     re := add32 (re H) (re s); rf := add32 (rf H) (rf s);
     rg := add32 (rg H) (rg s); rh := add32 (rh H) (rh s) |}.

Definition initial : Regs :=
  {| ra := nth 0 H0 0; rb := nth 1 H0 0; rc := nth 2 H0 0; rd := nth 3 H0 0;
     re := nth 4 H0 0; rf := nth 5 H0 0; rg := nth 6 H0 0; rh := nth 7 H0 0 |}.

Definition digest_words (msg : list Z) : list Z :=
  let padded := pad msg in
  let s := fold_left compress (chunks 64 (length padded) padded) initial in
  [ra s; rb s; rc s; rd s; re s; rf s; rg s; rh s].

Definition hex_digit (d : Z) : ascii :=
  if (d <? 10)%Z then ascii_of_nat (Z.to_nat (48 + d))
  else ascii_of_nat (Z.to_nat (87 + d)).

Definition hex_of_word (x : Z) : string :=
  fold_right (fun i acc => String (hex_digit (Z.land (Z.shiftr x (4 * Z.of_nat (7 - i))) 0xf)) acc)
    EmptyString (seq 0 8).

Definition bytes_of_string (s : string) : list Z :=
  List.map (fun c => Z.of_nat (nat_of_ascii c)) (list_ascii_of_string s).

(** [createHash('sha256').update(s).digest('hex')]. *)
Definition sha256_hex (s : string) : string :=
  fold_right String.append EmptyString (List.map hex_of_word (digest_words (bytes_of_string s))).

End Sha256.

(* ===================================================================== *)
(** * The rate limiter of [pages/api/jobs.ts] *)
(* ===================================================================== *)

Module RateLimit.

(** The value type of [ipStore]: [{ ts: number; count: number }]. *)
Record RateWindow : Type := mkWindow { ts : Z; count : Z }.

(** What [checkRateLimit] returns: [{ ok: true }] or
    [{ ok: false, retryAfterMs }]. *)
Record Admission : Type := mkAdmission { ok : bool; retryAfterMs : option Z }.

Definition rateLimitWindowMs : Z := 60000.
Definition rateLimitMax : Z := 60.

Definition allowed : Admission := {| ok := true; retryAfterMs := None |}.

(** [checkRateLimit ip], with the clock reading [now = Date.now()] and the
    module-level [ipStore] passed explicitly; the updated store is returned
    next to the result.  [rec.count += 1] writes through the object held by
    the map, which is an insertion at the same key. *)
Definition checkRateLimit (now : Z) (ip : string)
    (ipStore : gmap string RateWindow) : Admission * gmap string RateWindow :=
  match ipStore !! ip with
  | None => (allowed, <[ip := {| ts := now; count := 1 |}]> ipStore)
  | Some rec =>
      if now - ts rec >? rateLimitWindowMs then
        (allowed, <[ip := {| ts := now; count := 1 |}]> ipStore)
      else if count rec >=? rateLimitMax then
        ({| ok := false;
            retryAfterMs := Some (rateLimitWindowMs - (now - ts rec)) |},
         ipStore)
      else
        (allowed, <[ip := {| ts := ts rec; count := count rec + 1 |}]> ipStore)
  end.

(** A sequence of calls for one key, at the given clock readings. *)
Fixpoint calls (nows : list Z) (ip : string) (ipStore : gmap string RateWindow)
    : list Admission * gmap string RateWindow :=
  match nows with
  | [] => ([], ipStore)
  | now :: rest =>
      let '(a, st) := checkRateLimit now ip ipStore in
      let '(others, st') := calls rest ip st in
      (a :: others, st')
  end.

(** The window opened at [start] has not elapsed at [now]: fewer than
    [rateLimitWindowMs] milliseconds have passed. *)
Definition within_window (start now : Z) : Prop :=
  now - start < rateLimitWindowMs.

End RateLimit.

(* ===================================================================== *)
(** * What [fetch] gives back *)
(* ===================================================================== *)

Module Net.
Import Js.

(** A response as the sources look at it: [r.ok], [r.status], [r.text()]
    and [r.json()], whose promise rejects when the body is not JSON
    ([None]); [json_error] is the message of the error it rejects with
    then, which is the parser's and differs from body to body. *)
Record Response : Type := mkResponse {
  ok : bool;
  status : Z;
  text : string;
  json : option JsVal;
  json_error : string
}.

(** [await fetch(...)] either raises (the network failed) or yields a
    response. *)
Inductive FetchOutcome : Type :=
| Rejected (reason : string)
| Fulfilled (r : Response).

(** How a piece of code ends: with a value, or with a raised exception
    carrying its message. *)
Inductive Outcome (A : Type) : Type :=
| Returned (a : A)
| Thrown (message : string).
Arguments Returned {A} a.
Arguments Thrown {A} message.

(** An asynchronous function over a state [S] (caches, the requests sent):
    it runs from a state to an outcome and the state it leaves.  What was
    written or sent before an exception stays. *)
Definition Task (S A : Type) : Type := S -> Outcome A * S.

Definition ret {S A : Type} (a : A) : Task S A := fun w => (Returned a, w).

Definition throw {S A : Type} (message : string) : Task S A :=
  fun w => (Thrown message, w).

Definition bind {S A B : Type} (t : Task S A) (k : A -> Task S B) : Task S B :=
  fun w =>
    match t w with
    | (Returned a, w') => k a w'
    | (Thrown message, w') => (Thrown message, w')
    end.

(** [try { body } catch (err) { handler }]. *)
Definition try_catch {S A : Type} (body : Task S A) (handler : string -> Task S A)
    : Task S A :=
  fun w =>
    match body w with
    | (Returned a, w') => (Returned a, w')
    | (Thrown message, w') => handler message w'
    end.

(** An operation that raises a [TypeError] when it has no result. *)
Definition or_type_error {S A : Type} (o : option A) : Task S A :=
  match o with
  | Some a => ret a
  | None => throw "TypeError"
  end.

(** [await r.json()] *)
Definition read_json {S : Type} (r : Response) : Task S JsVal :=
  match json r with
  | Some j => ret j
  | None => throw (json_error r)
  end.

Declare Scope task_scope.
Delimit Scope task_scope with task.
Notation "'do' x <~ t ;; k" := (bind t (fun x => k))
  (at level 10, x name, t at level 99, k at level 200) : task_scope.

End Net.

(* ===================================================================== *)
(** * The geocode resolver of [utils/geocode.ts] *)
(* ===================================================================== *)

Module Geocode.
Import Js Net.

(** The object [{ lat, lon }]; [Geo] is such an object or [null]. *)
Record Coords : Type := mkCoords { lat : JsVal; lon : JsVal }.
Abbreviation Geo := (option Coords).

(** The two requests the module sends, by the query text that goes into
    the URL: [api.mapbox.com/geocoding/v5/mapbox.places/<query>.json] and
    [nominatim.openstreetmap.org/search?...&q=<query>]. *)
Inductive Request : Type :=
| MapboxRequest (query : string)
| NominatimRequest (query : string).

(** The module-level [cache] and the requests sent so far, oldest first. *)
Record World : Type := mkWorld {
  cache : gmap string Geo;
  sent : list Request
}.

Local Open Scope task_scope.

Definition cache_set (key : string) (value : Geo) : Task World unit :=
  fun w => (Returned tt, {| cache := <[key := value]> (cache w); sent := sent w |}).

Section Resolver.
Context {host : Host}.

(** [process.env.MAPBOX_TOKEN || ''] *)
Variable MAPBOX_TOKEN : string.

(** The outside world: what a request is answered with, given the requests
    sent before it. *)
Variable network : list Request -> Request -> FetchOutcome.

Definition USE_MAPBOX : bool := negb (String.eqb MAPBOX_TOKEN "").

(** [await fetch(url, ...)]: the request is recorded, then answered. *)
Definition fetch (req : Request) : Task World Response :=
  fun w =>
    let w' := {| cache := cache w; sent := sent w ++ [req] |} in
    match network (sent w) req with
    | Rejected reason => (Thrown reason, w')
    | Fulfilled r => (Returned r, w')
    end.

Definition geocodeMapbox (query : string) : Task World Geo :=
  if negb USE_MAPBOX then ret None
  else
    do r <~ fetch (MapboxRequest query) ;;
    if negb (ok r) then ret None
    else
      do j <~ read_json r ;;
      let c := index_opt (get_opt j "features") 0 in
      if negb (truthy c) then ret None
      else
        do center <~ or_type_error (get c "center") ;;
        do la <~ or_type_error (index center 1) ;;
        do lo <~ or_type_error (index center 0) ;;
        ret (Some {| lat := la; lon := lo |}).

(** The function wrapped by [nominatimThrottle]; the throttle postpones
    the start of a call and passes its outcome through. *)
Definition geocodeNominatimThrottled (query : string) : Task World Geo :=
  do r <~ fetch (NominatimRequest query) ;;
  if negb (ok r) then ret None
  else
    do j <~ read_json r ;;
    let item := index_opt j 0 in
    if negb (truthy item) then ret None
    else
      do item_lat <~ or_type_error (get item "lat") ;;
      do la <~ or_type_error (toNumber item_lat) ;;
      do item_lon <~ or_type_error (get item "lon") ;;
      do lo <~ or_type_error (toNumber item_lon) ;;
      ret (Some {| lat := JNum la; lon := JNum lo |}).

(** [x || ''] for an optional string. *)
Definition or_empty (x : option string) : string :=
  match x with
  | Some s => s
  | None => EmptyString
  end.

(** [!x] for an optional string: absent or empty. *)
Definition blank (x : option string) : bool :=
  String.eqb (or_empty x) "".

(** [`${(company || '').trim().toLowerCase()}|${(city || '').trim().toLowerCase()}`] *)
Definition cache_key (company city : option string) : string :=
  toLowerCase (trim (or_empty company)) +:+ "|" +:+ toLowerCase (trim (or_empty city)).

(** [`${company ? company + ' ' : ''}${city ?? ''}`] *)
Definition provider_query (company city : option string) : string :=
  (if blank company then EmptyString else or_empty company +:+ " ") +:+ or_empty city.

Definition fetchGeocodeIfNeeded (company city : option string) : Task World Geo :=
  fun w =>
    let key := cache_key company city in
    if blank company && blank city then (Returned None, w)
    else
      match cache w !! key with
      | Some cached => (Returned cached, w)
      | None =>
          try_catch
            (do res <~ (if USE_MAPBOX then geocodeMapbox (provider_query company city)
                     else ret None) ;;
             do res <~ (match res with
                     | Some found => ret (Some found)
                     | None => geocodeNominatimThrottled (provider_query company city)
                     end) ;;
             do _ <~ cache_set key res ;;
             ret res)
            (fun _ => do _ <~ cache_set key None ;; ret None)
            w
      end.

(** Several calls one after the other; the worlds are threaded and the
    results returned in order. *)
Fixpoint resolve_all (pairs : list (option string * option string)) : Task World (list Geo) :=
  match pairs with
  | [] => ret []
  | (company, city) :: rest =>
      do g <~ fetchGeocodeIfNeeded company city ;;
      do gs <~ resolve_all rest ;;
      ret (g :: gs)
  end.

End Resolver.

End Geocode.

(* ===================================================================== *)
(** * The normaliser of [pages/api/jobs.ts] *)
(* ===================================================================== *)

Module Jobs.
Import Js.

(** The object literal [mapAdzunaToJob] returns.  [salary_min] and
    [salary_max] are a number or [undefined] ([None]); [title], [company],
    [city], [url] and [posted_at] hold whatever the record supplied.
    [mapAdzunaToJob] leaves a number or [undefined] in [lat] and [lon]; the
    handler later stores there what the geocoder returned, which for
    Mapbox is any value of the answer's [center] array ([null], a text,
    ...).  So the two fields hold a value of any kind. *)
Record Job : Type := mkJob {
  id : string;
  title : JsVal;
  company : JsVal;
  city : JsVal;
  salary_min : option float;
  salary_max : option float;
  remote : bool;
  lat : JsVal;
  lon : JsVal;
  url : JsVal;
  description : string;
  posted_at : JsVal;
  source : string
}.

(** [v.slice(-1)]: defined on arrays and strings; on anything else the
    call raises. *)
Definition slice_last (v : JsVal) : option JsVal :=
  match v with
  | JArr [] => Some (JArr [])
  | JArr items => Some (JArr [List.last items JUndefined])
  | JStr s =>
      Some (JStr (String.substring (String.length s - 1) 1 s))
  | _ => None
  end.

(** [r.location?.area?.slice(-1)?.[0]]. *)
Definition last_area_opt (location : JsVal) : option JsVal :=
  let area := get_opt location "area" in
  if nullish area then Some JUndefined
  else s ← slice_last area; Some (index_opt s 0).

(** [r.contract_type && String(r.contract_type).toLowerCase().includes('remote')],
    under [!!]. *)
Definition contract_is_remote {host : Host} (contract_type : JsVal) : option bool :=
  if truthy contract_type then
    s ← toString contract_type; Some (includes "remote" (toLowerCase s))
  else Some false.

(** [typeof top === 'number' ? top : typeof nested === 'number' ? nested : undefined]. *)
Definition number_or_nested (top nested : JsVal) : option float :=
  match as_number top with
  | Some n => Some n
  | None => as_number nested
  end.

(** [x ? Number(x) : undefined]. *)
Definition number_if_truthy {host : Host} (x : JsVal) : option (option float) :=
  if truthy x then Some <$> toNumber x else Some None.

(** A number or [undefined], as a value. *)
Definition optional_number (x : option float) : JsVal :=
  match x with
  | Some n => JNum n
  | None => JUndefined
  end.

(** [mapAdzunaToJob]; [None] is the [null] of the [catch] branch. *)
Definition mapAdzunaToJob {host : Host} (r : JsVal) : option Job :=
  r_company ← get r "company";
  r_location ← get r "location";
  id_source ←
    or_else (or_else (get r "id") (get r "job_id"))
      (r_title ← get r "title";
       t ← toString r_title;
       c ← toString (get_opt r_company "display_name");
       l ← toString (get_opt r_location "display_name");
       Some (JStr (t +:+ "-" +:+ c +:+ "-" +:+ l)));
  id ← toString id_source;
  title ← or_else (get r "title") (Some (JStr "No title"));
  company ←
    or_else (or_else (Some (get_opt r_company "display_name")) (Some r_company))
      (Some (JStr "Unknown"));
  city ←
    or_else
      (or_else
         (or_else (Some (get_opt r_location "display_name"))
            (get r "location_display_name"))
         (last_area_opt r_location))
      (Some (JStr "Unknown"));
  r_salary_min ← get r "salary_min";
  salary_min ← number_if_truthy r_salary_min;
  r_salary_max ← get r "salary_max";
  salary_max ← number_if_truthy r_salary_max;
  r_contract ← get r "contract_type";
  contract_remote ← contract_is_remote r_contract;
  r_remote ← get r "remote";
  r_latitude ← get r "latitude";
  r_longitude ← get r "longitude";
  url ← or_else (or_else (get r "redirect_url") (get r "url")) (get r "source_url");
  text ← or_else (or_else (get r "description") (get r "summary")) (Some (JStr ""));
  description ←
    match text with
    | JStr s => Some (slice_to 2000 (strip_tags s))
    | _ => None
    end;
  posted_at ← or_else (or_else (get r "created") (get r "publication_date")) (Some JUndefined);
  Some {| id := id; title := title; company := company; city := city;
          salary_min := salary_min; salary_max := salary_max;
          remote := contract_remote || truthy r_remote;
          lat := optional_number
                   (number_or_nested r_latitude (get_opt r_location "latitude"));
          lon := optional_number
                   (number_or_nested r_longitude (get_opt r_location "longitude"));
          url := url; description := description; posted_at := posted_at;
          source := "adzuna" |}.

(** ** The filter and sort steps of [handler] *)

(** A value of [req.query]: absent, one text, or several. *)
Inductive QueryValue : Type :=
| QAbsent
| QText (s : string)
| QMany (values : list string).

Record Query : Type := mkQuery {
  bbox : QueryValue;
  center_lat : QueryValue;
  center_lon : QueryValue;
  radius_km : QueryValue;
  sort : QueryValue
}.

Definition query_truthy (v : QueryValue) : bool :=
  match v with
  | QAbsent => false
  | QText s => negb (String.eqb s "")
  | QMany _ => true
  end.

(** [Number(v)] for a query value. *)
Definition query_number {host : Host} (v : QueryValue) : float :=
  match v with
  | QAbsent => nan
  | QText s => StringToNumber s
  | QMany values => StringToNumber (join "," values)
  end.

(** [v === text] *)
Definition query_is (v : QueryValue) (text : string) : bool :=
  match v with
  | QText s => String.eqb s text
  | _ => false
  end.

Definition is_neg_zero (x : float) : bool :=
  PrimFloat.is_zero x && PrimFloat.get_sign x.

(** [Math.min] and [Math.max] of two numbers: NaN when either is NaN, and
    the negative zero below the positive one. *)
Definition Math_min (x y : float) : float :=
  if PrimFloat.is_nan x || PrimFloat.is_nan y then nan
  else if PrimFloat.ltb x y then x
  else if PrimFloat.ltb y x then y
  else if is_neg_zero x then x else y.

Definition Math_max (x y : float) : float :=
  if PrimFloat.is_nan x || PrimFloat.is_nan y then nan
  else if PrimFloat.ltb x y then y
  else if PrimFloat.ltb y x then x
  else if is_neg_zero x then y else x.

(** [bbox.split(',').map(Number).filter((n) => !Number.isNaN(n))] *)
Definition bbox_parts {host : Host} (text : string) : list float :=
  List.filter (fun n => negb (PrimFloat.is_nan n))
    (List.map StringToNumber (split_commas text)).

Record Box : Type := mkBox {
  minLon : float;
  maxLon : float;
  minLat : float;
  maxLat : float
}.

(** The box read from [[a, b, c, d]]: first as [lon, lat, lon, lat]; then,
    when [a] and [c] fit a latitude and [b] and [d] a longitude, as
    [lat, lon, lat, lon]. *)
Definition box_of_parts (a b c d : float) : Box :=
  if PrimFloat.leb (PrimFloat.abs a) 90 && PrimFloat.leb (PrimFloat.abs c) 90
     && PrimFloat.leb (PrimFloat.abs b) 180 && PrimFloat.leb (PrimFloat.abs d) 180
  then {| minLat := Math_min a c; maxLat := Math_max a c;
          minLon := Math_min b d; maxLon := Math_max b d |}
  else {| minLon := Math_min a c; maxLon := Math_max a c;
          minLat := Math_min b d; maxLat := Math_max b d |}.

Section Steps.
Context {host : Host}.

(** [x >= bound] and [x <= bound] for a number [bound]: [x] is converted
    to a number first ([undefined] to NaN, [null] to 0, a text to the number
    it spells), which raises ([None]) where [Number(x)] does; a comparison
    with NaN is false. *)
Definition at_least (x : JsVal) (bound : float) : option bool :=
  n ← toNumber x; Some (PrimFloat.leb bound n).

Definition at_most (x : JsVal) (bound : float) : option bool :=
  n ← toNumber x; Some (PrimFloat.leb n bound).

(** [a && b], where [b] is evaluated only when [a] is true. *)
Definition and_then (a : option bool) (b : option bool) : option bool :=
  match a with
  | Some true => b
  | Some false => Some false
  | None => None
  end.

(** [j.lat >= minLat && j.lat <= maxLat && j.lon >= minLon && j.lon <= maxLon] *)
Definition in_box (box : Box) (j : Job) : option bool :=
  and_then (at_least (lat j) (minLat box))
    (and_then (at_most (lat j) (maxLat box))
       (and_then (at_least (lon j) (minLon box))
          (at_most (lon j) (maxLon box)))).

Definition Math_PI : float := 0x1.921fb54442d18p+1%float.

(** [(deg * Math.PI) / 180] *)
Definition toRad (deg : float) : float := (deg * Math_PI / 180)%float.

Definition haversine (lat1 lon1 lat2 lon2 : float) : float :=
  let R := 6371%float in
  let dLat := toRad (lat2 - lat1) in
  let dLon := toRad (lon2 - lon1) in
  let a :=
    (Math_sin (dLat / 2) * Math_sin (dLat / 2)
     + Math_cos (toRad lat1) * Math_cos (toRad lat2)
       * Math_sin (dLon / 2) * Math_sin (dLon / 2))%float in
  let c := (2 * Math_atan2 (PrimFloat.sqrt a) (PrimFloat.sqrt (1 - a)))%float in
  (R * c)%float.

(** [haversine(centerLat, centerLon, j.lat, j.lon) <= radius]; the
    arithmetic of [haversine] converts [j.lat] and [j.lon] to numbers. *)
Definition in_radius (centerLat centerLon radius : float) (j : Job) : option bool :=
  la ← toNumber (lat j);
  lo ← toNumber (lon j);
  Some (PrimFloat.leb (haversine centerLat centerLon la lo) radius).

(** [center_lat && center_lon && radius_km], and the test it selects. *)
Definition radius_filter (q : Query) : option (Job -> option bool) :=
  if query_truthy (center_lat q) && query_truthy (center_lon q)
     && query_truthy (radius_km q) then
    Some (in_radius (query_number (center_lat q)) (query_number (center_lon q))
            (query_number (radius_km q)))
  else None.

(** Which test, if any, the request asks for.  A non-empty [bbox] text
    decides alone: when it does not hold four numbers nothing is filtered,
    whatever the centre and radius say.  A test answers [None] when it
    raises. *)
Definition job_filter (q : Query) : option (Job -> option bool) :=
  match bbox q with
  | QText text =>
      if negb (String.eqb text "") then
        match bbox_parts text with
        | [a; b; c; d] => Some (in_box (box_of_parts a b c d))
        | _ => None
        end
      else radius_filter q
  | _ => radius_filter q
  end.

(** [x.salary_max ?? 0] and [x.salary_min ?? 0] *)
Definition or_zero (x : option float) : float :=
  match x with
  | Some v => v
  | None => 0%float
  end.

(** [a.posted_at ? Date.parse(a.posted_at) : 0]; [Date.parse] converts its
    argument to text first, which can raise ([None]). *)
Definition date_key (j : Job) : option float :=
  if truthy (posted_at j) then Date_parse <$> toString (posted_at j)
  else Some 0%float.

(** The date a comparator works with; it is only consulted for jobs whose
    [date_key] is defined (see [job_order]). *)
Definition date_of (j : Job) : float :=
  match date_key j with
  | Some v => v
  | None => nan
  end.

(** The order the request asks for.  A sort of two or more jobs calls the
    comparator on every one of them, so the date comparator raises as soon
    as one date cannot be computed. *)
Inductive Order : Type :=
| Unsorted
| SortBy (compare : Job -> Job -> float)
| ComparatorRaises.

Definition job_order (q : Query) (jobs : list Job) : Order :=
  if query_is (sort q) "salary_desc" then
    SortBy (fun a b => (or_zero (salary_max b) - or_zero (salary_max a))%float)
  else if query_is (sort q) "salary_asc" then
    SortBy (fun a b => (or_zero (salary_min a) - or_zero (salary_min b))%float)
  else if query_is (sort q) "date_desc" then
    if (2 <=? length jobs)%nat
       && negb (forallb (fun j => bool_decide (is_Some (date_key j))) jobs)
    then ComparatorRaises
    else SortBy (fun a b => (date_of b - date_of a)%float)
  else Unsorted.

End Steps.

(** The stable sort by insertion: [x] goes after [y] when
    [compare x y > 0], and elements that do not compare that way keep their
    order. *)
Fixpoint insert_sorted {A : Type} (compare : A -> A -> float) (x : A) (sorted : list A) : list A :=
  match sorted with
  | [] => [x]
  | y :: rest =>
      if PrimFloat.ltb 0 (compare x y) then y :: insert_sorted compare x rest
      else x :: sorted
  end.

Definition sort_with {A : Type} (compare : A -> A -> float) (l : list A) : list A :=
  fold_right (insert_sorted compare) [] l.

(** A comparator is consistent on the elements of [l] when it never
    answers NaN and its answers below, at and above zero behave as an
    order with ties (the condition of the language specification on the
    comparator of [Array.prototype.sort]). *)
Definition consistent {A : Type} (compare : A -> A -> float) (l : list A) : Prop :=
  forall a b c, In a l -> In b l -> In c l ->
    PrimFloat.is_nan (compare a b) = false /\
    PrimFloat.eqb (compare a a) 0 = true /\
    (PrimFloat.eqb (compare a b) 0 = true -> PrimFloat.eqb (compare b a) 0 = true) /\
    (PrimFloat.eqb (compare a b) 0 = true -> PrimFloat.eqb (compare b c) 0 = true ->
     PrimFloat.eqb (compare a c) 0 = true) /\
    (PrimFloat.ltb (compare a b) 0 = true -> PrimFloat.ltb (compare b c) 0 = true ->
     PrimFloat.ltb (compare a c) 0 = true) /\
    (PrimFloat.ltb 0 (compare a b) = true -> PrimFloat.ltb 0 (compare b c) = true ->
     PrimFloat.ltb 0 (compare a c) = true).

(** [Array.prototype.sort] with a comparator, as the engine runs it.  The
    result holds the elements it was given.  With a consistent comparator
    the order is the stable sorted one; otherwise (a comparator that
    answers NaN, for one) the order is the engine's own choice, and
    nothing is assumed about it. *)
Class SortEngine : Type := {
  engine_sort : forall A : Type, (A -> A -> float) -> list A -> list A;
  engine_sort_permutation :
    forall (A : Type) (compare : A -> A -> float) (l : list A),
      engine_sort A compare l ≡ₚ l;
  engine_sort_consistent :
    forall (A : Type) (compare : A -> A -> float) (l : list A),
      consistent compare l -> engine_sort A compare l = sort_with compare l
}.

(** References into the heap. *)
Abbreviation loc := positive.

(** Arrays hold references to job objects; two variables naming the same
    array see each other's writes. *)
Record Heap : Type := mkHeap {
  arrays : gmap loc (list loc);
  objects : gmap loc Job
}.

(** The job objects an array refers to, in order. *)
Definition jobs_of (h : Heap) (items : list loc) : option (list Job) :=
  mapM (fun l => objects h !! l) items.

(** [arr.filter(test)]: a new array holding the references that pass.
    A test that raises ends the call ([None]). *)
Definition array_filter (test : Job -> option bool) (h : Heap) (arr : loc)
    : option (loc * Heap) :=
  items ← arrays h !! arr;
  kept ← mapM (fun l => j ← objects h !! l; pass ← test j; Some (l, pass)) items;
  let fresh_loc := fresh (dom (arrays h)) in
  Some (fresh_loc,
        {| arrays := <[fresh_loc := (List.map fst (List.filter snd kept))]> (arrays h);
           objects := objects h |}).

Section Sorting.
Context {engine : SortEngine}.

(** The references of an array in the order the engine's sort gives them
    when [compare] is applied to the jobs they refer to. *)
Definition sorted_refs (compare : Job -> Job -> float) (h : Heap) (items : list loc)
    : option (list loc) :=
  paired ← mapM (fun l => j ← objects h !! l; Some (l, j)) items;
  Some (List.map fst (engine_sort _ (fun x y => compare (snd x) (snd y)) paired)).

(** [arr.sort(compare)]: the array itself is reordered. *)
Definition array_sort (compare : Job -> Job -> float) (h : Heap) (arr : loc) : option Heap :=
  items ← arrays h !! arr;
  sorted ← sorted_refs compare h items;
  Some {| arrays := <[arr := sorted]> (arrays h); objects := objects h |}.

(** The two steps, from [let filtered = jobsWithCoords] to the end of the
    sorting, on the array [jobsWithCoords] names.  The result is the array
    [filtered] names at the end, and the heap.  [None] stands for the runs
    that do not get to the end of the sorting: a filter test or a
    comparator that raises (the handler then answers 500), or a reference
    to nothing. *)
Definition filter_and_sort {host : Host} (q : Query) (h : Heap) (jobsWithCoords : loc)
    : option (loc * Heap) :=
  '(filtered, h1) ←
    match job_filter q with
    | Some test => array_filter test h jobsWithCoords
    | None => Some (jobsWithCoords, h)
    end;
  items ← arrays h1 !! filtered;
  jobs ← jobs_of h1 items;
  match job_order q jobs with
  | Unsorted => Some (filtered, h1)
  | SortBy compare => h2 ← array_sort compare h1 filtered; Some (filtered, h2)
  | ComparatorRaises => None
  end.

End Sorting.

End Jobs.

(* ===================================================================== *)
(** * The normaliser of [app/api/cron/import-adzuna/route.ts] *)
(* ===================================================================== *)

Module ImportAdzuna.
Import Js Net.
Local Open Scope task_scope.

(** The object literal [mapAdzunaToUpsert] returns; [None] in an optional
    field is [null]. *)
Record JobUpsert : Type := mkUpsert {
  source : string;
  source_id : JsVal;
  title : JsVal;
  company : JsVal;
  city : JsVal;
  salary_min : option float;
  salary_max : option float;
  url : JsVal;
  description : option string;
  posted_at : JsVal;
  remote : bool;
  lat : option float;
  lon : option float;
  uniq_hash : string
}.

(** [Array.isArray(area) ? area.slice(-1)[0] : undefined]. *)
Definition last_of_array (area : JsVal) : JsVal :=
  match area with
  | JArr items => List.last items JUndefined
  | _ => JUndefined
  end.

(** [x ? Number(x) : null]. *)
Definition number_if_truthy {host : Host} (x : JsVal) : option (option float) :=
  if truthy x then Some <$> toNumber x else Some None.

(** [r.contract_type && String(r.contract_type).toLowerCase().includes('remote')],
    under [!!]. *)
Definition contract_is_remote {host : Host} (contract_type : JsVal) : option bool :=
  if truthy contract_type then
    s ← toString contract_type; Some (includes "remote" (toLowerCase s))
  else Some false.

(** [typeof top === 'number' ? top : typeof nested === 'number' ? nested : null]. *)
Definition number_or_nested (top nested : JsVal) : option float :=
  match as_number top with
  | Some n => Some n
  | None => as_number nested
  end.

(** The text that is hashed:
    [`${String(title).toLowerCase()}|${String(company)}|${String(city)}|${String(posted_at ?? '')}`]. *)
Definition hashInput {host : Host} (title company city posted_at : JsVal) : option string :=
  t ← toString title;
  c ← toString company;
  ci ← toString city;
  p ← toString (if nullish posted_at then JStr "" else posted_at);
  Some (toLowerCase t +:+ "|" +:+ c +:+ "|" +:+ ci +:+ "|" +:+ p).

(** [createHash('sha256').update(input).digest('hex').slice(0, 40)]. *)
Definition hash40 (input : string) : string :=
  slice_to 40 (Sha256.sha256_hex input).

(** [mapAdzunaToUpsert]; [None] is the [null] of the [catch] branch. *)
Definition mapAdzunaToUpsert {host : Host} (r : JsVal) : option JobUpsert :=
  title ← coalesce (get r "title") (Some (JStr "No title"));
  r_company ← get r "company";
  company ←
    coalesce (coalesce (Some (get_opt r_company "display_name")) (Some r_company))
      (Some (JStr "Unknown"));
  r_location ← get r "location";
  city ←
    coalesce
      (coalesce
         (coalesce (Some (get_opt r_location "display_name"))
            (get r "location_display_name"))
         (Some (last_of_array (get_opt r_location "area"))))
      (Some (JStr "Unknown"));
  r_salary_min ← get r "salary_min";
  salary_min ← number_if_truthy r_salary_min;
  r_salary_max ← get r "salary_max";
  salary_max ← number_if_truthy r_salary_max;
  r_contract ← get r "contract_type";
  contract_remote ← contract_is_remote r_contract;
  r_remote ← get r "remote";
  r_latitude ← get r "latitude";
  r_longitude ← get r "longitude";
  url ← coalesce (coalesce (get r "redirect_url") (get r "url")) (Some JNull);
  r_description ← get r "description";
  description ←
    (if truthy r_description then
       s ← toString r_description; Some (Some (slice_to 4000 (strip_tags s)))
     else Some None);
  posted_at ← coalesce (coalesce (get r "created") (get r "publication_date")) (Some JNull);
  r_job_id ← get r "job_id";
  source_id ←
    coalesce (get r "id")
      (if truthy r_job_id then JStr <$> toString r_job_id else Some JNull);
  input ← hashInput title company city posted_at;
  Some {| source := "adzuna";
          source_id := (if nullish source_id then JNull else source_id);
          title := title; company := company; city := city;
          salary_min := salary_min; salary_max := salary_max;
          url := url; description := description; posted_at := posted_at;
          remote := contract_remote || truthy r_remote;
          lat := number_or_nested r_latitude (get_opt r_location "latitude");
          lon := number_or_nested r_longitude (get_opt r_location "longitude");
          uniq_hash := hash40 input |}.

(** ** The [POST] route *)

(** [process.env], for the five names the module reads. *)
Record ProcessEnv : Type := mkEnv {
  env_ADZUNA_APP_ID : option string;
  env_ADZUNA_APP_KEY : option string;
  env_SUPABASE_URL : option string;
  env_SUPABASE_SERVICE_ROLE : option string;
  env_CRON_SECRET : option string
}.

(** [x ?? ''] for a text that may be missing. *)
Definition or_empty (x : option string) : string :=
  match x with
  | Some s => s
  | None => EmptyString
  end.

(** [!s] for a text. *)
Definition empty (s : string) : bool := String.eqb s "".

(** The two requests the module sends: a page of the Adzuna search and the
    upsert to the Supabase REST endpoint, by what goes into the URL, the
    headers and the body. *)
Inductive Request : Type :=
| AdzunaPage (app_id app_key : string) (page results_per_page : Z)
| SupabaseUpsert (restUrl service_role : string) (rows : list JobUpsert).

(** The body of the [Response] the route builds. *)
Inductive ReplyBody : Type :=
| Imported (count : Z)
| Failure (message hint : string).

Record Reply : Type := mkReply { reply_status : Z; reply_body : ReplyBody }.

(** [s.replace(/\/$/, '')]: one final slash is dropped. *)
Fixpoint drop_final_slash (s : string) : string :=
  match s with
  | EmptyString => EmptyString
  | String c rest =>
      match rest with
      | EmptyString => if Ascii.eqb c "/" then EmptyString else s
      | _ => String c (drop_final_slash rest)
      end
  end.

Section Route.
Context {host : Host}.
Variable env : ProcessEnv.

(** The outside world: what a request is answered with, given the requests
    sent before it. *)
Variable network : list Request -> Request -> FetchOutcome.

Definition ADZUNA_APP_ID : string := or_empty (env_ADZUNA_APP_ID env).
Definition ADZUNA_APP_KEY : string := or_empty (env_ADZUNA_APP_KEY env).
Definition SUPABASE_URL : string := or_empty (env_SUPABASE_URL env).
Definition SUPABASE_SERVICE_ROLE : string := or_empty (env_SUPABASE_SERVICE_ROLE env).
Definition CRON_SECRET : string := or_empty (env_CRON_SECRET env).

(** [await fetch(url, ...)]: the request is recorded, then answered. *)
Definition fetch (req : Request) : Task (list Request) Response :=
  fun sent =>
    match network sent req with
    | Rejected reason => (Thrown reason, (sent ++ [req])%list)
    | Fulfilled r => (Returned r, (sent ++ [req])%list)
    end.

Definition fetchAdzunaPage (page results_per_page : Z) : Task (list Request) JsVal :=
  do r <~ fetch (AdzunaPage ADZUNA_APP_ID ADZUNA_APP_KEY page results_per_page) ;;
  if negb (ok r) then
    throw ("Adzuna fetch failed " +:+ pretty (status r) +:+ ": " +:+ text r)
  else read_json r.

(** The loop over [pagesToFetch]: a page whose body is falsy or has no
    [results] array is skipped, the others are appended. *)
Fixpoint fetch_pages (pages : list Z) (resultsPerPage : Z) (allResults : list JsVal)
    : Task (list Request) (list JsVal) :=
  match pages with
  | [] => ret allResults
  | p :: rest =>
      do json <~ fetchAdzunaPage p resultsPerPage ;;
      match (if truthy json then get_opt json "results" else JUndefined) with
      | JArr results => fetch_pages rest resultsPerPage (allResults ++ results)%list
      | _ => fetch_pages rest resultsPerPage allResults
      end
  end.

(** The loop over [allResults]: the records [mapAdzunaToUpsert] maps to
    [null] are left out. *)
Definition upserts_of (allResults : list JsVal) : list JobUpsert :=
  omap mapAdzunaToUpsert allResults.

(** The count read from the store's answer. *)
Definition imported_count (resp : Response) (upserts : list JobUpsert) : Z :=
  match json resp with
  | Some (JArr rows) => Z.of_nat (length rows)
  | Some (JObj _) => 1
  | Some _ => 0
  | None => Z.of_nat (length upserts)
  end.

Definition POST (x_cron_secret : option string) : Task (list Request) Reply :=
  try_catch
    (let secret := or_empty x_cron_secret in
     if empty CRON_SECRET || negb (String.eqb secret CRON_SECRET) then
       ret {| reply_status := 401;
              reply_body := Failure "Unauthorized" "Invalid or missing x-cron-secret header" |}
     else if empty ADZUNA_APP_ID || empty ADZUNA_APP_KEY then
       ret {| reply_status := 500;
              reply_body := Failure "Server misconfiguration"
                              "ADZUNA_APP_ID and ADZUNA_APP_KEY must be set" |}
     else if empty SUPABASE_URL || empty SUPABASE_SERVICE_ROLE then
       ret {| reply_status := 500;
              reply_body := Failure "Server misconfiguration"
                              "SUPABASE_URL and SUPABASE_SERVICE_ROLE must be set" |}
     else
       do allResults <~ fetch_pages [1; 2; 3] 50 [] ;;
       let upserts := upserts_of allResults in
       if (length upserts =? 0)%nat then
         ret {| reply_status := 200; reply_body := Imported 0 |}
       else
         do resp <~ fetch (SupabaseUpsert
                             (drop_final_slash SUPABASE_URL +:+ "/rest/v1/jobs?on_conflict=uniq_hash")
                             SUPABASE_SERVICE_ROLE upserts) ;;
         if negb (ok resp) then
           ret {| reply_status := 502;
                  reply_body := Failure "Failed to upsert to Supabase" (text resp) |}
         else
           ret {| reply_status := 200;
                  reply_body := Imported (imported_count resp upserts) |})
    (fun message =>
       ret {| reply_status := 500; reply_body := Failure "Import failed" message |}).

End Route.

(** The upsert requests among those sent. *)
Definition upsert_calls (sent : list Request) : list Request :=
  List.filter (fun req => match req with SupabaseUpsert _ _ _ => true | _ => false end) sent.

End ImportAdzuna.

(* ===================================================================== *)
(** * The admission step of [handler] in [pages/api/jobs.ts] *)
(* ===================================================================== *)

Module Handler.
Import Js RateLimit.

(** A request header as Node hands it over: absent, one text, or a list. *)
Inductive HeaderValue : Type :=
| HeaderAbsent
| HeaderText (s : string)
| HeaderList (values : list string).

(** [req.socket.remoteAddress ?? 'unknown'] *)
Definition address_or_unknown (remoteAddress : option string) : string :=
  match remoteAddress with
  | Some a => a
  | None => "unknown"
  end.

(** [(req.headers['x-forwarded-for'] as string)?.split(',')[0]
     ?? req.socket.remoteAddress ?? 'unknown'].
    A list has no [split]: the call raises ([None]). *)
Definition client_ip (forwarded : HeaderValue) (remoteAddress : option string)
    : option string :=
  match forwarded with
  | HeaderAbsent => Some (address_or_unknown remoteAddress)
  | HeaderText s =>
      match split_commas s with
      | first :: _ => Some first
      | [] => Some (address_or_unknown remoteAddress)
      end
  | HeaderList _ => None
  end.

(** [Math.ceil(ms / 1000)] on an integer number of milliseconds. *)
Definition ceil_seconds (ms : Z) : Z := - ((- ms) / 1000).

(** [String(Math.ceil((rl.retryAfterMs ?? 1000) / 1000))] *)
Definition retry_after_header (rl : Admission) : string :=
  pretty (ceil_seconds (match retryAfterMs rl with
                        | Some ms => ms
                        | None => 1000
                        end)).

(** What the first lines of [handler] decide: go on, or answer 429 with a
    [Retry-After] header and the fixed message. *)
Inductive Verdict : Type :=
| GoOn
| TooManyRequests (retry_after : string) (message hint : string).

(** From [const ip = ...] to the [return res.status(429)...]. *)
Definition admit_request (now : Z) (forwarded : HeaderValue)
    (remoteAddress : option string) (ipStore : gmap string RateWindow)
    : option (Verdict * gmap string RateWindow) :=
  ip ← client_ip forwarded remoteAddress;
  let '(rl, st) := checkRateLimit now ip ipStore in
  if ok rl then Some (GoOn, st)
  else Some (TooManyRequests (retry_after_header rl) "Too many requests"
               "Rate limit hit. Try again later.", st).

End Handler.

(* ===================================================================== *)
(** * The health route ([GET /api/health]) *)
(* ===================================================================== *)

Module Health.
Import Js.

(** The variables of [process.env] the route reads; [None] is an unset
    variable. *)
Record HealthEnv : Type := mkHealthEnv {
  env_USE_SUPABASE : option string;
  env_ADZUNA_APP_ID : option string;
  env_ADZUNA_APP_KEY : option string
}.

(** What the route answers: [NextResponse.json(body)] has status 200. *)
Record HealthReply : Type := mkHealthReply {
  reply_status : Z;
  reply_json : JsVal;
  cache_control : string
}.

(** [process.env.USE_SUPABASE === '1' || process.env.USE_SUPABASE === 'true'] *)
Definition USE_SUPABASE (env : HealthEnv) : bool :=
  match env_USE_SUPABASE env with
  | Some s => String.eqb s "1" || String.eqb s "true"
  | None => false
  end.

(** A variable of the environment as a condition: set and not empty. *)
Definition is_set (x : option string) : bool :=
  match x with
  | Some s => negb (String.eqb s "")
  | None => false
  end.

(** [Boolean(process.env.ADZUNA_APP_ID && process.env.ADZUNA_APP_KEY)] *)
Definition hasAdzuna (env : HealthEnv) : bool :=
  is_set (env_ADZUNA_APP_ID env) && is_set (env_ADZUNA_APP_KEY env).

Definition mode (env : HealthEnv) : string :=
  if USE_SUPABASE env then "live" else if hasAdzuna env then "live" else "demo".

Definition GET (env : HealthEnv) : HealthReply :=
  {| reply_status := 200;
     reply_json := JObj [("ok", JBool true); ("mode", JStr (mode env))];
     cache_control := "no-store" |}.

End Health.

(* ===================================================================== *)
(** * The health checker ([scripts/check-health.js]) *)
(* ===================================================================== *)

Module CheckHealth.
Import Js Net.

Definition RETRIES : Z := 10.
Definition RETRY_DELAY_MS : Z := 1000.

(** How the process exits: [process.exit(0)] after logging the line, or
    [process.exit(1)] after reporting the number of attempts. *)
Inductive Exit : Type :=
| ExitOk (line : string)
| ExitFailed (attempts : Z).

(** What a request of the script meets.  The request itself is aborted
    after [TIMEOUT_MS], so [fetch] settles: it rejects or yields a
    response.  The timer is cleared as soon as the response is there, before
    its body is read, so [await res.json()] may wait for a body that never
    arrives. *)
Inductive Answer : Type :=
| Settled (outcome : FetchOutcome)
| BodyNeverArrives (status : Z).

(** What one attempt comes to: the line of a healthy answer, a failure
    (the body of [try] threw), or a wait without end. *)
Inductive Attempt : Type :=
| Healthy (line : string)
| Fails
| Waits.

(** How a run ends, if it does. *)
Inductive End : Type :=
| Exits (exit : Exit)
| NeverEnds.

(** What the script has done so far: requests sent and time spent waiting
    between attempts. *)
Record Progress : Type := mkProgress {
  requests : nat;
  waited_ms : Z
}.

Section Checker.
Context {host : Host}.

(** The body of [try]: the line it logs when it gets to [process.exit(0)],
    [None] when it throws.  It throws when [fetch] rejects (a failed or
    aborted request), on a status other than 200, on a body that is not
    JSON, on a falsy body or [ok] field, and when [json.mode] cannot be put
    into the line. *)
Definition health_line (answer : FetchOutcome) : option string :=
  match answer with
  | Rejected _ => None
  | Fulfilled res =>
      if negb (status res =? 200)%Z then None
      else
        body ← json res;
        if truthy body then
          ok_field ← get body "ok";
          if truthy ok_field then
            mode_field ← get body "mode";
            shown ← toString mode_field;
            Some ("Health OK (" +:+ shown +:+ ")")
          else None
        else None
  end.

(** The status is tested before the body is read: a response with another
    status fails the attempt whether or not its body would arrive. *)
Definition attempt_of (answer : Answer) : Attempt :=
  match answer with
  | Settled outcome =>
      match health_line outcome with
      | Some line => Healthy line
      | None => Fails
      end
  | BodyNeverArrives status =>
      if negb (status =? 200)%Z then Fails else Waits
  end.

(** [tryFetch(attempt)]; [answers n] is what the [n]-th request of the run
    meets.  The recursion is bounded by [fuel]; [None] is a run the fuel
    did not suffice for. *)
Fixpoint tryFetch (fuel : nat) (answers : nat -> Answer) (attempt : Z)
    (p : Progress) : option (End * Progress) :=
  match fuel with
  | O => None
  | S fuel' =>
      let p1 := {| requests := S (requests p); waited_ms := waited_ms p |} in
      match attempt_of (answers (requests p)) with
      | Healthy line => Some (Exits (ExitOk line), p1)
      | Waits => Some (NeverEnds, p1)
      | Fails =>
          if (attempt >=? RETRIES)%Z then Some (Exits (ExitFailed attempt), p1)
          else
            tryFetch fuel' answers (attempt + 1)
              {| requests := requests p1; waited_ms := waited_ms p1 + RETRY_DELAY_MS |}
      end
  end.

(** The script: [tryFetch()] from a fresh process. *)
Definition run (fuel : nat) (answers : nat -> Answer) : option (End * Progress) :=
  tryFetch fuel answers 1 {| requests := 0; waited_ms := 0 |}.

End Checker.

End CheckHealth.

(* ===================================================================== *)
(** * Checks of the built-in models *)
(* ===================================================================== *)

Module BuiltinChecks.
Import Js ExampleHost Sha256.

Example read_decimal_samples :
  List.map (fun s => PrimFloat.eqb (read_decimal s.1) s.2)
    [("2.0", 2); ("48.5", 48.5); (" -0.25 ", -0.25); ("", 0); ("+7.", 7);
     (".5", 0.5)]%float
  = [true; true; true; true; true; true].
Proof. vm_compute. reflexivity. Qed.

Example sha256_constants :
  length K = 64%nat /\ nth 0 K 0 = 0x428a2f98 /\ nth 63 K 0 = 0xc67178f2 /\
  nth 0 H0 0 = 0x6a09e667 /\ nth 7 H0 0 = 0x5be0cd19.
Proof. repeat split. Qed.

(** The empty message, and the one-block and two-block examples of the
    standard. *)
Example sha256_empty :
  sha256_hex "" = "e3b0c44298fc1c149afbf4c8996fb92427ae41e4649b934ca495991b7852b855".
Proof. vm_compute. reflexivity. Qed.

Example sha256_abc :
  sha256_hex "abc" = "ba7816bf8f01cfea414140de5dae2223b00361a396177a9cb410ff61f20015ad".
Proof. vm_compute. reflexivity. Qed.

Example sha256_two_blocks :
  sha256_hex "abcdbcdecdefdefgefghfghighijhijkijkljklmklmnlmnomnopnopq"
  = "248d6a61d20638b8e5c026930c3e6039a33ce45964ff2167f6ecedd419db06c1".
Proof. vm_compute. reflexivity. Qed.

End BuiltinChecks.

(* ===================================================================== *)
(** * Properties of the rate limiter *)
(* ===================================================================== *)

Module RateLimitSpec.
Import RateLimit.

(** ** Single-step facts *)

Lemma check_fresh now ip (st : gmap string RateWindow) :
  st !! ip = None ->
  checkRateLimit now ip st = (allowed, <[ip := mkWindow now 1]> st).
Proof. intros E. unfold checkRateLimit. now rewrite E. Qed.

Lemma check_expired now ip (st : gmap string RateWindow) w :
  st !! ip = Some w -> rateLimitWindowMs < now - ts w ->
  checkRateLimit now ip st = (allowed, <[ip := mkWindow now 1]> st).
Proof.
  intros E Hlt. unfold checkRateLimit. rewrite E.
  destruct (Z.gtb_spec (now - ts w) rateLimitWindowMs); [reflexivity | lia].
Qed.

Lemma check_counting now ip (st : gmap string RateWindow) w :
  st !! ip = Some w -> now - ts w <= rateLimitWindowMs ->
  count w < rateLimitMax ->
  checkRateLimit now ip st = (allowed, <[ip := mkWindow (ts w) (count w + 1)]> st).
Proof.
  intros E Hin Hc. unfold checkRateLimit. rewrite E.
  destruct (Z.gtb_spec (now - ts w) rateLimitWindowMs); [lia |].
  destruct (Z.geb_spec (count w) rateLimitMax); [lia | reflexivity].
Qed.

Lemma check_full now ip (st : gmap string RateWindow) w :
  st !! ip = Some w -> now - ts w <= rateLimitWindowMs ->
  rateLimitMax <= count w ->
  checkRateLimit now ip st =
    (mkAdmission false (Some (rateLimitWindowMs - (now - ts w))), st).
Proof.
  intros E Hin Hc. unfold checkRateLimit. rewrite E.
  destruct (Z.gtb_spec (now - ts w) rateLimitWindowMs); [lia |].
  destruct (Z.geb_spec (count w) rateLimitMax); [reflexivity | lia].
Qed.

(** At the very instant the window's length has passed the record is still
    the current one: a client at its limit is turned away with a zero wait. *)
Lemma check_full_at_boundary ip (st : gmap string RateWindow) w :
  st !! ip = Some w -> rateLimitMax <= count w ->
  checkRateLimit (ts w + rateLimitWindowMs) ip st =
    (mkAdmission false (Some 0), st).
Proof.
  intros E Hc. rewrite (check_full _ _ _ w E); [| lia | exact Hc].
  do 3 f_equal. lia.
Qed.

(** Calls inside the window, while there is room, are all allowed and each
    one adds one to the count, leaving the window start alone. *)
Lemma calls_counting nows : forall ip (st : gmap string RateWindow) start c,
  st !! ip = Some (mkWindow start c) ->
  Forall (within_window start) nows ->
  c + Z.of_nat (length nows) <= rateLimitMax ->
  exists st',
    calls nows ip st = (repeat allowed (length nows), st') /\
    st' !! ip = Some (mkWindow start (c + Z.of_nat (length nows))).
Proof.
  induction nows as [| now rest IH]; intros ip st start c E Hall Hroom.
  - exists st. split; [reflexivity |]. rewrite E. do 2 f_equal. simpl. lia.
  - inversion Hall as [| ? ? Hnow Hrest]; subst.
    unfold within_window in Hnow. cbn [length] in Hroom.
    cbn [calls].
    rewrite (check_counting now ip st _ E); cbn [ts count]; [| lia | lia].
    destruct (IH ip (<[ip := mkWindow start (c + 1)]> st) start (c + 1))
      as (st' & Hrun & Hst'); [apply lookup_insert_eq | exact Hrest | lia |].
    exists st'. rewrite Hrun. split; [reflexivity |].
    rewrite Hst'. do 2 f_equal. cbn [length]. lia.
Qed.

(** C4.  With the window of 60000 ms and the maximum of 60: the first call
    for a key opens a window with count 1; the next 59 calls made before the
    window has elapsed are all allowed and bring the count to 60, one by
    one; the 61st call made before the window has elapsed is rejected with a
    positive [retryAfterMs]; a call made strictly after the window has
    elapsed is allowed and opens a fresh window with count 1. *)
Theorem rate_limit_sixty_then_reject
    (ip : string) (st : gmap string RateWindow)
    (t0 : Z) (next59 : list Z) (t61 tlate : Z) :
  st !! ip = None ->
  length next59 = 59%nat ->
  Forall (within_window t0) next59 ->
  within_window t0 t61 ->
  t0 + rateLimitWindowMs < tlate ->
  exists st1 st60 r61 st61 wait stlate,
    checkRateLimit t0 ip st = (allowed, st1) /\
    st1 !! ip = Some (mkWindow t0 1) /\
    (forall k, (k <= 59)%nat -> exists stk,
        calls (take k next59) ip st1 = (repeat allowed k, stk) /\
        stk !! ip = Some (mkWindow t0 (1 + Z.of_nat k))) /\
    calls next59 ip st1 = (repeat allowed 59, st60) /\
    st60 !! ip = Some (mkWindow t0 60) /\
    checkRateLimit t61 ip st60 = (r61, st61) /\
    ok r61 = false /\ retryAfterMs r61 = Some wait /\ 0 < wait /\
    checkRateLimit tlate ip st61 = (allowed, stlate) /\
    stlate !! ip = Some (mkWindow tlate 1).
Proof.
  intros Hnew Hlen Hall H61 Hlate.
  pose (st1 := <[ip := mkWindow t0 1]> st).
  assert (E1 : st1 !! ip = Some (mkWindow t0 1)) by apply lookup_insert_eq.
  destruct (calls_counting next59 ip st1 t0 1 E1 Hall) as (st60 & Hrun & E60).
  { rewrite Hlen. unfold rateLimitMax. lia. }
  rewrite Hlen in Hrun, E60. change (1 + Z.of_nat 59) with 60 in E60.
  unfold within_window in H61.
  exists st1, st60, (mkAdmission false (Some (rateLimitWindowMs - (t61 - t0)))),
    st60, (rateLimitWindowMs - (t61 - t0)), (<[ip := mkWindow tlate 1]> st60).
  split; [apply check_fresh; exact Hnew |].
  split; [exact E1 |].
  split.
  { intros k Hk.
    assert (Hlk : length (take k next59) = k) by (rewrite length_take; lia).
    destruct (calls_counting (take k next59) ip st1 t0 1 E1) as (stk & Hr & Es).
    - apply Forall_take. exact Hall.
    - rewrite Hlk. unfold rateLimitMax. lia.
    - exists stk. rewrite Hlk in Hr, Es. split; assumption. }
  split; [exact Hrun |].
  split; [exact E60 |].
  split.
  { rewrite (check_full t61 ip st60 _ E60); cbn [ts count];
      [reflexivity | lia | unfold rateLimitMax; lia]. }
  split; [reflexivity |].
  split; [reflexivity |].
  split; [lia |].
  split.
  { apply (check_expired tlate ip st60 _ E60). cbn [ts]. lia. }
  apply lookup_insert_eq.
Qed.

(** The hypotheses of C4 are met by sixty-one calls one second apart. *)
Lemma rate_limit_sixty_then_reject_witness :
  exists st1 st60 r61 st61 wait stlate,
    checkRateLimit 0 "10.0.0.1" ∅ = (allowed, st1) /\
    st1 !! "10.0.0.1" = Some (mkWindow 0 1) /\
    (forall k, (k <= 59)%nat -> exists stk,
        calls (take k (map (fun i => 10 * Z.of_nat i) (seq 1 59))) "10.0.0.1" st1
          = (repeat allowed k, stk) /\
        stk !! "10.0.0.1" = Some (mkWindow 0 (1 + Z.of_nat k))) /\
    calls (map (fun i => 10 * Z.of_nat i) (seq 1 59)) "10.0.0.1" st1
      = (repeat allowed 59, st60) /\
    st60 !! "10.0.0.1" = Some (mkWindow 0 60) /\
    checkRateLimit 59999 "10.0.0.1" st60 = (r61, st61) /\
    ok r61 = false /\ retryAfterMs r61 = Some wait /\ 0 < wait /\
    checkRateLimit 60001 "10.0.0.1" st61 = (allowed, stlate) /\
    stlate !! "10.0.0.1" = Some (mkWindow 60001 1).
Proof.
  apply (rate_limit_sixty_then_reject "10.0.0.1" ∅ 0
           (map (fun i => 10 * Z.of_nat i) (seq 1 59)) 59999 60001).
  - reflexivity.
  - reflexivity.
  - apply Forall_forall. intros x Hx. apply list_elem_of_In in Hx.
    apply in_map_iff in Hx. destruct Hx as (i & <- & Hi).
    apply in_seq in Hi. unfold within_window, rateLimitWindowMs. lia.
  - unfold within_window, rateLimitWindowMs. lia.
  - unfold rateLimitWindowMs. lia.
Defined.

(** C9.  A rejected admission leaves the store as it was: neither the count
    nor the window start of the key (nor anything else) is modified. *)
Theorem rejected_call_keeps_store
    (now : Z) (ip : string) (st st' : gmap string RateWindow) (r : Admission) :
  checkRateLimit now ip st = (r, st') ->
  ok r = false ->
  st' = st.
Proof.
  unfold checkRateLimit. intros Hcall Hrej.
  destruct (st !! ip) as [w |].
  - destruct (now - ts w >? rateLimitWindowMs).
    + inversion Hcall; subst. discriminate Hrej.
    + destruct (count w >=? rateLimitMax).
      * inversion Hcall; reflexivity.
      * inversion Hcall; subst. discriminate Hrej.
  - inversion Hcall; subst. discriminate Hrej.
Qed.

(** Repeated rejected calls therefore never move the window: however many
    calls arrive while the record is full and current, the record stays. *)
Lemma rejected_calls_keep_store nows : forall ip (st : gmap string RateWindow) w,
  st !! ip = Some w -> rateLimitMax <= count w ->
  Forall (fun now => now - ts w <= rateLimitWindowMs) nows ->
  snd (calls nows ip st) = st /\
  Forall (fun a => ok a = false) (fst (calls nows ip st)).
Proof.
  induction nows as [| now rest IH]; intros ip st w E Hfull Hall.
  - split; [reflexivity | constructor].
  - inversion Hall as [| ? ? Hnow Hrest]; subst. cbn [calls].
    rewrite (check_full now ip st w E Hnow Hfull).
    destruct (IH ip st w E Hfull Hrest) as [Hst Hoks].
    destruct (calls rest ip st) as [others st'] eqn:Hc. cbn [fst snd] in *.
    split; [exact Hst |]. constructor; [reflexivity | exact Hoks].
Qed.

Definition full_store : gmap string RateWindow :=
  <["10.0.0.1" := mkWindow 1000 60]> ∅.

Lemma rejected_call_keeps_store_witness :
  snd (checkRateLimit 2000 "10.0.0.1" full_store) = full_store.
Proof.
  apply (rejected_call_keeps_store 2000 "10.0.0.1" full_store _
           (fst (checkRateLimit 2000 "10.0.0.1" full_store))).
  - vm_compute. reflexivity.
  - vm_compute. reflexivity.
Defined.

End RateLimitSpec.

(* ===================================================================== *)
(** * Properties of the geocode resolver *)
(* ===================================================================== *)

Module GeocodeSpec.
Import Js Net Geocode.

(** Unfolds the providers and the task combinators. *)
Ltac unfold_task :=
  unfold geocodeMapbox, geocodeNominatimThrottled, try_catch, bind, fetch,
    read_json, or_type_error, cache_set, ret, throw.

(** Splits on every test a task makes, innermost first. *)
Ltac task_cases :=
  repeat (simpl;
          match goal with
          | |- context [match ?x with _ => _ end] =>
              lazymatch x with
              | context [match _ with _ => _ end] => fail
              | _ => destruct x eqn:?
              end
          end).

Section Facts.
Context {host : Host}.
Variable MAPBOX_TOKEN : string.
Variable network : list Request -> Request -> FetchOutcome.

Abbreviation mapbox := (geocodeMapbox MAPBOX_TOKEN network).
Abbreviation nominatim := (geocodeNominatimThrottled network).
Abbreviation resolve := (fetchGeocodeIfNeeded MAPBOX_TOKEN network).

(** The providers only send: they never touch the cache. *)
Lemma geocodeMapbox_keeps_cache query w :
  cache (mapbox query w).2 = cache w.
Proof. unfold_task. task_cases; reflexivity. Qed.

Lemma geocodeNominatim_keeps_cache query w :
  cache (nominatim query w).2 = cache w.
Proof. unfold_task. task_cases; reflexivity. Qed.

(** Each provider call sends exactly its one request (Mapbox: when a token
    is configured, and none otherwise). *)
Lemma geocodeMapbox_sends_one query w :
  USE_MAPBOX MAPBOX_TOKEN = true ->
  sent (mapbox query w).2 = (sent w ++ [MapboxRequest query])%list.
Proof. intros E. unfold_task. rewrite E. simpl. task_cases; reflexivity. Qed.

Lemma geocodeNominatim_sends_one query w :
  sent (nominatim query w).2 = (sent w ++ [NominatimRequest query])%list.
Proof. unfold_task. task_cases; reflexivity. Qed.

(** A cached key is answered from the cache and the world is left as it
    was. *)
Lemma resolve_hit company city w g :
  blank company && blank city = false ->
  cache w !! cache_key company city = Some g ->
  resolve company city w = (Returned g, w).
Proof.
  intros Hkey Hhit. unfold fetchGeocodeIfNeeded. now rewrite Hkey, Hhit.
Qed.

(** Whatever happens on a miss, the call returns (it never raises) and
    leaves its result in the cache under the key. *)
Lemma resolve_miss company city w :
  blank company && blank city = false ->
  cache w !! cache_key company city = None ->
  exists g w',
    resolve company city w = (Returned g, w') /\
    cache w' = <[cache_key company city := g]> (cache w).
Proof.
  intros Hkey Hmiss. unfold fetchGeocodeIfNeeded. rewrite Hkey, Hmiss.
  unfold try_catch, bind at 1.
  destruct ((if USE_MAPBOX MAPBOX_TOKEN
             then mapbox (provider_query company city) else ret None) w)
    as [[res | msg] w1] eqn:E1.
  - assert (Hc1 : cache w1 = cache w).
    { destruct (USE_MAPBOX MAPBOX_TOKEN).
      - rewrite <- (geocodeMapbox_keeps_cache (provider_query company city) w).
        now rewrite E1.
      - now inversion E1. }
    destruct res as [found |].
    + eexists _, _. split; [reflexivity |]. simpl. now rewrite Hc1.
    + unfold bind at 1.
      destruct (nominatim (provider_query company city) w1)
        as [[res2 | msg2] w2] eqn:E2.
      * eexists _, _. split; [reflexivity |]. simpl.
        rewrite <- Hc1, <- (geocodeNominatim_keeps_cache (provider_query company city) w1).
        now rewrite E2.
      * eexists _, _. split; [reflexivity |]. simpl.
        rewrite <- Hc1, <- (geocodeNominatim_keeps_cache (provider_query company city) w1).
        now rewrite E2.
  - eexists _, _. split; [reflexivity |]. simpl.
    destruct (USE_MAPBOX MAPBOX_TOKEN).
    + rewrite <- (geocodeMapbox_keeps_cache (provider_query company city) w).
      now rewrite E1.
    + inversion E1.
Qed.

(** The resolver never raises, and an entry once in the cache stays as it
    is through any later call. *)
Lemma resolve_returns company city w :
  exists g w', resolve company city w = (Returned g, w').
Proof.
  destruct (blank company && blank city) eqn:Hkey.
  - exists None, w. unfold fetchGeocodeIfNeeded. now rewrite Hkey.
  - destruct (cache w !! cache_key company city) as [g |] eqn:Hc.
    + exists g, w. now apply resolve_hit.
    + destruct (resolve_miss company city w Hkey Hc) as (g & w' & H & _).
      now exists g, w'.
Qed.

Lemma resolve_keeps_entries company city w key g :
  cache w !! key = Some g ->
  cache (resolve company city w).2 !! key = Some g.
Proof.
  intros Hentry.
  destruct (blank company && blank city) eqn:Hkey.
  - unfold fetchGeocodeIfNeeded. now rewrite Hkey.
  - destruct (cache w !! cache_key company city) as [g' |] eqn:Hc.
    + now rewrite (resolve_hit company city w g' Hkey Hc).
    + destruct (resolve_miss company city w Hkey Hc) as (g' & w' & H & Hcache).
      rewrite H. simpl. rewrite Hcache.
      rewrite lookup_insert_ne; [exact Hentry |].
      intros Heq. rewrite Heq in Hc. congruence.
Qed.

Lemma resolve_all_returns pairs : forall w,
  exists gs w', resolve_all MAPBOX_TOKEN network pairs w = (Returned gs, w').
Proof.
  induction pairs as [| [company city] rest IH]; intros w.
  - now exists [], w.
  - cbn [resolve_all]. unfold bind at 1.
    destruct (resolve_returns company city w) as (g & w1 & ->).
    unfold bind at 1. destruct (IH w1) as (gs & w2 & ->).
    now exists (g :: gs), w2.
Qed.

Lemma resolve_all_keeps_entries pairs : forall w key g,
  cache w !! key = Some g ->
  cache (resolve_all MAPBOX_TOKEN network pairs w).2 !! key = Some g.
Proof.
  induction pairs as [| [company city] rest IH]; intros w key g Hentry.
  - exact Hentry.
  - cbn [resolve_all]. unfold bind at 1.
    pose proof (resolve_keeps_entries company city w key g Hentry) as H1.
    destruct (resolve_returns company city w) as (g1 & w1 & E1).
    rewrite E1 in H1 |- *. simpl in H1.
    unfold bind at 1.
    pose proof (IH w1 key g H1) as H2.
    destruct (resolve_all_returns rest w1) as (gs & w2 & E2).
    rewrite E2 in H2 |- *. exact H2.
Qed.

(** C5.  For a pair that is not empty on both sides: once a first call has
    completed, a second call with the same pair, made after any number of
    other calls, returns what the first call returned and leaves the world
    as it found it: no request is sent to either provider.  A first result
    of [null] is served from the cache like any other. *)
Theorem second_call_served_from_cache
    (company city : option string) (others : list (option string * option string))
    (w : World) :
  blank company && blank city = false ->
  exists g w1 gs w2,
    resolve company city w = (Returned g, w1) /\
    resolve_all MAPBOX_TOKEN network others w1 = (Returned gs, w2) /\
    resolve company city w2 = (Returned g, w2).
Proof.
  intros Hkey.
  assert (Hfirst : exists g w1, resolve company city w = (Returned g, w1) /\
                     cache w1 !! cache_key company city = Some g).
  { destruct (cache w !! cache_key company city) as [g |] eqn:Hc.
    - exists g, w. split; [now apply resolve_hit | exact Hc].
    - destruct (resolve_miss company city w Hkey Hc) as (g & w1 & H & Hcache).
      exists g, w1. split; [exact H |]. rewrite Hcache. apply lookup_insert_eq. }
  destruct Hfirst as (g & w1 & H1 & Hc1).
  destruct (resolve_all_returns others w1) as (gs & w2 & H2).
  exists g, w1, gs, w2. split; [exact H1 |]. split; [exact H2 |].
  apply resolve_hit; [exact Hkey |].
  pose proof (resolve_all_keeps_entries others w1 _ g Hc1) as H.
  now rewrite H2 in H.
Qed.

(** A Mapbox answer that is not OK is a non-result: Nominatim is asked
    next. *)
Lemma mapbox_refusal_falls_through company city w r :
  USE_MAPBOX MAPBOX_TOKEN = true ->
  blank company && blank city = false ->
  cache w !! cache_key company city = None ->
  network (sent w) (MapboxRequest (provider_query company city)) = Fulfilled r ->
  ok r = false ->
  sent (resolve company city w).2
  = (sent w ++ [MapboxRequest (provider_query company city);
               NominatimRequest (provider_query company city)])%list.
Proof.
  intros Huse Hkey Hmiss Hnet Hok.
  unfold fetchGeocodeIfNeeded. rewrite Hkey, Hmiss, Huse.
  unfold try_catch, bind at 1.
  unfold geocodeMapbox at 1. rewrite Huse. cbn [negb].
  unfold bind at 1, fetch at 1. rewrite Hnet, Hok. cbn [negb ret].
  unfold bind at 1.
  match goal with
  | |- context [nominatim ?q ?w0] =>
      pose proof (geocodeNominatim_sends_one q w0) as Hs;
      destruct (nominatim q w0) as [[res | msg] w2]
  end; simpl in Hs |- *; rewrite Hs; now rewrite <- app_assoc.
Qed.

(** A Mapbox answer that is OK and JSON but holds no first feature is a
    non-result as well. *)
Lemma mapbox_no_feature_falls_through company city w r j :
  USE_MAPBOX MAPBOX_TOKEN = true ->
  blank company && blank city = false ->
  cache w !! cache_key company city = None ->
  network (sent w) (MapboxRequest (provider_query company city)) = Fulfilled r ->
  ok r = true ->
  json r = Some j ->
  truthy (index_opt (get_opt j "features") 0) = false ->
  sent (resolve company city w).2
  = (sent w ++ [MapboxRequest (provider_query company city);
               NominatimRequest (provider_query company city)])%list.
Proof.
  intros Huse Hkey Hmiss Hnet Hok Hjson Hnone.
  unfold fetchGeocodeIfNeeded. rewrite Hkey, Hmiss, Huse.
  unfold try_catch, bind at 1.
  unfold geocodeMapbox at 1. rewrite Huse. cbn [negb].
  unfold bind at 1, fetch at 1. rewrite Hnet, Hok. cbn [negb].
  unfold bind at 1, read_json at 1. rewrite Hjson. unfold ret at 1.
  rewrite Hnone. cbn [negb ret].
  unfold bind at 1.
  match goal with
  | |- context [nominatim ?q ?w0] =>
      pose proof (geocodeNominatim_sends_one q w0) as Hs;
      destruct (nominatim q w0) as [[res | msg] w2]
  end; simpl in Hs |- *; rewrite Hs; now rewrite <- app_assoc.
Qed.

(** An exception of the Mapbox call ends the resolution. *)
Lemma mapbox_exception_is_final company city w message w1 :
  USE_MAPBOX MAPBOX_TOKEN = true ->
  blank company && blank city = false ->
  cache w !! cache_key company city = None ->
  mapbox (provider_query company city) w = (Thrown message, w1) ->
  resolve company city w
  = (Returned None,
     {| cache := <[cache_key company city := None]> (cache w);
        sent := sent w ++ [MapboxRequest (provider_query company city)] |}).
Proof.
  intros Huse Hkey Hmiss Hraise.
  pose proof (geocodeMapbox_keeps_cache (provider_query company city) w) as Hc.
  pose proof (geocodeMapbox_sends_one (provider_query company city) w Huse) as Hs.
  rewrite Hraise in Hc, Hs. simpl in Hc, Hs.
  unfold fetchGeocodeIfNeeded. rewrite Hkey, Hmiss, Huse.
  unfold try_catch, bind at 1. rewrite Hraise.
  unfold bind, cache_set, ret. simpl. now rewrite Hc, Hs.
Qed.

(** C6.  With a token configured and nothing cached for the pair, the two
    ways Mapbox can fail to give a result are not treated alike.  An
    exception of the Mapbox call (a rejected [fetch], in particular; also a
    body that is not JSON) ends the resolution: [null] is stored under the
    key and returned, and the only request sent is the one to Mapbox, so
    Nominatim is never asked.  A non-result without exception (an answer
    that is not OK, or one without a first feature) goes on to Nominatim.
    In no case does the resolver raise. *)
Theorem mapbox_exception_ends_resolution
    (company city : option string) (w : World) :
  USE_MAPBOX MAPBOX_TOKEN = true ->
  blank company && blank city = false ->
  cache w !! cache_key company city = None ->
  (forall reason,
      network (sent w) (MapboxRequest (provider_query company city)) = Rejected reason ->
      resolve company city w
      = (Returned None,
         {| cache := <[cache_key company city := None]> (cache w);
            sent := sent w ++ [MapboxRequest (provider_query company city)] |})) /\
  (forall message w1,
      mapbox (provider_query company city) w = (Thrown message, w1) ->
      resolve company city w
      = (Returned None,
         {| cache := <[cache_key company city := None]> (cache w);
            sent := sent w ++ [MapboxRequest (provider_query company city)] |})) /\
  (forall r,
      network (sent w) (MapboxRequest (provider_query company city)) = Fulfilled r ->
      ok r = false \/
      (exists j, ok r = true /\ json r = Some j /\
                 truthy (index_opt (get_opt j "features") 0) = false) ->
      sent (resolve company city w).2
      = (sent w ++ [MapboxRequest (provider_query company city);
                   NominatimRequest (provider_query company city)])%list) /\
  (exists g w', resolve company city w = (Returned g, w')).
Proof.
  intros Huse Hkey Hmiss.
  split; [| split; [| split]].
  - intros reason Hnet.
    apply (mapbox_exception_is_final company city w reason
             {| cache := cache w;
                sent := sent w ++ [MapboxRequest (provider_query company city)] |});
      try assumption.
    unfold geocodeMapbox. rewrite Huse. cbn [negb].
    unfold bind, fetch. now rewrite Hnet.
  - intros message w1. now apply mapbox_exception_is_final.
  - intros r Hnet [Hok | (j & Hok & Hjson & Hnone)].
    + now apply (mapbox_refusal_falls_through company city w r).
    + now apply (mapbox_no_feature_falls_through company city w r j).
  - apply resolve_returns.
Qed.

End Facts.

(** ** The resolver on concrete worlds *)

Definition empty_world : World := {| cache := ∅; sent := [] |}.

(** Nothing can be reached. *)
Definition offline : list Request -> Request -> FetchOutcome :=
  fun _ _ => Rejected "ENOTFOUND".

(** Mapbox cannot be reached; Nominatim knows the place. *)
Definition mapbox_down : list Request -> Request -> FetchOutcome :=
  fun _ req =>
    match req with
    | MapboxRequest _ => Rejected "ECONNRESET"
    | NominatimRequest _ =>
        Fulfilled {| ok := true; status := 200; text := "";
                     json := Some (JArr [JObj [("lat", JStr "48.85");
                                               ("lon", JStr "2.35")]]);
                     json_error := "" |}
    end.

Lemma second_call_served_from_cache_witness :
  exists g w1 gs w2,
    fetchGeocodeIfNeeded (host := ExampleHost.example_host) "" offline
      (Some "Acme") (Some "Paris") empty_world = (Returned g, w1) /\
    resolve_all (host := ExampleHost.example_host) "" offline
      [(None, Some "Lyon")] w1 = (Returned gs, w2) /\
    fetchGeocodeIfNeeded (host := ExampleHost.example_host) "" offline
      (Some "Acme") (Some "Paris") w2 = (Returned g, w2).
Proof.
  apply (@second_call_served_from_cache ExampleHost.example_host "" offline
           (Some "Acme") (Some "Paris") [(None, Some "Lyon")] empty_world).
  reflexivity.
Defined.

(** With a token configured and Mapbox unreachable, the resolution of a
    place Nominatim knows ends with [null]: one request was sent, to
    Mapbox, and Nominatim, which would have answered, was never asked. *)
Lemma mapbox_exception_skips_nominatim :
  fetchGeocodeIfNeeded (host := ExampleHost.example_host) "pk.token" mapbox_down
    (Some "Acme") (Some "Paris") empty_world
  = (Returned None,
     {| cache := <["acme|paris" := None]> ∅;
        sent := [MapboxRequest "Acme Paris"] |})
  /\
  geocodeNominatimThrottled (host := ExampleHost.example_host) mapbox_down
    "Acme Paris" empty_world
  = (Returned (Some {| lat := JNum 48.85; lon := JNum 2.35 |}),
     {| cache := ∅; sent := [NominatimRequest "Acme Paris"] |}).
Proof. split; vm_compute; reflexivity. Qed.

Lemma mapbox_exception_ends_resolution_witness :
  fetchGeocodeIfNeeded (host := ExampleHost.example_host) "pk.token" mapbox_down
    (Some "Acme") (Some "Paris") empty_world
  = (Returned None,
     {| cache := <[cache_key (Some "Acme") (Some "Paris") := None]> ∅;
        sent := [] ++ [MapboxRequest (provider_query (Some "Acme") (Some "Paris"))] |}).
Proof.
  apply (proj1 (@mapbox_exception_ends_resolution ExampleHost.example_host
                  "pk.token" mapbox_down (Some "Acme") (Some "Paris") empty_world
                  eq_refl eq_refl eq_refl)
           "ECONNRESET").
  reflexivity.
Defined.

End GeocodeSpec.

(* ===================================================================== *)
(** * Properties of the filter and sort steps *)
(* ===================================================================== *)

Module QuerySpec.
Import Js Jobs.

Section Frame.
Context {host : Host} {engine : SortEngine}.

(** Filtering allocates: the result is an array that did not exist, and
    nothing that existed is written. *)
Lemma array_filter_allocates test h arr out h1 :
  array_filter test h arr = Some (out, h1) ->
  arrays h !! out = None /\
  objects h1 = objects h /\
  exists kept, arrays h1 = <[out := kept]> (arrays h).
Proof.
  unfold array_filter. intros H.
  destruct (arrays h !! arr) as [items |]; [| discriminate]. cbn in H.
  destruct (mapM _ items) as [kept |]; [| discriminate]. cbn in H.
  inversion H; subst; clear H. cbn.
  split; [apply not_elem_of_dom, is_fresh |].
  split; [reflexivity | eauto].
Qed.

(** Sorting writes the array it is given, and only that. *)
Lemma array_sort_in_place compare h arr h2 :
  array_sort compare h arr = Some h2 ->
  objects h2 = objects h /\
  exists items sorted,
    arrays h !! arr = Some items /\
    sorted_refs compare h items = Some sorted /\
    arrays h2 = <[arr := sorted]> (arrays h).
Proof.
  unfold array_sort. intros H.
  destruct (arrays h !! arr) as [items |] eqn:E; [| discriminate]. cbn in H.
  destruct (sorted_refs compare h items) as [sorted |] eqn:Es; [| discriminate].
  cbn in H. inversion H; subst; clear H. cbn. split; [reflexivity | eauto].
Qed.

(** C7.  Neither step ever writes a job object, and neither writes any
    array but the one [filtered] names at the end.  When a filter runs (a
    [bbox] holding four numbers, or a centre with a radius), that array is
    a new one and the input array is left exactly as it was.  When no
    filter runs, [filtered] is the input array itself, and a requested sort
    reorders the input array in place: it then holds its references in the
    order the engine's sort gives them. *)
Theorem filter_and_sort_frame (q : Query) (h h' : Heap) (input out : loc) :
  filter_and_sort q h input = Some (out, h') ->
  objects h' = objects h /\
  (forall l, l <> out -> arrays h' !! l = arrays h !! l) /\
  (is_Some (job_filter q) ->
     out <> input /\ arrays h' !! input = arrays h !! input) /\
  (job_filter q = None ->
     out = input /\
     forall items jobs compare,
       arrays h !! input = Some items ->
       jobs_of h items = Some jobs ->
       job_order q jobs = SortBy compare ->
       arrays h' !! input = sorted_refs compare h items).
Proof.
  unfold filter_and_sort. intros H.
  destruct (job_filter q) as [test |].
  - destruct (array_filter test h input) as [[filtered h1] |] eqn:Hfilter;
      [| discriminate].
    cbn in H.
    destruct (array_filter_allocates _ _ _ _ _ Hfilter) as (Hnew & Hobj1 & kept & Harr1).
    assert (Hin : is_Some (arrays h !! input)).
    { unfold array_filter in Hfilter.
      destruct (arrays h !! input); [eauto | discriminate]. }
    assert (Hne : filtered <> input).
    { intros ->. rewrite Hnew in Hin. now destruct Hin. }
    assert (Hend : out = filtered /\ objects h' = objects h1 /\
                   forall l, l <> filtered -> arrays h' !! l = arrays h1 !! l).
    { destruct (arrays h1 !! filtered) as [items |]; [| discriminate]. cbn in H.
      destruct (jobs_of h1 items) as [jobs |]; [| discriminate]. cbn in H.
      destruct (job_order q jobs) as [| compare |]; [| | discriminate].
      - inversion H; subst. eauto.
      - destruct (array_sort compare h1 filtered) as [h2 |] eqn:Es; [| discriminate].
        cbn in H. inversion H; subst; clear H.
        destruct (array_sort_in_place _ _ _ _ Es)
          as (Hobj & items' & sorted & _ & _ & Harr).
        split; [reflexivity |]. split; [exact Hobj |].
        intros l Hl. rewrite Harr. now apply lookup_insert_ne. }
    destruct Hend as (-> & Hobj & Harr).
    assert (Hframe : forall l, l <> filtered -> arrays h' !! l = arrays h !! l).
    { intros l Hl. rewrite (Harr l Hl), Harr1. now apply lookup_insert_ne. }
    split; [now rewrite Hobj |]. split; [exact Hframe |].
    split; [| discriminate].
    intros _. split; [exact Hne |]. apply Hframe. congruence.
  - cbn in H.
    destruct (arrays h !! input) as [items |] eqn:Hitems; [| discriminate].
    cbn in H.
    destruct (jobs_of h items) as [jobs |] eqn:Hjobs; [| discriminate]. cbn in H.
    destruct (job_order q jobs) as [| compare |] eqn:Horder; [| | discriminate].
    + injection H as Ho Hh. subst out h'.
      split; [reflexivity |]. split; [reflexivity |].
      split; [intros [? Habs]; discriminate |].
      split; [reflexivity |].
      intros items' jobs' compare' E1 E2 E3.
      inversion E1; subst.
      rewrite Hjobs in E2. inversion E2; subst. congruence.
    + destruct (array_sort compare h input) as [h2 |] eqn:Es; [| discriminate].
      cbn in H. injection H as Ho Hh. subst out h'.
      destruct (array_sort_in_place _ _ _ _ Es)
        as (Hobj & items' & sorted & Hit & Hsorted & Harr).
      split; [exact Hobj |].
      split; [intros l Hl; rewrite Harr; now apply lookup_insert_ne |].
      split; [intros [? Habs]; discriminate |].
      split; [reflexivity |].
      intros items'' jobs' compare' E1 E2 E3.
      rewrite Hitems in Hit. inversion E1; subst. inversion Hit; subst.
      rewrite Hjobs in E2. inversion E2; subst.
      rewrite Horder in E3. inversion E3; subst.
      rewrite Harr, lookup_insert_eq. now rewrite Hsorted.
Qed.

(** The steps run to the end on every array of existing jobs, as long as
    the filter test raises on none of them and the order asked for is not
    the date order (whose comparator may raise). *)
Lemma mapM_lookup_total {B : Type} (h : Heap) (f : loc -> Job -> B) (items : list loc) :
  Forall (fun l => is_Some (objects h !! l)) items ->
  is_Some (mapM (fun l => j ← objects h !! l; Some (f l j)) items).
Proof.
  intros Hall. apply mapM_is_Some. eapply Forall_impl; [exact Hall |].
  intros l [j Hj]. unfold compose. rewrite Hj. cbn. eauto.
Qed.

(** The test answers on every job of the array. *)
Definition test_answers (test : Job -> option bool) (h : Heap) (items : list loc) : Prop :=
  Forall (fun l => exists j, objects h !! l = Some j /\ is_Some (test j)) items.

Lemma filter_step_runs (h : Heap) (test : Job -> option bool) (items : list loc) :
  test_answers test h items ->
  is_Some (mapM (fun l => j ← objects h !! l; pass ← test j; Some (l, pass)) items).
Proof.
  intros Hall. apply mapM_is_Some. eapply Forall_impl; [exact Hall |].
  intros l (j & Hj & [pass Hpass]). unfold compose. rewrite Hj. cbn.
  rewrite Hpass. cbn. eauto.
Qed.

Lemma kept_refs_exist (h : Heap) (test : Job -> option bool) (items : list loc) kept :
  mapM (fun l => j ← objects h !! l; pass ← test j; Some (l, pass)) items = Some kept ->
  Forall (fun l => is_Some (objects h !! l)) (List.map fst (List.filter snd kept)).
Proof.
  revert kept. induction items as [| l rest IH]; intros kept H.
  - inversion H; subst. constructor.
  - cbn in H. destruct (objects h !! l) as [j |] eqn:Hj; [| discriminate].
    cbn in H. destruct (test j) as [pass |]; [| discriminate]. cbn in H.
    destruct (mapM _ rest) as [kept' |]; [| discriminate].
    cbn in H. inversion H; subst; clear H. cbn.
    destruct pass; cbn; [constructor; [rewrite Hj; eauto |] |]; now apply IH.
Qed.

Lemma array_sort_runs compare (h : Heap) arr items :
  arrays h !! arr = Some items ->
  Forall (fun l => is_Some (objects h !! l)) items ->
  is_Some (array_sort compare h arr).
Proof.
  intros Harr Hall. unfold array_sort, sorted_refs. rewrite Harr. cbn.
  destruct (mapM_lookup_total h (fun l j => (l, j)) items Hall) as [out ->].
  cbn. eauto.
Qed.

Lemma sort_step_runs (q : Query) (h : Heap) (arr : loc) items :
  query_is (sort q) "date_desc" = false ->
  arrays h !! arr = Some items ->
  Forall (fun l => is_Some (objects h !! l)) items ->
  is_Some (items ← arrays h !! arr;
           jobs ← jobs_of h items;
           match job_order q jobs with
           | Unsorted => Some (arr, h)
           | SortBy compare => h2 ← array_sort compare h arr; Some (arr, h2)
           | ComparatorRaises => None
           end).
Proof.
  intros Hdate Harr Hall. rewrite Harr. cbn. unfold jobs_of.
  assert (Hjobs : is_Some (mapM (fun l => objects h !! l) items)).
  { apply mapM_is_Some. exact Hall. }
  destruct Hjobs as [jobs ->]. cbn.
  unfold job_order. rewrite Hdate.
  destruct (query_is (sort q) "salary_desc");
    [| destruct (query_is (sort q) "salary_asc")]; eauto;
    match goal with
    | |- context [array_sort ?c h arr] =>
        destruct (array_sort_runs c h arr items Harr Hall) as [h2 ->]; cbn; eauto
    end.
Qed.

Lemma filter_and_sort_runs (q : Query) (h : Heap) (input : loc) items :
  query_is (sort q) "date_desc" = false ->
  arrays h !! input = Some items ->
  Forall (fun l => is_Some (objects h !! l)) items ->
  (forall test, job_filter q = Some test -> test_answers test h items) ->
  is_Some (filter_and_sort q h input).
Proof.
  intros Hdate Harr Hall Htest. unfold filter_and_sort.
  destruct (job_filter q) as [test |].
  - unfold array_filter. rewrite Harr. cbn.
    destruct (filter_step_runs h test items (Htest test eq_refl)) as [kept Hkept].
    rewrite Hkept. cbn.
    exact (sort_step_runs q
             {| arrays := <[fresh (dom (arrays h)) := List.map fst (List.filter snd kept)]>
                            (arrays h);
                objects := objects h |}
             (fresh (dom (arrays h))) (List.map fst (List.filter snd kept)) Hdate
             (lookup_insert_eq _ _ _)
             (kept_refs_exist h test items kept Hkept)).
  - cbn. exact (sort_step_runs q h input items Hdate Harr Hall).
Qed.

End Frame.

(** ** An engine *)

Lemma insert_sorted_permutation {A : Type} (compare : A -> A -> float) (x : A) (l : list A) :
  insert_sorted compare x l ≡ₚ x :: l.
Proof.
  induction l as [| y rest IH]; cbn; [reflexivity |].
  destruct (PrimFloat.ltb 0 (compare x y)); [| reflexivity].
  rewrite IH. apply Permutation_swap.
Qed.

Lemma sort_with_permutation {A : Type} (compare : A -> A -> float) (l : list A) :
  sort_with compare l ≡ₚ l.
Proof.
  unfold sort_with. induction l as [| x rest IH]; cbn; [reflexivity |].
  now rewrite insert_sorted_permutation, IH.
Qed.

(** The engine that sorts by stable insertion whatever the comparator. *)
Definition stable_engine : SortEngine :=
  {| engine_sort := fun A => @sort_with A;
     engine_sort_permutation := fun A => @sort_with_permutation A;
     engine_sort_consistent := fun A compare l _ => eq_refl |}.

(** ** The steps on a concrete heap *)

Definition sample_job (name : string) (pay : float) (la lo : float) : Job :=
  {| id := name; title := JStr "Developer"; company := JStr "Acme";
     city := JStr "Paris"; salary_min := Some pay; salary_max := Some pay;
     remote := false; lat := JNum la; lon := JNum lo; url := JUndefined;
     description := ""; posted_at := JUndefined; source := "adzuna" |}.

(** Two jobs near Paris, and the array [jobsWithCoords] at address 10
    holding them in the order they were fetched. *)
Definition sample_heap : Heap :=
  {| arrays := <[10%positive := [1%positive; 2%positive]]> ∅;
     objects := <[1%positive := sample_job "a" 1000 48.2 2.2]>
                  (<[2%positive := sample_job "b" 2000 49.0 2.2]> ∅) |}.

Definition no_query : Query :=
  {| bbox := QAbsent; center_lat := QAbsent; center_lon := QAbsent;
     radius_km := QAbsent; sort := QAbsent |}.

Definition sort_only : Query :=
  {| bbox := QAbsent; center_lat := QAbsent; center_lon := QAbsent;
     radius_km := QAbsent; sort := QText "salary_desc" |}.

Definition paris_box : Query :=
  {| bbox := QText "2.0,48.0,2.5,48.5"; center_lat := QAbsent;
     center_lon := QAbsent; radius_km := QAbsent; sort := QText "salary_desc" |}.

(** The box around the first job, latitudes first, with a sort. *)
Definition box_and_sort : Query :=
  {| bbox := QText "48.0,2.0,48.5,2.5"; center_lat := QAbsent;
     center_lon := QAbsent; radius_km := QAbsent; sort := QText "salary_desc" |}.

(** With a sort and no filter, the array the steps were given comes back
    reordered: the step wrote its input.  (The salaries compare
    consistently, so every engine gives this order; see
    [sort_only_reorders_under_every_engine].) *)
Lemma sort_reorders_input_array :
  arrays sample_heap !! 10%positive = Some [1%positive; 2%positive] /\
  (r ← filter_and_sort (host := ExampleHost.example_host) (engine := stable_engine)
         sort_only sample_heap 10%positive;
   Some (r.1, arrays r.2 !! 10%positive))
  = Some (10%positive, Some [2%positive; 1%positive]).
Proof. split; vm_compute; reflexivity. Qed.

(** The comparator of [salary_desc] is consistent on the two sample
    jobs. *)
Lemma sample_salaries_consistent :
  consistent
    (fun x y : loc * Job =>
       (or_zero (salary_max (snd y)) - or_zero (salary_max (snd x)))%float)
    [(1%positive, sample_job "a" 1000 48.2 2.2);
     (2%positive, sample_job "b" 2000 49.0 2.2)].
Proof.
  intros a b c Ha Hb Hc.
  destruct Ha as [<- | [<- | []]], Hb as [<- | [<- | []]], Hc as [<- | [<- | []]];
    vm_compute; repeat split; intros; congruence.
Qed.

Lemma sort_only_reorders_under_every_engine {engine : SortEngine} :
  (r ← filter_and_sort (host := ExampleHost.example_host) sort_only sample_heap 10%positive;
   Some (r.1, arrays r.2 !! 10%positive))
  = Some (10%positive, Some [2%positive; 1%positive]).
Proof.
  unfold filter_and_sort.
  change (job_filter (host := ExampleHost.example_host) sort_only)
    with (@None (Job -> option bool)).
  cbn [mbind option_bind].
  change (arrays sample_heap !! 10%positive) with (Some [1%positive; 2%positive]).
  cbn [mbind option_bind].
  change (jobs_of sample_heap [1%positive; 2%positive])
    with (Some [sample_job "a" 1000 48.2 2.2; sample_job "b" 2000 49.0 2.2]).
  cbn [mbind option_bind].
  change (job_order (host := ExampleHost.example_host) sort_only
            [sample_job "a" 1000 48.2 2.2; sample_job "b" 2000 49.0 2.2])
    with (SortBy (fun a b => (or_zero (salary_max b) - or_zero (salary_max a))%float)).
  unfold array_sort, sorted_refs.
  change (arrays sample_heap !! 10%positive) with (Some [1%positive; 2%positive]).
  cbn [mbind option_bind].
  change (mapM (fun l => j ← objects sample_heap !! l; Some (l, j)) [1%positive; 2%positive])
    with (Some [(1%positive, sample_job "a" 1000 48.2 2.2);
                (2%positive, sample_job "b" 2000 49.0 2.2)]).
  cbn [mbind option_bind].
  rewrite (engine_sort_consistent _ _ _ sample_salaries_consistent).
  vm_compute. reflexivity.
Qed.

(** What the steps leave for [box_and_sort]: a new array at address 11
    holding the first job; and for [sort_only]: the input array
    reordered. *)
Definition filtered_heap : Heap :=
  {| arrays := <[11%positive := [1%positive]]> (arrays sample_heap);
     objects := objects sample_heap |}.

Definition sorted_heap : Heap :=
  {| arrays := <[10%positive := [2%positive; 1%positive]]> (arrays sample_heap);
     objects := objects sample_heap |}.

Lemma filter_and_sort_frame_witness :
  (objects filtered_heap = objects sample_heap /\
   (forall l, l <> 11%positive ->
      arrays filtered_heap !! l = arrays sample_heap !! l) /\
   (is_Some (job_filter (host := ExampleHost.example_host) box_and_sort) ->
      11%positive <> 10%positive /\
      arrays filtered_heap !! 10%positive = arrays sample_heap !! 10%positive) /\
   (job_filter (host := ExampleHost.example_host) box_and_sort = None ->
      11%positive = 10%positive /\
      forall items jobs compare,
        arrays sample_heap !! 10%positive = Some items ->
        jobs_of sample_heap items = Some jobs ->
        job_order (host := ExampleHost.example_host) box_and_sort jobs = SortBy compare ->
        arrays filtered_heap !! 10%positive
        = sorted_refs (engine := stable_engine) compare sample_heap items)) /\
  (objects sorted_heap = objects sample_heap /\
   (forall l, l <> 10%positive ->
      arrays sorted_heap !! l = arrays sample_heap !! l) /\
   (is_Some (job_filter (host := ExampleHost.example_host) sort_only) ->
      10%positive <> 10%positive /\
      arrays sorted_heap !! 10%positive = arrays sample_heap !! 10%positive) /\
   (job_filter (host := ExampleHost.example_host) sort_only = None ->
      10%positive = 10%positive /\
      forall items jobs compare,
        arrays sample_heap !! 10%positive = Some items ->
        jobs_of sample_heap items = Some jobs ->
        job_order (host := ExampleHost.example_host) sort_only jobs = SortBy compare ->
        arrays sorted_heap !! 10%positive
        = sorted_refs (engine := stable_engine) compare sample_heap items)).
Proof.
  split.
  - apply (@filter_and_sort_frame ExampleHost.example_host stable_engine box_and_sort
             sample_heap filtered_heap 10%positive 11%positive).
    vm_compute. reflexivity.
  - apply (@filter_and_sort_frame ExampleHost.example_host stable_engine sort_only
             sample_heap sorted_heap 10%positive 10%positive).
    vm_compute. reflexivity.
Defined.

(** C1.  The box text ["2.0,48.0,2.5,48.5"] holds the numbers 2, 48, 2.5
    and 48.5.  All four pass the range test, so the box is read as
    [lat, lon, lat, lon]: latitudes from 2 to 2.5 and longitudes from 48 to
    48.5.  The job at latitude 48.2 and longitude 2.2 is outside that box,
    like the job at latitude 49.0, and the filtered array is empty. *)
Theorem paris_box_excludes_job_inside :
  bbox_parts (host := ExampleHost.example_host) "2.0,48.0,2.5,48.5"
  = [2; 48; 2.5; 48.5]%float /\
  box_of_parts 2 48 2.5 48.5
  = {| minLon := 48; maxLon := 48.5; minLat := 2; maxLat := 2.5 |} /\
  in_box (host := ExampleHost.example_host) (box_of_parts 2 48 2.5 48.5)
    (sample_job "a" 1000 48.2 2.2) = Some false /\
  in_box (host := ExampleHost.example_host) (box_of_parts 2 48 2.5 48.5)
    (sample_job "b" 2000 49.0 2.2) = Some false /\
  (r ← filter_and_sort (host := ExampleHost.example_host) (engine := stable_engine)
         paris_box sample_heap 10%positive;
   arrays r.2 !! r.1) = Some [].
Proof. repeat split; vm_compute; reflexivity. Qed.

(** Read as [lon, lat, lon, lat], the same four numbers give the box that
    holds the first job and not the second. *)
Lemma paris_box_as_lon_lat :
  let box := {| minLon := Math_min 2 2.5; maxLon := Math_max 2 2.5;
                minLat := Math_min 48 48.5; maxLat := Math_max 48 48.5 |} in
  in_box (host := ExampleHost.example_host) box (sample_job "a" 1000 48.2 2.2) = Some true /\
  in_box (host := ExampleHost.example_host) box (sample_job "b" 2000 49.0 2.2) = Some false.
Proof. split; vm_compute; reflexivity. Qed.

End QuerySpec.

(* ===================================================================== *)
(** * Properties of the two normalisers *)
(* ===================================================================== *)

Module NormalizerSpec.
Import Js.

(** Whether the record carries a number under [name], at the top or in its
    [location]. *)
Definition numeric_field (r : JsVal) (name : string) : bool :=
  match as_number (get_opt r name), as_number (get_opt (get_opt r "location") name) with
  | None, None => false
  | _, _ => true
  end.

(** Takes apart a chain of binds that produced a value. *)
Ltac split_binds H :=
  repeat (apply bind_Some in H; destruct H as (? & ? & H)).

Section Coordinates.
Context {host : Host}.

Lemma get_get_opt r k v : get r k = Some v -> get_opt r k = v.
Proof. unfold get_opt. now intros ->. Qed.

Lemma number_or_nested_set top nested :
  is_Some (Jobs.number_or_nested top nested)
  <-> match as_number top, as_number nested with
      | None, None => False
      | _, _ => True
      end.
Proof.
  unfold Jobs.number_or_nested.
  destruct (as_number top), (as_number nested); split; intros H; eauto;
    try (destruct H; discriminate); try contradiction.
Qed.

(** Each coordinate of a [Job] is read from its own field of the record. *)
Lemma mapAdzunaToJob_coordinates r j :
  Jobs.mapAdzunaToJob r = Some j ->
  Jobs.lat j = Jobs.optional_number
                 (Jobs.number_or_nested (get_opt r "latitude")
                    (get_opt (get_opt r "location") "latitude")) /\
  Jobs.lon j = Jobs.optional_number
                 (Jobs.number_or_nested (get_opt r "longitude")
                    (get_opt (get_opt r "location") "longitude")).
Proof.
  unfold Jobs.mapAdzunaToJob. intros H. split_binds H.
  inversion H; subst; clear H. cbn.
  repeat match goal with
         | E : get r _ = Some _ |- _ => apply get_get_opt in E; subst
         end.
  split; reflexivity.
Qed.

Lemma mapAdzunaToUpsert_coordinates r u :
  ImportAdzuna.mapAdzunaToUpsert r = Some u ->
  ImportAdzuna.lat u = ImportAdzuna.number_or_nested (get_opt r "latitude")
                         (get_opt (get_opt r "location") "latitude") /\
  ImportAdzuna.lon u = ImportAdzuna.number_or_nested (get_opt r "longitude")
                         (get_opt (get_opt r "location") "longitude").
Proof.
  unfold ImportAdzuna.mapAdzunaToUpsert. intros H. split_binds H.
  inversion H; subst; clear H. cbn.
  repeat match goal with
         | E : get r _ = Some _ |- _ => apply get_get_opt in E; subst
         end.
  split; reflexivity.
Qed.

Lemma optional_number_set (x : option float) :
  is_Some (as_number (Jobs.optional_number x)) <-> is_Some x.
Proof. destruct x; cbn; split; intros [? H]; eauto; discriminate. Qed.

Lemma number_or_nested_numeric (r : JsVal) (name : string) :
  is_Some (Jobs.number_or_nested (get_opt r name)
             (get_opt (get_opt r "location") name))
  <-> numeric_field r name = true.
Proof.
  rewrite number_or_nested_set. unfold numeric_field.
  destruct (as_number (get_opt r name)),
           (as_number (get_opt (get_opt r "location") name));
    split; intros; (reflexivity || exact I || discriminate || contradiction).
Qed.

(** C3.  Each mapper reads the latitude and the longitude from their own
    fields of the record: a coordinate of the job is set (a number) exactly
    when the record carries a number for it, at the top or in [location].
    So the job has both coordinates or neither when the record carries a
    numeric latitude exactly when it carries a numeric longitude; and from
    a record with a numeric latitude and no numeric longitude, or the other
    way round, comes a job with exactly that one coordinate set. *)
Theorem coordinates_both_or_neither (r : JsVal) :
  (forall j, Jobs.mapAdzunaToJob r = Some j ->
     (is_Some (as_number (Jobs.lat j)) <-> numeric_field r "latitude" = true) /\
     (is_Some (as_number (Jobs.lon j)) <-> numeric_field r "longitude" = true) /\
     (numeric_field r "latitude" = numeric_field r "longitude" ->
        (is_Some (as_number (Jobs.lat j)) <-> is_Some (as_number (Jobs.lon j)))) /\
     (numeric_field r "latitude" <> numeric_field r "longitude" ->
        ~ (is_Some (as_number (Jobs.lat j)) <-> is_Some (as_number (Jobs.lon j))))) /\
  (forall u, ImportAdzuna.mapAdzunaToUpsert r = Some u ->
     (is_Some (ImportAdzuna.lat u) <-> numeric_field r "latitude" = true) /\
     (is_Some (ImportAdzuna.lon u) <-> numeric_field r "longitude" = true) /\
     (numeric_field r "latitude" = numeric_field r "longitude" ->
        (is_Some (ImportAdzuna.lat u) <-> is_Some (ImportAdzuna.lon u))) /\
     (numeric_field r "latitude" <> numeric_field r "longitude" ->
        ~ (is_Some (ImportAdzuna.lat u) <-> is_Some (ImportAdzuna.lon u)))).
Proof.
  assert (Hbool : forall (P Q : Prop) (a b : bool),
            (P <-> a = true) -> (Q <-> b = true) ->
            (a = b -> (P <-> Q)) /\ (a <> b -> ~ (P <-> Q))).
  { intros P Q a b HP HQ. split.
    - intros <-. now rewrite HP, HQ.
    - intros Hne HPQ. apply Hne. rewrite HP, HQ in HPQ.
      destruct a, b; try reflexivity; [symmetry |]; now apply HPQ. }
  split.
  - intros j Hj. destruct (mapAdzunaToJob_coordinates r j Hj) as [-> ->].
    rewrite !optional_number_set.
    pose proof (number_or_nested_numeric r "latitude") as Hla.
    pose proof (number_or_nested_numeric r "longitude") as Hlo.
    destruct (Hbool _ _ _ _ Hla Hlo) as [Hsame Hdiff].
    split; [exact Hla |]. split; [exact Hlo |]. split; [exact Hsame | exact Hdiff].
  - intros u Hu. destruct (mapAdzunaToUpsert_coordinates r u Hu) as [-> ->].
    change ImportAdzuna.number_or_nested with Jobs.number_or_nested.
    pose proof (number_or_nested_numeric r "latitude") as Hla.
    pose proof (number_or_nested_numeric r "longitude") as Hlo.
    destruct (Hbool _ _ _ _ Hla Hlo) as [Hsame Hdiff].
    split; [exact Hla |]. split; [exact Hlo |]. split; [exact Hsame | exact Hdiff].
Qed.

(** The title enters the hashed text in lower case: two titles that differ
    in letter case only give the same text, whatever the other three fields
    are. *)
Lemma hashInput_ignores_title_case (t1 t2 : string) (company city posted_at : JsVal) :
  toLowerCase t1 = toLowerCase t2 ->
  ImportAdzuna.hashInput (JStr t1) company city posted_at
  = ImportAdzuna.hashInput (JStr t2) company city posted_at.
Proof.
  intros E. unfold ImportAdzuna.hashInput. cbn. now rewrite E.
Qed.

End Coordinates.

(** ** The normalisers on concrete records *)

Definition posting (title company city created : string) : JsVal :=
  JObj [("id", JStr "4242");
        ("title", JStr title);
        ("company", JObj [("display_name", JStr company)]);
        ("location", JObj [("display_name", JStr city)]);
        ("created", JStr created)].

(** A record with a latitude and no longitude. *)
Definition half_located : JsVal :=
  JObj [("id", JStr "4242"); ("title", JStr "Senior Dev");
        ("latitude", JNum 48.85)].

Definition set_flags (la lo : option float) : bool * bool :=
  (bool_decide (is_Some la), bool_decide (is_Some lo)).

(** Both mappers turn the record into a job with a latitude and without a
    longitude. *)
Lemma latitude_without_longitude :
  ((fun j => set_flags (as_number (Jobs.lat j)) (as_number (Jobs.lon j)))
     <$> Jobs.mapAdzunaToJob (host := ExampleHost.example_host) half_located)
  = Some (true, false) /\
  ((fun u => set_flags (ImportAdzuna.lat u) (ImportAdzuna.lon u))
     <$> ImportAdzuna.mapAdzunaToUpsert (host := ExampleHost.example_host) half_located)
  = Some (true, false).
Proof. split; vm_compute; reflexivity. Qed.

(** The job and the upsert row the mappers make of [half_located]. *)
Definition half_located_job : Jobs.Job :=
  {| Jobs.id := "4242"; Jobs.title := JStr "Senior Dev";
     Jobs.company := JStr "Unknown"; Jobs.city := JStr "Unknown";
     Jobs.salary_min := None; Jobs.salary_max := None; Jobs.remote := false;
     Jobs.lat := JNum 48.85; Jobs.lon := JUndefined; Jobs.url := JUndefined;
     Jobs.description := ""; Jobs.posted_at := JUndefined;
     Jobs.source := "adzuna" |}.

Definition half_located_upsert : ImportAdzuna.JobUpsert :=
  {| ImportAdzuna.source := "adzuna"; ImportAdzuna.source_id := JStr "4242";
     ImportAdzuna.title := JStr "Senior Dev";
     ImportAdzuna.company := JStr "Unknown"; ImportAdzuna.city := JStr "Unknown";
     ImportAdzuna.salary_min := None; ImportAdzuna.salary_max := None;
     ImportAdzuna.url := JNull; ImportAdzuna.description := None;
     ImportAdzuna.posted_at := JNull; ImportAdzuna.remote := false;
     ImportAdzuna.lat := Some 48.85%float; ImportAdzuna.lon := None;
     ImportAdzuna.uniq_hash := ImportAdzuna.hash40 "senior dev|Unknown|Unknown|" |}.

(** On the record with a latitude only: the job and the row have a
    latitude, have no longitude, and so do not have both or neither. *)
Lemma coordinates_both_or_neither_witness :
  ((is_Some (as_number (Jobs.lat half_located_job))
    <-> numeric_field half_located "latitude" = true) /\
   (is_Some (as_number (Jobs.lon half_located_job))
    <-> numeric_field half_located "longitude" = true) /\
   (numeric_field half_located "latitude" = numeric_field half_located "longitude" ->
      (is_Some (as_number (Jobs.lat half_located_job))
       <-> is_Some (as_number (Jobs.lon half_located_job)))) /\
   (numeric_field half_located "latitude" <> numeric_field half_located "longitude" ->
      ~ (is_Some (as_number (Jobs.lat half_located_job))
         <-> is_Some (as_number (Jobs.lon half_located_job))))) /\
  ((is_Some (ImportAdzuna.lat half_located_upsert)
    <-> numeric_field half_located "latitude" = true) /\
   (is_Some (ImportAdzuna.lon half_located_upsert)
    <-> numeric_field half_located "longitude" = true) /\
   (numeric_field half_located "latitude" = numeric_field half_located "longitude" ->
      (is_Some (ImportAdzuna.lat half_located_upsert)
       <-> is_Some (ImportAdzuna.lon half_located_upsert))) /\
   (numeric_field half_located "latitude" <> numeric_field half_located "longitude" ->
      ~ (is_Some (ImportAdzuna.lat half_located_upsert)
         <-> is_Some (ImportAdzuna.lon half_located_upsert)))).
Proof.
  split.
  - apply (proj1 (@coordinates_both_or_neither ExampleHost.example_host half_located)
             half_located_job).
    vm_compute. reflexivity.
  - apply (proj2 (@coordinates_both_or_neither ExampleHost.example_host half_located)
             half_located_upsert).
    vm_compute. reflexivity.
Defined.

(** C2.  The hashed text keeps the company, the city and the posting date
    as they are written: records that differ from a first one only in the
    letter case of one of these three fields get three other hashes.  Only
    a change of case in the title leaves the hash as it is. *)
Theorem uniq_hash_depends_on_letter_case :
  let hash_of r :=
    ImportAdzuna.uniq_hash
      <$> ImportAdzuna.mapAdzunaToUpsert (host := ExampleHost.example_host) r in
  hash_of (posting "Senior Dev" "Acme" "Paris" "2024-03-01T09:00:00Z")
  = Some "7be3bd0a83a7e778b901531b177fddda123cd236" /\
  hash_of (posting "SENIOR DEV" "Acme" "Paris" "2024-03-01T09:00:00Z")
  = Some "7be3bd0a83a7e778b901531b177fddda123cd236" /\
  hash_of (posting "Senior Dev" "ACME" "Paris" "2024-03-01T09:00:00Z")
  = Some "0597bfc94d0403ee4e95aefe369091fb7d7a1820" /\
  hash_of (posting "Senior Dev" "Acme" "PARIS" "2024-03-01T09:00:00Z")
  = Some "dfa3d0f151c1f177fcd3349e2a977b1da9a9a136" /\
  hash_of (posting "Senior Dev" "Acme" "Paris" "2024-03-01t09:00:00z")
  = Some "d20e2062123b56aa3adc7c26b5ee74d88cd681bd".
Proof. repeat split; vm_compute; reflexivity. Qed.

End NormalizerSpec.

(* ===================================================================== *)
(** * Properties of the import route *)
(* ===================================================================== *)

Module ImportSpec.
Import Js Net ImportAdzuna.

Section Route.
Context {host : Host}.
Variable env : ProcessEnv.
Variable network : list Request -> Request -> FetchOutcome.

Lemma upsert_calls_page sent app_id app_key page size :
  upsert_calls (sent ++ [AdzunaPage app_id app_key page size]) = upsert_calls sent.
Proof. unfold upsert_calls. rewrite List.filter_app. cbn. apply app_nil_r. Qed.

(** Fetching a page sends one request, for that page. *)
Lemma fetchAdzunaPage_upsert_calls page size sent :
  upsert_calls (fetchAdzunaPage env network page size sent).2 = upsert_calls sent.
Proof.
  unfold fetchAdzunaPage, bind, fetch, read_json, throw, ret.
  destruct (network sent _) as [reason | r]; cbn.
  - apply upsert_calls_page.
  - destruct (negb (ok r)); [| destruct (json r)]; cbn; apply upsert_calls_page.
Qed.

(** The page loop therefore sends no upsert. *)
Lemma fetch_pages_upsert_calls pages : forall size acc sent,
  upsert_calls (fetch_pages env network pages size acc sent).2 = upsert_calls sent.
Proof.
  induction pages as [| p rest IH]; intros size acc sent; [reflexivity |].
  cbn [fetch_pages]. unfold bind at 1.
  pose proof (fetchAdzunaPage_upsert_calls p size sent) as Hp.
  destruct (fetchAdzunaPage env network p size sent) as [[json | msg] sent1];
    cbn in Hp |- *; [| exact Hp].
  rewrite <- Hp.
  destruct (if truthy json then get_opt json "results" else JUndefined); apply IH.
Qed.

(** C8.  In a run that is authorised and configured and whose three page
    fetches succeed: when no record survives normalisation (no record came
    back, or every record maps to [null]), the route answers status 200
    with [{imported: 0}], having sent the page requests and nothing else:
    no upsert request goes out. *)
Theorem no_upsert_when_nothing_survives
    (x_cron_secret : option string) (sent sent' : list Request)
    (allResults : list JsVal) :
  empty (CRON_SECRET env) = false ->
  or_empty x_cron_secret = CRON_SECRET env ->
  empty (ADZUNA_APP_ID env) = false ->
  empty (ADZUNA_APP_KEY env) = false ->
  empty (SUPABASE_URL env) = false ->
  empty (SUPABASE_SERVICE_ROLE env) = false ->
  fetch_pages env network [1; 2; 3] 50 [] sent = (Returned allResults, sent') ->
  upserts_of allResults = [] ->
  POST env network x_cron_secret sent
  = (Returned {| reply_status := 200; reply_body := Imported 0 |}, sent') /\
  upsert_calls sent' = upsert_calls sent.
Proof.
  intros Hsecret Hheader Hid Hkey Hurl Hrole Hpages Hnone.
  split.
  - unfold POST, try_catch.
    rewrite Hsecret, Hheader, String.eqb_refl, Hid, Hkey, Hurl, Hrole. cbn [orb negb].
    unfold bind at 1. rewrite Hpages, Hnone. reflexivity.
  - pose proof (fetch_pages_upsert_calls [1; 2; 3] 50 [] sent) as H.
    now rewrite Hpages in H.
Qed.

(** C10.  When [CRON_SECRET] is unset or empty, the route answers 401 to
    every request, whatever the [x-cron-secret] header holds (nothing, the
    empty text, anything else), and sends nothing. *)
Theorem import_fails_closed (x_cron_secret : option string) (sent : list Request) :
  env_CRON_SECRET env = None \/ env_CRON_SECRET env = Some "" ->
  POST env network x_cron_secret sent
  = (Returned {| reply_status := 401;
                 reply_body := Failure "Unauthorized"
                                 "Invalid or missing x-cron-secret header" |},
     sent).
Proof.
  intros Hunset. unfold POST, try_catch, CRON_SECRET.
  destruct Hunset as [-> | ->]; reflexivity.
Qed.

End Route.

(** ** The route on concrete runs *)

Definition configured : ProcessEnv :=
  {| env_ADZUNA_APP_ID := Some "app";
     env_ADZUNA_APP_KEY := Some "key";
     env_SUPABASE_URL := Some "https://db.example/";
     env_SUPABASE_SERVICE_ROLE := Some "role";
     env_CRON_SECRET := Some "s3cret" |}.

Definition no_secret : ProcessEnv :=
  {| env_ADZUNA_APP_ID := Some "app";
     env_ADZUNA_APP_KEY := Some "key";
     env_SUPABASE_URL := Some "https://db.example/";
     env_SUPABASE_SERVICE_ROLE := Some "role";
     env_CRON_SECRET := Some "" |}.

Definition reply_with (body : JsVal) : FetchOutcome :=
  Fulfilled {| ok := true; status := 200; text := ""; json := Some body;
               json_error := "" |}.

(** Every page comes back with one record, [null], which the normaliser
    drops. *)
Definition null_pages : list Request -> Request -> FetchOutcome :=
  fun _ _ => reply_with (JObj [("results", JArr [JNull])]).

Definition three_pages : list Request :=
  [AdzunaPage "app" "key" 1 50; AdzunaPage "app" "key" 2 50;
   AdzunaPage "app" "key" 3 50].

Lemma no_upsert_when_nothing_survives_witness :
  POST (host := ExampleHost.example_host) configured null_pages (Some "s3cret") []
  = (Returned {| reply_status := 200; reply_body := Imported 0 |}, three_pages) /\
  upsert_calls three_pages = upsert_calls [].
Proof.
  apply (@no_upsert_when_nothing_survives ExampleHost.example_host configured
           null_pages (Some "s3cret") [] three_pages [JNull; JNull; JNull]);
    vm_compute; reflexivity.
Defined.

Lemma import_fails_closed_witness :
  POST (host := ExampleHost.example_host) no_secret null_pages (Some "") []
  = (Returned {| reply_status := 401;
                 reply_body := Failure "Unauthorized"
                                 "Invalid or missing x-cron-secret header" |},
     []).
Proof.
  apply (@import_fails_closed ExampleHost.example_host no_secret null_pages
           (Some "") []).
  right. reflexivity.
Defined.

(** With records that survive, the same run does send the upsert. *)
Example upsert_sent_when_records_survive :
  let pages : list Request -> Request -> FetchOutcome :=
    fun _ req =>
      match req with
      | AdzunaPage _ _ 1 _ =>
          reply_with (JObj [("results", JArr [JObj [("title", JStr "Dev")]])])
      | AdzunaPage _ _ _ _ => reply_with (JObj [])
      | SupabaseUpsert _ _ rows => reply_with (JArr (List.map (fun _ => JObj []) rows))
      end in
  let '(reply, sent) :=
    POST (host := ExampleHost.example_host) configured pages (Some "s3cret") [] in
  reply = Returned {| reply_status := 200; reply_body := Imported 1 |} /\
  length (upsert_calls sent) = 1%nat.
Proof. vm_compute. split; reflexivity. Qed.

End ImportSpec.

(* ===================================================================== *)
(** * Further properties of the rate limiter *)
(* ===================================================================== *)

Module RateLimitMore.
Import RateLimit.

(** Requests of several clients, each with its clock reading, served in
    order. *)
Fixpoint serve (requests : list (Z * string)) (ipStore : gmap string RateWindow)
    : gmap string RateWindow :=
  match requests with
  | [] => ipStore
  | (now, ip) :: rest => serve rest (checkRateLimit now ip ipStore).2
  end.

(** Every record counts at least the call that opened it and at most the
    maximum. *)
Definition counts_in_range (ipStore : gmap string RateWindow) : Prop :=
  forall ip w, ipStore !! ip = Some w -> 1 <= count w <= rateLimitMax.

(** The number of calls admitted among some results. *)
Definition admissions (results : list Admission) : nat :=
  length (List.filter ok results).

Lemma check_writes_own_key now ip other (st : gmap string RateWindow) :
  other <> ip ->
  (checkRateLimit now ip st).2 !! other = st !! other.
Proof.
  intros Hne. unfold checkRateLimit.
  destruct (st !! ip) as [w |]; cbn.
  - destruct (now - ts w >? rateLimitWindowMs); cbn.
    + now apply lookup_insert_ne.
    + destruct (count w >=? rateLimitMax); cbn;
        [reflexivity | now apply lookup_insert_ne].
  - now apply lookup_insert_ne.
Qed.

Lemma check_reads_own_key now ip (st1 st2 : gmap string RateWindow) :
  st1 !! ip = st2 !! ip ->
  (checkRateLimit now ip st1).1 = (checkRateLimit now ip st2).1.
Proof.
  intros E. unfold checkRateLimit. rewrite E.
  destruct (st2 !! ip) as [w |]; cbn; [| reflexivity].
  destruct (now - ts w >? rateLimitWindowMs); cbn; [reflexivity |].
  destruct (count w >=? rateLimitMax); reflexivity.
Qed.

(** Clients do not interfere: the result of a call depends on the record of
    its own key only, and the call writes that record only.  So the result
    a client gets is the same whether or not calls of other clients were
    served before. *)
Theorem clients_do_not_interfere (others : list (Z * string)) (now : Z) (ip : string)
    (st : gmap string RateWindow) :
  Forall (fun request => request.2 <> ip) others ->
  (checkRateLimit now ip (serve others st)).1 = (checkRateLimit now ip st).1 /\
  (checkRateLimit now ip (serve others st)).2 !! ip = (checkRateLimit now ip st).2 !! ip.
Proof.
  intros Hothers.
  assert (Hsame : serve others st !! ip = st !! ip).
  { revert st. induction others as [| [t other] rest IH]; intros st; [reflexivity |].
    inversion Hothers as [| ? ? Hne Hrest]; subst. cbn [serve].
    rewrite (IH Hrest). apply check_writes_own_key. cbn in Hne. congruence. }
  split; [now apply check_reads_own_key |].
  unfold checkRateLimit. rewrite Hsame.
  destruct (st !! ip) as [w |] eqn:E; cbn.
  - destruct (now - ts w >? rateLimitWindowMs); cbn.
    + now rewrite !lookup_insert_eq.
    + destruct (count w >=? rateLimitMax); cbn;
        [congruence | now rewrite !lookup_insert_eq].
  - now rewrite !lookup_insert_eq.
Qed.

Lemma clients_do_not_interfere_witness :
  (checkRateLimit 2000 "10.0.0.1"
     (serve [(1500, "10.0.0.2"); (1600, "10.0.0.3")] RateLimitSpec.full_store)).1
  = (checkRateLimit 2000 "10.0.0.1" RateLimitSpec.full_store).1 /\
  (checkRateLimit 2000 "10.0.0.1"
     (serve [(1500, "10.0.0.2"); (1600, "10.0.0.3")] RateLimitSpec.full_store)).2
    !! "10.0.0.1"
  = (checkRateLimit 2000 "10.0.0.1" RateLimitSpec.full_store).2 !! "10.0.0.1".
Proof.
  apply (clients_do_not_interfere [(1500, "10.0.0.2"); (1600, "10.0.0.3")] 2000
           "10.0.0.1" RateLimitSpec.full_store).
  repeat constructor; discriminate.
Defined.

Lemma check_keeps_counts_in_range now ip (st : gmap string RateWindow) :
  counts_in_range st -> counts_in_range (checkRateLimit now ip st).2.
Proof.
  intros Hinv key w. unfold checkRateLimit.
  destruct (st !! ip) as [w0 |] eqn:E; cbn.
  - destruct (now - ts w0 >? rateLimitWindowMs); cbn.
    + rewrite lookup_insert. case_decide.
      * intros [= <-]. cbn. unfold rateLimitMax. lia.
      * apply Hinv.
    + destruct (Z.geb_spec (count w0) rateLimitMax); cbn; [apply Hinv |].
      rewrite lookup_insert. case_decide.
      * intros [= <-]. cbn. pose proof (Hinv ip w0 E). lia.
      * apply Hinv.
  - rewrite lookup_insert. case_decide.
    + intros [= <-]. cbn. unfold rateLimitMax. lia.
    + apply Hinv.
Qed.

(** Whatever the clients, the order of their requests and the clock
    readings (even readings that go backwards), every record of the store
    built from the empty store holds a count between 1 and the maximum. *)
Theorem counts_stay_in_range (requests : list (Z * string)) :
  counts_in_range (serve requests ∅).
Proof.
  assert (H : forall st, counts_in_range st -> counts_in_range (serve requests st)).
  { induction requests as [| [now ip] rest IH]; intros st Hst; [exact Hst |].
    cbn [serve]. apply IH. now apply check_keeps_counts_in_range. }
  apply H. intros ip w Habs. rewrite lookup_empty in Habs. discriminate.
Qed.

Lemma admissions_bounded nows : forall ip (st : gmap string RateWindow) start c,
  st !! ip = Some (mkWindow start c) ->
  c <= rateLimitMax ->
  Forall (fun now => now - start <= rateLimitWindowMs) nows ->
  Z.of_nat (admissions (calls nows ip st).1) <= rateLimitMax - c.
Proof.
  induction nows as [| now rest IH]; intros ip st start c E Hc Hall.
  - cbn. lia.
  - inversion Hall as [| ? ? Hnow Hrest]; subst. cbn [calls].
    destruct (Z_lt_le_dec c rateLimitMax) as [Hroom | Hfull].
    + rewrite (RateLimitSpec.check_counting now ip st _ E); cbn [ts count]; [| lia | lia].
      specialize (IH ip (<[ip := mkWindow start (c + 1)]> st) start (c + 1)
                    (lookup_insert_eq _ _ _) ltac:(lia) Hrest).
      destruct (calls rest ip _) as [others st']. cbn in IH |- *.
      unfold admissions in *. cbn. lia.
    + rewrite (RateLimitSpec.check_full now ip st _ E); cbn [ts count]; [| lia | lia].
      specialize (IH ip st start c E Hc Hrest).
      destruct (calls rest ip st) as [others st']. cbn in IH |- *.
      unfold admissions in *. cbn. lia.
Qed.

(** From the first call of a key on, however many calls follow before more
    than the window's length has passed since that first call, at most 60
    calls in all are admitted. *)
Theorem at_most_max_admitted_per_window
    (ip : string) (st : gmap string RateWindow) (t0 : Z) (later : list Z) :
  st !! ip = None ->
  Forall (fun now => now - t0 <= rateLimitWindowMs) later ->
  (admissions (calls (t0 :: later) ip st).1 <= 60)%nat.
Proof.
  intros Hnew Hall. cbn [calls]. rewrite (RateLimitSpec.check_fresh t0 ip st Hnew).
  pose proof (admissions_bounded later ip (<[ip := mkWindow t0 1]> st) t0 1
                (lookup_insert_eq _ _ _) ltac:(unfold rateLimitMax; lia) Hall) as H.
  destruct (calls later ip _) as [others st']. cbn in H |- *.
  unfold admissions, rateLimitMax in *. cbn. lia.
Qed.

Lemma at_most_max_admitted_per_window_witness :
  (admissions (calls (0%Z :: List.map Z.of_nat (seq 1 100)) "10.0.0.1" ∅).1 <= 60)%nat.
Proof.
  apply (at_most_max_admitted_per_window "10.0.0.1" ∅ 0%Z (List.map Z.of_nat (seq 1 100))).
  - reflexivity.
  - apply Forall_forall. intros x Hx. apply list_elem_of_In in Hx.
    apply in_map_iff in Hx. destruct Hx as (i & <- & Hi).
    apply in_seq in Hi. unfold rateLimitWindowMs. lia.
Defined.

(** A rejection tells the remaining time of the window, never a negative
    one.  A client that comes back exactly that much later is rejected
    again, now with a wait of zero; one millisecond after that it is
    admitted and opens a new window. *)
Theorem retry_after_is_one_millisecond_short
    (now : Z) (ip : string) (st st' : gmap string RateWindow) (r : Admission) :
  checkRateLimit now ip st = (r, st') ->
  ok r = false ->
  exists wait,
    retryAfterMs r = Some wait /\ 0 <= wait /\
    checkRateLimit (now + wait) ip st' = (mkAdmission false (Some 0), st') /\
    checkRateLimit (now + wait + 1) ip st'
    = (allowed, <[ip := mkWindow (now + wait + 1) 1]> st').
Proof.
  unfold checkRateLimit at 1. intros Hcall Hrej.
  destruct (st !! ip) as [w |] eqn:E.
  - destruct (Z.gtb_spec (now - ts w) rateLimitWindowMs).
    + inversion Hcall; subst. discriminate Hrej.
    + destruct (Z.geb_spec (count w) rateLimitMax).
      * inversion Hcall; subst; clear Hcall.
        exists (rateLimitWindowMs - (now - ts w)). cbn.
        split; [reflexivity |]. split; [lia |]. split.
        -- rewrite (RateLimitSpec.check_full _ ip st' w E); [| lia | lia].
           do 3 f_equal. lia.
        -- apply (RateLimitSpec.check_expired _ ip st' w E). lia.
      * inversion Hcall; subst. discriminate Hrej.
  - inversion Hcall; subst. discriminate Hrej.
Qed.

Lemma retry_after_is_one_millisecond_short_witness :
  exists wait,
    retryAfterMs (checkRateLimit 2000 "10.0.0.1" RateLimitSpec.full_store).1 = Some wait /\
    0 <= wait /\
    checkRateLimit (2000 + wait) "10.0.0.1" RateLimitSpec.full_store
    = (mkAdmission false (Some 0), RateLimitSpec.full_store) /\
    checkRateLimit (2000 + wait + 1) "10.0.0.1" RateLimitSpec.full_store
    = (allowed, <["10.0.0.1" := mkWindow (2000 + wait + 1) 1]> RateLimitSpec.full_store).
Proof.
  apply (retry_after_is_one_millisecond_short 2000 "10.0.0.1"
           RateLimitSpec.full_store RateLimitSpec.full_store
           (checkRateLimit 2000 "10.0.0.1" RateLimitSpec.full_store).1).
  - vm_compute. reflexivity.
  - vm_compute. reflexivity.
Defined.

End RateLimitMore.

(* ===================================================================== *)
(** * Facts about the string operations *)
(* ===================================================================== *)

Module StringFacts.
Import Js.

Lemma append_cons (c : ascii) (a b : string) :
  String c a +:+ b = String c (a +:+ b).
Proof. reflexivity. Qed.

Lemma append_empty_l (s : string) : "" +:+ s = s.
Proof. reflexivity. Qed.

Lemma append_empty_r (s : string) : s +:+ "" = s.
Proof.
  induction s as [| c s IH]; [reflexivity |]. now rewrite append_cons, IH.
Qed.

Lemma append_assoc (a b c : string) : (a +:+ b) +:+ c = a +:+ (b +:+ c).
Proof.
  induction a as [| x a IH]; [reflexivity |]. now rewrite !append_cons, IH.
Qed.

Lemma rev_app_append (s acc : string) :
  String.rev_app s acc = String.rev s +:+ acc.
Proof.
  unfold String.rev. revert acc.
  induction s as [| c s IH]; intros acc; simpl; [reflexivity |].
  rewrite (IH (String c acc)), (IH (String c "")), append_assoc. reflexivity.
Qed.

Lemma rev_cons (c : ascii) (s : string) :
  String.rev (String c s) = String.rev s +:+ String c "".
Proof. unfold String.rev at 1. simpl. apply rev_app_append. Qed.

(** The text before the first comma. *)
Fixpoint before_comma (s : string) : string :=
  match s with
  | EmptyString => EmptyString
  | String c rest => if Ascii.eqb c "," then EmptyString else String c (before_comma rest)
  end.

Lemma split_commas_from_head (s : string) : forall cur,
  exists rest,
    split_commas_from cur s = (String.rev cur +:+ before_comma s) :: rest.
Proof.
  induction s as [| c s IH]; intros cur; simpl.
  - exists []. now rewrite append_empty_r.
  - destruct (Ascii.eqb c ",").
    + eexists. now rewrite append_empty_r.
    + destruct (IH (String c cur)) as [rest ->]. exists rest.
      now rewrite rev_cons, append_assoc, append_cons, append_empty_l.
Qed.

Lemma split_commas_head (s : string) :
  exists rest, split_commas s = before_comma s :: rest.
Proof. unfold split_commas. exact (split_commas_from_head s ""). Qed.

End StringFacts.

(* ===================================================================== *)
(** * Properties of the admission step of the handler *)
(* ===================================================================== *)

Module HandlerSpec.
Import Js RateLimit Handler StringFacts.

Lemma ceil_seconds_bounds (ms : Z) :
  1000 * (ceil_seconds ms - 1) < ms <= 1000 * ceil_seconds ms.
Proof.
  unfold ceil_seconds.
  pose proof (Z.div_mod (- ms) 1000 ltac:(lia)).
  pose proof (Z.mod_pos_bound (- ms) 1000 ltac:(lia)). lia.
Qed.

(** The key a request is counted under is the text before the first comma
    of its [x-forwarded-for] header whenever that header is a text, empty
    or not; the socket address is looked at only when the header is
    absent.  Requests whose headers start differently are therefore counted
    apart: what the limiter answers to one does not depend on the other
    having been served, nor on the socket addresses. *)
Theorem forwarded_header_decides_the_key
    (s1 s2 : string) (address1 address2 address2' : option string)
    (t1 t2 : Z) (st : gmap string RateWindow) :
  before_comma s1 <> before_comma s2 ->
  client_ip (HeaderText s2) address2 = Some (before_comma s2) /\
  exists v1 st1,
    admit_request t1 (HeaderText s1) address1 st = Some (v1, st1) /\
    fst <$> admit_request t2 (HeaderText s2) address2 st1
    = fst <$> admit_request t2 (HeaderText s2) address2' st.
Proof.
  intros Hne.
  assert (Hip : forall s a, client_ip (HeaderText s) a = Some (before_comma s)).
  { intros s a. unfold client_ip. now destruct (split_commas_head s) as [rest ->]. }
  split; [apply Hip |].
  unfold admit_request. rewrite !Hip. cbn.
  pose proof (RateLimitMore.check_writes_own_key t1 (before_comma s1) (before_comma s2) st
                ltac:(congruence)) as Hframe.
  destruct (checkRateLimit t1 (before_comma s1) st) as [r1 st1] eqn:E1. cbn in Hframe.
  exists (if ok r1 then GoOn
          else TooManyRequests (retry_after_header r1) "Too many requests"
                 "Rate limit hit. Try again later."), st1.
  split; [now destruct (ok r1) |].
  pose proof (RateLimitMore.check_reads_own_key t2 (before_comma s2) st1 st Hframe) as Hread.
  destruct (checkRateLimit t2 (before_comma s2) st1) as [r2 st2].
  destruct (checkRateLimit t2 (before_comma s2) st) as [r2' st2'].
  cbn in Hread. subst r2'. now destruct (ok r2).
Qed.

Lemma forwarded_header_decides_the_key_witness :
  client_ip (HeaderText "203.0.113.9, 10.0.0.1") (Some "10.0.0.1")
  = Some (before_comma "203.0.113.9, 10.0.0.1") /\
  exists v1 st1,
    admit_request 2000 (HeaderText "10.0.0.1") (Some "10.0.0.1") RateLimitSpec.full_store
    = Some (v1, st1) /\
    fst <$> admit_request 2001 (HeaderText "203.0.113.9, 10.0.0.1") (Some "10.0.0.1") st1
    = fst <$> admit_request 2001 (HeaderText "203.0.113.9, 10.0.0.1") None
                RateLimitSpec.full_store.
Proof.
  apply (forwarded_header_decides_the_key "10.0.0.1" "203.0.113.9, 10.0.0.1"
           (Some "10.0.0.1") (Some "10.0.0.1") None 2000 2001 RateLimitSpec.full_store).
  vm_compute. discriminate.
Defined.

(** A 429 answer leaves the store as it was, and its [Retry-After] header
    is the remaining time of the client's window rounded up to whole
    seconds: never negative, and at most 60 when the clock has not gone
    back behind the window's start. *)
Theorem retry_after_header_rounds_up
    (now : Z) (forwarded : HeaderValue) (address : option string)
    (st st' : gmap string RateWindow) (header message hint : string) :
  admit_request now forwarded address st
  = Some (TooManyRequests header message hint, st') ->
  exists ip w seconds,
    client_ip forwarded address = Some ip /\
    st !! ip = Some w /\
    st' = st /\
    header = pretty seconds /\
    0 <= seconds /\
    1000 * (seconds - 1) < rateLimitWindowMs - (now - ts w) <= 1000 * seconds /\
    (ts w <= now -> seconds <= 60).
Proof.
  unfold admit_request. intros H.
  destruct (client_ip forwarded address) as [ip |]; [| discriminate]. cbn in H.
  unfold checkRateLimit in H.
  destruct (st !! ip) as [w |] eqn:E; [| discriminate].
  destruct (Z.gtb_spec (now - ts w) rateLimitWindowMs) as [| Hin]; [discriminate |].
  destruct (count w >=? rateLimitMax); [| discriminate].
  cbn in H. inversion H; subst; clear H.
  pose proof (ceil_seconds_bounds (rateLimitWindowMs - (now - ts w))) as Hb.
  exists ip, w, (ceil_seconds (rateLimitWindowMs - (now - ts w))).
  unfold rateLimitWindowMs in *.
  split; [reflexivity |]. split; [exact E |]. split; [reflexivity |].
  split; [reflexivity |]. split; [lia |]. split; [lia |].
  intros Hclock. lia.
Qed.

Lemma retry_after_header_rounds_up_witness :
  exists ip w seconds,
    client_ip HeaderAbsent (Some "10.0.0.1") = Some ip /\
    RateLimitSpec.full_store !! ip = Some w /\
    RateLimitSpec.full_store = RateLimitSpec.full_store /\
    "59" = pretty seconds /\
    0 <= seconds /\
    1000 * (seconds - 1) < rateLimitWindowMs - (2500 - ts w) <= 1000 * seconds /\
    (ts w <= 2500 -> seconds <= 60).
Proof.
  apply (retry_after_header_rounds_up 2500 HeaderAbsent (Some "10.0.0.1")
           RateLimitSpec.full_store RateLimitSpec.full_store "59"
           "Too many requests" "Rate limit hit. Try again later.").
  vm_compute. reflexivity.
Defined.

End HandlerSpec.

(* ===================================================================== *)
(** * Further properties of the geocode resolver *)
(* ===================================================================== *)

Module GeocodeMore.
Import Js Net Geocode StringFacts.

(** Two spellings that the cache key does not tell apart: equal once
    trimmed and put in lower case. *)
Definition same_spelling (a b : option string) : Prop :=
  toLowerCase (trim (or_empty a)) = toLowerCase (trim (or_empty b)).

Section Facts.
Context {host : Host}.
Variable MAPBOX_TOKEN : string.
Variable network : list Request -> Request -> FetchOutcome.

Abbreviation mapbox := (geocodeMapbox MAPBOX_TOKEN network).
Abbreviation nominatim := (geocodeNominatimThrottled network).
Abbreviation resolve := (fetchGeocodeIfNeeded MAPBOX_TOKEN network).

(** One call sends at most two requests, both with the same query text:
    to Mapbox first, and only when a token is configured, then to
    Nominatim. *)
Theorem at_most_two_requests (company city : option string) (w : World) :
  let q := provider_query company city in
  exists new,
    sent (resolve company city w).2 = (sent w ++ new)%list /\
    (new = [] \/ new = [NominatimRequest q] \/
     (USE_MAPBOX MAPBOX_TOKEN = true /\
      (new = [MapboxRequest q] \/ new = [MapboxRequest q; NominatimRequest q]))).
Proof.
  intros q. unfold fetchGeocodeIfNeeded.
  destruct (blank company && blank city).
  { exists []. rewrite app_nil_r. auto. }
  destruct (cache w !! cache_key company city).
  { exists []. rewrite app_nil_r. auto. }
  fold q. unfold try_catch, bind at 1.
  destruct (USE_MAPBOX MAPBOX_TOKEN) eqn:Huse.
  - pose proof (GeocodeSpec.geocodeMapbox_sends_one MAPBOX_TOKEN network q w Huse) as Hm.
    destruct (mapbox q w) as [[[found |] | msg] w1]; cbn in Hm.
    + exists [MapboxRequest q]. cbn. rewrite Hm. split; [reflexivity |].
      right; right. split; [reflexivity |]. now left.
    + unfold bind at 1.
      pose proof (GeocodeSpec.geocodeNominatim_sends_one network q w1) as Hn.
      destruct (nominatim q w1) as [[res | msg] w2]; cbn in Hn |- *;
        exists [MapboxRequest q; NominatimRequest q];
        rewrite Hn, Hm, <- app_assoc; (split; [reflexivity |]);
        right; right; (split; [reflexivity |]); now right.
    + exists [MapboxRequest q]. cbn. rewrite Hm. split; [reflexivity |].
      right; right. split; [reflexivity |]. now left.
  - unfold ret at 1, bind at 1.
    pose proof (GeocodeSpec.geocodeNominatim_sends_one network q w) as Hn.
    destruct (nominatim q w) as [[res | msg] w2]; cbn in Hn |- *;
      exists [NominatimRequest q]; rewrite Hn; (split; [reflexivity |]);
      right; now left.
Qed.

Lemma resolve_cache_step company city w :
  cache (resolve company city w).2 = cache w \/
  (cache w !! cache_key company city = None /\
   exists g, cache (resolve company city w).2
             = <[cache_key company city := g]> (cache w)).
Proof.
  destruct (blank company && blank city) eqn:Hkey.
  - left. unfold fetchGeocodeIfNeeded. now rewrite Hkey.
  - destruct (cache w !! cache_key company city) as [g |] eqn:Hc.
    + left. now rewrite (GeocodeSpec.resolve_hit MAPBOX_TOKEN network company city w g Hkey Hc).
    + right. split; [reflexivity |].
      destruct (GeocodeSpec.resolve_miss MAPBOX_TOKEN network company city w Hkey Hc)
        as (g & w' & -> & Hcache).
      now exists g.
Qed.

(** The cache only grows when the calls are made one after the other, each
    awaited before the next starts (as the loop of the handler makes
    them): through any such sequence every entry stays what it was (a
    result, once cached, is never replaced or dropped), and every new entry
    sits under the key of one of the pairs asked for.  Calls that overlap
    are not covered: one that missed the cache before it waited for a
    provider writes its result when it resumes, over whatever was stored
    meanwhile. *)
Theorem cache_only_grows (pairs : list (option string * option string)) (w : World) :
  let w' := (resolve_all MAPBOX_TOKEN network pairs w).2 in
  cache w ⊆ cache w' /\
  forall key, is_Some (cache w' !! key) ->
    is_Some (cache w !! key) \/
    exists company city, In (company, city) pairs /\ key = cache_key company city.
Proof.
  cbn zeta. split.
  - apply map_subseteq_spec. intros key g Hentry.
    now apply GeocodeSpec.resolve_all_keeps_entries.
  - revert w. induction pairs as [| [company city] rest IH]; intros w key Hnew.
    + left. exact Hnew.
    + cbn [resolve_all] in Hnew. unfold bind at 1 in Hnew.
      pose proof (resolve_cache_step company city w) as Hstep.
      destruct (GeocodeSpec.resolve_returns MAPBOX_TOKEN network company city w)
        as (g & w1 & E1).
      rewrite E1 in Hnew, Hstep. cbn in Hstep.
      unfold bind at 1 in Hnew.
      assert (Hrest : is_Some (cache (resolve_all MAPBOX_TOKEN network rest w1).2 !! key)).
      { destruct (GeocodeSpec.resolve_all_returns MAPBOX_TOKEN network rest w1)
          as (gs & w2 & E2). rewrite E2 in Hnew |- *. exact Hnew. }
      destruct (IH w1 key Hrest) as [Hin | (c & ci & Hin & ->)].
      * destruct Hstep as [Heq | (_ & g' & Hcache)]; [left; now rewrite <- Heq |].
        rewrite Hcache in Hin.
        destruct (decide (cache_key company city = key)) as [<- | Hne].
        -- right. exists company, city. split; [now left | reflexivity].
        -- left. now rewrite lookup_insert_ne in Hin.
      * right. exists c, ci. split; [now right | reflexivity].
Qed.

(** The key ignores letter case and surrounding white space.  With calls
    made one after the other, each awaited before the next starts: once a
    pair has been resolved, a pair spelled differently in these respects
    only is answered from the entry the first spelling left, with the same
    result and without any request, provided neither pair is blank (the
    test for a blank pair looks at the texts as given, before they are
    trimmed). *)
Theorem spelling_variants_share_entry
    (company city company' city' : option string)
    (others : list (option string * option string)) (w : World) :
  blank company && blank city = false ->
  blank company' && blank city' = false ->
  same_spelling company company' ->
  same_spelling city city' ->
  exists g w1 gs w2,
    resolve company city w = (Returned g, w1) /\
    resolve_all MAPBOX_TOKEN network others w1 = (Returned gs, w2) /\
    resolve company' city' w2 = (Returned g, w2).
Proof.
  intros Hkey Hkey' Hcompany Hcity.
  assert (Hsame : cache_key company' city' = cache_key company city).
  { unfold cache_key, same_spelling in *. now rewrite Hcompany, Hcity. }
  assert (Hfirst : exists g w1, resolve company city w = (Returned g, w1) /\
                     cache w1 !! cache_key company city = Some g).
  { destruct (cache w !! cache_key company city) as [g |] eqn:Hc.
    - exists g, w. split; [now apply GeocodeSpec.resolve_hit | exact Hc].
    - destruct (GeocodeSpec.resolve_miss MAPBOX_TOKEN network company city w Hkey Hc)
        as (g & w1 & H & Hcache).
      exists g, w1. split; [exact H |]. rewrite Hcache. apply lookup_insert_eq. }
  destruct Hfirst as (g & w1 & H1 & Hc1).
  destruct (GeocodeSpec.resolve_all_returns MAPBOX_TOKEN network others w1)
    as (gs & w2 & H2).
  exists g, w1, gs, w2. split; [exact H1 |]. split; [exact H2 |].
  apply GeocodeSpec.resolve_hit; [exact Hkey' |]. rewrite Hsame.
  pose proof (GeocodeSpec.resolve_all_keeps_entries MAPBOX_TOKEN network others w1 _ g Hc1)
    as H.
  now rewrite H2 in H.
Qed.

Lemma center_found (c : JsVal) (items : list JsVal) :
  get_opt c "center" = JArr items ->
  truthy c = true /\ get c "center" = Some (JArr items).
Proof.
  destruct c; cbn; try discriminate; intros H; split; try reflexivity;
    now rewrite H.
Qed.

(** When Mapbox answers OK with a first feature whose [center] is the array
    [[lon, lat, ...]], the call returns [{lat, lon}] with the two numbers
    taken in that order, stores it under the key, and has sent the one
    request to Mapbox: Nominatim is not asked. *)
Theorem mapbox_hit_is_final
    (company city : option string) (w : World) (r : Response) (j lo la : JsVal)
    (more : list JsVal) :
  USE_MAPBOX MAPBOX_TOKEN = true ->
  blank company && blank city = false ->
  cache w !! cache_key company city = None ->
  network (sent w) (MapboxRequest (provider_query company city)) = Fulfilled r ->
  ok r = true ->
  json r = Some j ->
  get_opt (index_opt (get_opt j "features") 0) "center" = JArr (lo :: la :: more) ->
  resolve company city w
  = (Returned (Some {| lat := la; lon := lo |}),
     {| cache := <[cache_key company city := Some {| lat := la; lon := lo |}]> (cache w);
        sent := sent w ++ [MapboxRequest (provider_query company city)] |}).
Proof.
  intros Huse Hkey Hmiss Hnet Hok Hjson Hcenter.
  destruct (center_found _ _ Hcenter) as [Htruthy Hget].
  unfold fetchGeocodeIfNeeded. rewrite Hkey, Hmiss, Huse.
  unfold try_catch, bind at 1.
  unfold geocodeMapbox. rewrite Huse. cbn [negb].
  unfold bind at 1, fetch. rewrite Hnet, Hok. cbn [negb].
  unfold bind at 1, read_json. rewrite Hjson. unfold ret at 1.
  rewrite Htruthy. cbn [negb].
  unfold bind at 1, or_type_error at 1. rewrite Hget. unfold ret at 1.
  reflexivity.
Qed.

(** Without a token, a result that is not [null] and does not come from
    the cache holds two numbers (possibly NaN): Nominatim's [lat] and
    [lon] texts go through [Number]. *)
Theorem nominatim_result_is_numeric
    (company city : option string) (w w' : World) (found : Coords) :
  USE_MAPBOX MAPBOX_TOKEN = false ->
  cache w !! cache_key company city = None ->
  resolve company city w = (Returned (Some found), w') ->
  exists la lo, found = {| lat := JNum la; lon := JNum lo |}.
Proof.
  intros Huse Hmiss. unfold fetchGeocodeIfNeeded. rewrite Hmiss, Huse.
  destruct (blank company && blank city); [discriminate |].
  unfold try_catch, bind at 1, ret at 1. unfold bind at 1.
  unfold geocodeNominatimThrottled, bind, fetch, read_json, or_type_error,
    cache_set, ret, throw.
  intros H.
  repeat match type of H with
         | context [match ?x with _ => _ end] =>
             lazymatch x with
             | context [match _ with _ => _ end] => fail
             | _ => destruct x eqn:?
             end
         end; cbn in H; try discriminate.
  inversion H; subst. eauto.
Qed.

End Facts.

(** ** On concrete worlds *)

(** Mapbox knows the place. *)
Definition mapbox_up : list Request -> Request -> FetchOutcome :=
  fun _ req =>
    match req with
    | MapboxRequest _ =>
        Fulfilled {| ok := true; status := 200; text := "";
                     json := Some (JObj [("features",
                               JArr [JObj [("center", JArr [JNum 2.35; JNum 48.85])]])]);
                     json_error := "" |}
    | NominatimRequest _ => Rejected "ENOTFOUND"
    end.

Lemma spelling_variants_share_entry_witness :
  exists g w1 gs w2,
    fetchGeocodeIfNeeded (host := ExampleHost.example_host) "" GeocodeSpec.mapbox_down
      (Some "Acme") (Some "Paris") GeocodeSpec.empty_world = (Returned g, w1) /\
    resolve_all (host := ExampleHost.example_host) "" GeocodeSpec.mapbox_down [] w1
    = (Returned gs, w2) /\
    fetchGeocodeIfNeeded (host := ExampleHost.example_host) "" GeocodeSpec.mapbox_down
      (Some "  ACME ") (Some "paris") w2 = (Returned g, w2).
Proof.
  apply (@spelling_variants_share_entry ExampleHost.example_host ""
           GeocodeSpec.mapbox_down (Some "Acme") (Some "Paris")
           (Some "  ACME ") (Some "paris") [] GeocodeSpec.empty_world);
    reflexivity.
Defined.

Lemma mapbox_hit_is_final_witness :
  fetchGeocodeIfNeeded (host := ExampleHost.example_host) "pk.token" mapbox_up
    (Some "Acme") (Some "Paris") GeocodeSpec.empty_world
  = (Returned (Some {| lat := JNum 48.85; lon := JNum 2.35 |}),
     {| cache := <[cache_key (Some "Acme") (Some "Paris")
                   := Some {| lat := JNum 48.85; lon := JNum 2.35 |}]> ∅;
        sent := [] ++ [MapboxRequest (provider_query (Some "Acme") (Some "Paris"))] |}).
Proof.
  apply (@mapbox_hit_is_final ExampleHost.example_host "pk.token" mapbox_up
           (Some "Acme") (Some "Paris") GeocodeSpec.empty_world
           {| ok := true; status := 200; text := "";
              json := Some (JObj [("features",
                        JArr [JObj [("center", JArr [JNum 2.35; JNum 48.85])]])]);
              json_error := "" |}
           (JObj [("features", JArr [JObj [("center", JArr [JNum 2.35; JNum 48.85])]])])
           (JNum 2.35) (JNum 48.85) []);
    reflexivity.
Defined.

Lemma nominatim_result_is_numeric_witness :
  exists la lo,
    {| lat := JNum 48.85; lon := JNum 2.35 |} = {| lat := JNum la; lon := JNum lo |}.
Proof.
  apply (@nominatim_result_is_numeric ExampleHost.example_host ""
           GeocodeSpec.mapbox_down (Some "Acme") (Some "Paris")
           GeocodeSpec.empty_world
           {| cache := <["acme|paris" := Some {| lat := JNum 48.85; lon := JNum 2.35 |}]> ∅;
              sent := [NominatimRequest "Acme Paris"] |}).
  - reflexivity.
  - reflexivity.
  - vm_compute. reflexivity.
Defined.

End GeocodeMore.

(* ===================================================================== *)
(** * Further properties of the two normalisers *)
(* ===================================================================== *)

Module NormalizerMore.
Import Js StringFacts.

(** A character of lower-case hexadecimal notation. *)
Definition is_hex (c : ascii) : bool :=
  let n := nat_of_ascii c in
  ((48 <=? n)%nat && (n <=? 57)%nat) || ((97 <=? n)%nat && (n <=? 102)%nat).

Fixpoint all_hex (s : string) : bool :=
  match s with
  | EmptyString => true
  | String c rest => is_hex c && all_hex rest
  end.

Lemma length_append (a b : string) :
  String.length (a +:+ b) = (String.length a + String.length b)%nat.
Proof.
  induction a as [| c a IH]; [reflexivity |]. rewrite append_cons. cbn. now rewrite IH.
Qed.

Lemma all_hex_append (a b : string) :
  all_hex (a +:+ b) = all_hex a && all_hex b.
Proof.
  induction a as [| c a IH]; [reflexivity |]. rewrite append_cons. cbn.
  now rewrite IH, andb_assoc.
Qed.

Lemma length_slice_to (n : nat) (s : string) :
  String.length (slice_to n s) = Nat.min n (String.length s).
Proof.
  unfold slice_to. revert s. induction n as [| n IH]; intros [| c s]; cbn;
    try reflexivity.
  now rewrite IH.
Qed.

Lemma all_hex_slice_to (n : nat) (s : string) :
  all_hex s = true -> all_hex (slice_to n s) = true.
Proof.
  unfold slice_to. revert s. induction n as [| n IH]; intros [| c s]; cbn;
    try reflexivity.
  intros [Hc Hs]%andb_prop. rewrite Hc. cbn. now apply IH.
Qed.

Lemma hex_digit_is_hex (d : Z) : 0 <= d < 16 -> is_hex (Sha256.hex_digit d) = true.
Proof.
  intros Hd.
  assert (H : d = 0 \/ d = 1 \/ d = 2 \/ d = 3 \/ d = 4 \/ d = 5 \/ d = 6 \/ d = 7 \/
              d = 8 \/ d = 9 \/ d = 10 \/ d = 11 \/ d = 12 \/ d = 13 \/ d = 14 \/ d = 15)
    by lia.
  repeat destruct H as [-> | H]; try subst d; reflexivity.
Qed.

Lemma nibble_range (x : Z) : 0 <= Z.land x 0xf < 16.
Proof.
  change 0xf with (Z.ones 4). rewrite Z.land_ones by lia.
  apply Z.mod_pos_bound. lia.
Qed.

Lemma hex_of_word_shape (x : Z) :
  String.length (Sha256.hex_of_word x) = 8%nat /\ all_hex (Sha256.hex_of_word x) = true.
Proof.
  unfold Sha256.hex_of_word. cbn [seq fold_right]. split; [reflexivity |].
  cbn [all_hex]. rewrite !hex_digit_is_hex by apply nibble_range. reflexivity.
Qed.

(** The digest is sixty-four hexadecimal digits, whatever is hashed. *)
Lemma sha256_hex_shape (input : string) :
  String.length (Sha256.sha256_hex input) = 64%nat /\
  all_hex (Sha256.sha256_hex input) = true.
Proof.
  unfold Sha256.sha256_hex, Sha256.digest_words.
  generalize (fold_left Sha256.compress
                (Sha256.chunks 64 (length (Sha256.pad (Sha256.bytes_of_string input)))
                   (Sha256.pad (Sha256.bytes_of_string input))) Sha256.initial).
  intros s. cbn [List.map fold_right].
  split.
  - rewrite !length_append.
    rewrite !(proj1 (hex_of_word_shape _)). reflexivity.
  - rewrite !all_hex_append.
    rewrite !(proj2 (hex_of_word_shape _)). reflexivity.
Qed.

Lemma or_else_default_truthy (a : option JsVal) (d v : JsVal) :
  truthy d = true -> or_else a (Some d) = Some v -> truthy v = true.
Proof.
  intros Hd. unfold or_else. destruct a as [x |]; [| discriminate].
  destruct (truthy x) eqn:Hx; intros [= <-]; assumption.
Qed.

Lemma coalesce_default_set (a : option JsVal) (d v : JsVal) :
  nullish d = false -> coalesce a (Some d) = Some v -> nullish v = false.
Proof.
  intros Hd. unfold coalesce. destruct a as [x |]; [| discriminate].
  destruct (nullish x) eqn:Hx; intros [= <-]; assumption.
Qed.

Section Shape.
Context {host : Host}.

(** Whatever record it is built from, a [Job] has a truthy title, company
    and city (the placeholders stand in for what is missing, empty texts
    included), the source tag ["adzuna"], and a description of at most 2000
    characters. *)
Theorem job_fields_are_filled (r : JsVal) (j : Jobs.Job) :
  Jobs.mapAdzunaToJob r = Some j ->
  truthy (Jobs.title j) = true /\
  truthy (Jobs.company j) = true /\
  truthy (Jobs.city j) = true /\
  Jobs.source j = "adzuna" /\
  (String.length (Jobs.description j) <= 2000)%nat.
Proof.
  unfold Jobs.mapAdzunaToJob. intros H. NormalizerSpec.split_binds H.
  inversion H; subst; clear H. cbn.
  repeat match goal with
         | E : or_else _ (Some (JStr _)) = Some _ |- _ =>
             apply or_else_default_truthy in E; [| reflexivity]
         end.
  repeat split; try assumption.
  match goal with
  | E : match ?text with _ => _ end = Some _ |- _ =>
      destruct text; try discriminate; inversion E; subst
  end.
  rewrite length_slice_to. lia.
Qed.

(** A [JobUpsert] never has a [null] or [undefined] title, company or city
    (an empty text is kept as it is), carries the source tag ["adzuna"], a
    description of at most 4000 characters when it has one, and a
    [uniq_hash] of exactly forty lower-case hexadecimal digits. *)
Theorem upsert_fields_are_filled (r : JsVal) (u : ImportAdzuna.JobUpsert) :
  ImportAdzuna.mapAdzunaToUpsert r = Some u ->
  nullish (ImportAdzuna.title u) = false /\
  nullish (ImportAdzuna.company u) = false /\
  nullish (ImportAdzuna.city u) = false /\
  ImportAdzuna.source u = "adzuna" /\
  (forall d, ImportAdzuna.description u = Some d -> (String.length d <= 4000)%nat) /\
  String.length (ImportAdzuna.uniq_hash u) = 40%nat /\
  all_hex (ImportAdzuna.uniq_hash u) = true.
Proof.
  unfold ImportAdzuna.mapAdzunaToUpsert. intros H. NormalizerSpec.split_binds H.
  inversion H; subst; clear H.
  cbn [ImportAdzuna.title ImportAdzuna.company ImportAdzuna.city ImportAdzuna.source
       ImportAdzuna.description ImportAdzuna.uniq_hash].
  repeat match goal with
         | E : coalesce _ (Some (JStr _)) = Some _ |- _ =>
             apply coalesce_default_set in E; [| reflexivity]
         end.
  do 4 (split; [assumption || reflexivity |]).
  split; [| split].
  - intros d Hd.
    match goal with
    | E : (if truthy ?x then _ else _) = Some _ |- _ =>
        destruct (truthy x); [| congruence]; NormalizerSpec.split_binds E
    end.
    match goal with
    | E : Some (Some ?v) = Some _ |- _ => assert (d = v) as -> by congruence
    end.
    rewrite length_slice_to. lia.
  - unfold ImportAdzuna.hash40. rewrite length_slice_to.
    match goal with
    | |- context [Sha256.sha256_hex ?i] => now rewrite (proj1 (sha256_hex_shape i))
    end.
  - unfold ImportAdzuna.hash40. apply all_hex_slice_to.
    match goal with
    | |- context [Sha256.sha256_hex ?i] => exact (proj2 (sha256_hex_shape i))
    end.
Qed.

End Shape.

Lemma job_fields_are_filled_witness :
  truthy (Jobs.title NormalizerSpec.half_located_job) = true /\
  truthy (Jobs.company NormalizerSpec.half_located_job) = true /\
  truthy (Jobs.city NormalizerSpec.half_located_job) = true /\
  Jobs.source NormalizerSpec.half_located_job = "adzuna" /\
  (String.length (Jobs.description NormalizerSpec.half_located_job) <= 2000)%nat.
Proof.
  apply (@job_fields_are_filled ExampleHost.example_host
           NormalizerSpec.half_located NormalizerSpec.half_located_job).
  vm_compute. reflexivity.
Defined.

Lemma upsert_fields_are_filled_witness :
  nullish (ImportAdzuna.title NormalizerSpec.half_located_upsert) = false /\
  nullish (ImportAdzuna.company NormalizerSpec.half_located_upsert) = false /\
  nullish (ImportAdzuna.city NormalizerSpec.half_located_upsert) = false /\
  ImportAdzuna.source NormalizerSpec.half_located_upsert = "adzuna" /\
  (forall d, ImportAdzuna.description NormalizerSpec.half_located_upsert = Some d ->
             (String.length d <= 4000)%nat) /\
  String.length (ImportAdzuna.uniq_hash NormalizerSpec.half_located_upsert) = 40%nat /\
  all_hex (ImportAdzuna.uniq_hash NormalizerSpec.half_located_upsert) = true.
Proof.
  apply (@upsert_fields_are_filled ExampleHost.example_host
           NormalizerSpec.half_located NormalizerSpec.half_located_upsert).
  vm_compute. reflexivity.
Defined.

Section Hash.
Context {host : Host}.

Lemma title_case_keeps_hash (fields : list (string * JsVal)) (t1 t2 : string)
    (u1 : ImportAdzuna.JobUpsert) :
  toLowerCase t1 = toLowerCase t2 ->
  ImportAdzuna.mapAdzunaToUpsert (JObj (("title", JStr t1) :: fields)) = Some u1 ->
  exists u2,
    ImportAdzuna.mapAdzunaToUpsert (JObj (("title", JStr t2) :: fields)) = Some u2 /\
    ImportAdzuna.uniq_hash u2 = ImportAdzuna.uniq_hash u1.
Proof.
  intros Hcase H. unfold ImportAdzuna.mapAdzunaToUpsert in *.
  cbn [get assoc String.eqb Ascii.eqb Bool.eqb] in *.
  cbn [coalesce nullish] in *.
  cbn [mbind option_bind] in H |- *.
  NormalizerSpec.split_binds H. inversion H; subst; clear H.
  repeat match goal with
         | E : ?e = Some _ |- context [?e] => rewrite E; cbn [mbind option_bind]
         end.
  rewrite <- (NormalizerSpec.hashInput_ignores_title_case t1 t2) by exact Hcase.
  repeat match goal with
         | E : ?e = Some _ |- context [?e] => rewrite E; cbn [mbind option_bind]
         end.
  eexists. split; reflexivity.
Qed.

(** Two records that differ only in the letter case of their title text
    are kept or dropped together, and when kept get the same
    [uniq_hash]. *)
Theorem uniq_hash_ignores_title_case
    (fields : list (string * JsVal)) (t1 t2 : string) :
  toLowerCase t1 = toLowerCase t2 ->
  ImportAdzuna.uniq_hash
    <$> ImportAdzuna.mapAdzunaToUpsert (JObj (("title", JStr t1) :: fields))
  = ImportAdzuna.uniq_hash
    <$> ImportAdzuna.mapAdzunaToUpsert (JObj (("title", JStr t2) :: fields)).
Proof.
  intros Hcase.
  destruct (ImportAdzuna.mapAdzunaToUpsert (JObj (("title", JStr t1) :: fields)))
    as [u1 |] eqn:E1.
  - destruct (title_case_keeps_hash fields t1 t2 u1 Hcase E1) as (u2 & -> & Hh).
    cbn. now rewrite Hh.
  - destruct (ImportAdzuna.mapAdzunaToUpsert (JObj (("title", JStr t2) :: fields)))
      as [u2 |] eqn:E2; [| reflexivity].
    destruct (title_case_keeps_hash fields t2 t1 u2 (eq_sym Hcase) E2) as (u1 & Hu1 & _).
    congruence.
Qed.

End Hash.

Lemma uniq_hash_ignores_title_case_witness :
  ImportAdzuna.uniq_hash
    <$> ImportAdzuna.mapAdzunaToUpsert (host := ExampleHost.example_host)
          (JObj [("title", JStr "Senior Dev"); ("company", JStr "Acme")])
  = ImportAdzuna.uniq_hash
    <$> ImportAdzuna.mapAdzunaToUpsert (host := ExampleHost.example_host)
          (JObj [("title", JStr "SENIOR dev"); ("company", JStr "Acme")]).
Proof.
  apply (@uniq_hash_ignores_title_case ExampleHost.example_host
           [("company", JStr "Acme")] "Senior Dev" "SENIOR dev").
  reflexivity.
Defined.

(** ** Descriptions hold no tag *)

Fixpoint no_gt (s : string) : bool :=
  match s with
  | EmptyString => true
  | String c rest => negb (Ascii.eqb c ">") && no_gt rest
  end.

(** Texts in which [/<[^>]+>/] finds nothing: every [<] is directly
    followed by [>], or by no [>] at all. *)
Inductive tag_free : string -> Prop :=
| tag_free_empty : tag_free EmptyString
| tag_free_other c s : Ascii.eqb c "<" = false -> tag_free s -> tag_free (String c s)
| tag_free_pair s : tag_free s -> tag_free (String "<" (String ">" s))
| tag_free_open s : no_gt s = true -> tag_free (String "<" s).

Lemma no_gt_append (a b : string) : no_gt (a +:+ b) = no_gt a && no_gt b.
Proof.
  induction a as [| c a IH]; [reflexivity |]. rewrite append_cons. cbn.
  now rewrite IH, andb_assoc.
Qed.

Lemma no_gt_rev (s : string) : no_gt (String.rev s) = no_gt s.
Proof.
  induction s as [| c s IH]; [reflexivity |].
  rewrite rev_cons, no_gt_append, IH. cbn. rewrite andb_true_r. apply andb_comm.
Qed.

Lemma pending_text_is_kept (t : string) : forall inside,
  no_gt t = true ->
  strip_tags_from (Some inside) t = String "<" (String.rev inside +:+ t).
Proof.
  induction t as [| c t IH]; intros inside Ht; cbn.
  - now rewrite append_empty_r.
  - cbn in Ht. apply andb_prop in Ht as [Hc Ht].
    apply negb_true_iff in Hc. rewrite Hc.
    rewrite (IH (String c inside) Ht), rev_cons, append_assoc. reflexivity.
Qed.

Lemma tag_free_unchanged (t : string) : tag_free t -> strip_tags t = t.
Proof.
  unfold strip_tags. induction 1 as [| c s Hc _ IH | s _ IH | s Hs]; cbn.
  - reflexivity.
  - rewrite Hc. now rewrite IH.
  - now rewrite IH.
  - now rewrite (pending_text_is_kept s "" Hs).
Qed.

Lemma strip_tags_from_tag_free (s : string) :
  tag_free (strip_tags_from None s) /\
  forall inside, no_gt inside = true -> tag_free (strip_tags_from (Some inside) s).
Proof.
  induction s as [| c s [IHnone IHsome]]; split; cbn.
  - constructor.
  - intros inside Hin. apply tag_free_open. now rewrite no_gt_rev.
  - destruct (Ascii.eqb c "<") eqn:Hc.
    + now apply IHsome.
    + now apply tag_free_other.
  - intros inside Hin. destruct (Ascii.eqb c ">") eqn:Hc.
    + destruct inside; [now apply tag_free_pair | exact IHnone].
    + apply IHsome. cbn. now rewrite Hc, Hin.
Qed.

Lemma no_gt_slice_to (n : nat) (s : string) :
  no_gt s = true -> no_gt (slice_to n s) = true.
Proof.
  unfold slice_to. revert s. induction n as [| n IH]; intros [| c s]; cbn;
    try reflexivity.
  intros [Hc Hs]%andb_prop. rewrite Hc. cbn. now apply IH.
Qed.

Lemma tag_free_slice_to (t : string) :
  tag_free t -> forall n, tag_free (slice_to n t).
Proof.
  unfold slice_to. induction 1 as [| c s Hc _ IH | s _ IH | s Hs]; intros n.
  - destruct n; constructor.
  - destruct n as [| n]; cbn; [constructor |]. now apply tag_free_other.
  - destruct n as [| [| n]]; cbn.
    + constructor.
    + now apply tag_free_open.
    + apply tag_free_pair. apply IH.
  - destruct n as [| n]; cbn; [constructor |].
    apply tag_free_open. now apply (no_gt_slice_to n s).
Qed.

Section Descriptions.
Context {host : Host}.

(** The description of a [Job] and of a [JobUpsert] holds no tag: taking
    the tags out of it again leaves it as it is, also where the cut at the
    length limit fell inside a tag. *)
Theorem descriptions_hold_no_tag (r : JsVal) :
  (forall j, Jobs.mapAdzunaToJob r = Some j ->
     strip_tags (Jobs.description j) = Jobs.description j) /\
  (forall u d, ImportAdzuna.mapAdzunaToUpsert r = Some u ->
     ImportAdzuna.description u = Some d -> strip_tags d = d).
Proof.
  split.
  - intros j H. unfold Jobs.mapAdzunaToJob in H. NormalizerSpec.split_binds H.
    inversion H; subst; clear H. cbn [Jobs.description].
    match goal with
    | E : match ?text with _ => _ end = Some _ |- _ =>
        destruct text; try discriminate; inversion E; subst
    end.
    apply tag_free_unchanged, tag_free_slice_to, strip_tags_from_tag_free.
  - intros u d H Hd. unfold ImportAdzuna.mapAdzunaToUpsert in H.
    NormalizerSpec.split_binds H. inversion H; subst; clear H.
    cbn [ImportAdzuna.description] in Hd.
    match goal with
    | E : (if truthy ?x then _ else _) = Some _ |- _ =>
        destruct (truthy x); [| congruence]; NormalizerSpec.split_binds E
    end.
    match goal with
    | E : Some (Some ?v) = Some _ |- _ => assert (d = v) as -> by congruence
    end.
    apply tag_free_unchanged, tag_free_slice_to, strip_tags_from_tag_free.
Qed.

(** [mapAdzunaToJob] drops every record whose [description] is truthy and
    not a text (a number, [true], an array, an object): [replace] is not a
    method of such a value. *)
Theorem job_dropped_on_non_text_description (r d : JsVal) :
  get r "description" = Some d ->
  truthy d = true ->
  (forall s, d <> JStr s) ->
  Jobs.mapAdzunaToJob r = None.
Proof.
  intros Hd Ht Hnot. unfold Jobs.mapAdzunaToJob. rewrite Hd.
  cbn [or_else]. rewrite Ht. cbn [or_else]. rewrite Ht.
  cbn [mbind option_bind].
  destruct d; try (now destruct (Hnot s));
    repeat match goal with
           | |- (?m ≫= _) = None =>
               destruct m; cbn [mbind option_bind]; [| reflexivity]
           end; reflexivity.
Qed.

End Descriptions.

Lemma job_dropped_on_non_text_description_witness :
  Jobs.mapAdzunaToJob (host := ExampleHost.example_host)
    (JObj [("title", JStr "Dev"); ("description", JNum 7)]) = None.
Proof.
  apply (@job_dropped_on_non_text_description ExampleHost.example_host
           (JObj [("title", JStr "Dev"); ("description", JNum 7)]) (JNum 7)).
  - reflexivity.
  - reflexivity.
  - discriminate.
Defined.

(** A record with tags in its description, and what the two normalisers
    make of it. *)
Definition tagged : JsVal :=
  JObj [("id", JStr "7"); ("title", JStr "Dev");
        ("description", JStr "<p>Senior <b>role</b></p> pay < 50k <br")].

Definition tagged_job : Jobs.Job :=
  Eval vm_compute in
    match Jobs.mapAdzunaToJob (host := ExampleHost.example_host) tagged with
    | Some j => j
    | None => NormalizerSpec.half_located_job
    end.

Definition tagged_upsert : ImportAdzuna.JobUpsert :=
  Eval vm_compute in
    match ImportAdzuna.mapAdzunaToUpsert (host := ExampleHost.example_host) tagged with
    | Some u => u
    | None => NormalizerSpec.half_located_upsert
    end.

Lemma descriptions_hold_no_tag_witness :
  Jobs.description tagged_job = "Senior role pay < 50k <br" /\
  strip_tags (Jobs.description tagged_job) = Jobs.description tagged_job /\
  strip_tags "Senior role pay < 50k <br" = "Senior role pay < 50k <br".
Proof.
  split; [reflexivity |]. split.
  - apply (proj1 (@descriptions_hold_no_tag ExampleHost.example_host tagged) tagged_job).
    vm_compute. reflexivity.
  - apply (proj2 (@descriptions_hold_no_tag ExampleHost.example_host tagged)
             tagged_upsert "Senior role pay < 50k <br");
      vm_compute; reflexivity.
Defined.

(** ** Records that are never dropped *)

(** An induction principle that reaches the elements of arrays and the
    values of objects. *)
Section Induction.
Variable P : JsVal -> Prop.
Hypothesis P_undefined : P JUndefined.
Hypothesis P_null : P JNull.
Hypothesis P_bool : forall b, P (JBool b).
Hypothesis P_num : forall n, P (JNum n).
Hypothesis P_str : forall s, P (JStr s).
Hypothesis P_arr : forall items, Forall P items -> P (JArr items).
Hypothesis P_obj : forall fields, Forall (fun kv => P kv.2) fields -> P (JObj fields).

Fixpoint JsVal_deep_ind (v : JsVal) : P v :=
  match v with
  | JUndefined => P_undefined
  | JNull => P_null
  | JBool b => P_bool b
  | JNum n => P_num n
  | JStr s => P_str s
  | JArr items =>
      P_arr items
        ((fix all (l : list JsVal) : Forall P l :=
            match l with
            | [] => @List.Forall_nil _ P
            | x :: rest => @List.Forall_cons _ P x rest (JsVal_deep_ind x) (all rest)
            end) items)
  | JObj fields =>
      P_obj fields
        ((fix all (l : list (string * JsVal)) : Forall (fun kv => P kv.2) l :=
            match l with
            | [] => @List.Forall_nil _ (fun kv => P kv.2)
            | kv :: rest =>
                @List.Forall_cons _ (fun kv => P kv.2) kv rest (JsVal_deep_ind kv.2) (all rest)
            end) fields)
  end.

End Induction.

(** No object anywhere in the value carries an entry named [toString]. *)
Fixpoint plain (v : JsVal) : bool :=
  match v with
  | JArr items => forallb plain items
  | JObj fields =>
      negb (has_key "toString" fields) && forallb (fun kv => plain kv.2) fields
  | _ => true
  end.

Lemma sequence_all_some {A : Type} (l : list (option A)) :
  Forall is_Some l -> is_Some (sequence l).
Proof.
  induction 1 as [| x rest [a ->] _ [r IH]]; cbn; [eauto |]. rewrite IH. eauto.
Qed.

Section Plain.
Context {host : Host}.

Lemma plain_toString (v : JsVal) : plain v = true -> is_Some (toString v).
Proof.
  induction v as [| | [|] | n | s | items IH | fields _] using JsVal_deep_ind;
    cbn [toString plain]; intros Hv; eauto.
  - assert (Hall : is_Some (sequence
              (List.map (fun x => if nullish x then Some "" else toString x) items))).
    { apply sequence_all_some. revert Hv.
      induction IH as [| x rest Hx _ IHrest]; intros Hv; cbn; [constructor |].
      cbn in Hv. apply andb_prop in Hv as [Hpx Hprest].
      constructor; [| now apply IHrest].
      destruct (nullish x); [eauto | now apply Hx]. }
    destruct Hall as [parts ->]. cbn. eauto.
  - apply andb_prop in Hv as [Hkey _]. apply negb_true_iff in Hkey.
    rewrite Hkey. eauto.
Qed.

Lemma plain_toNumber (v : JsVal) : plain v = true -> is_Some (toNumber v).
Proof.
  intros Hv. destruct v; cbn [toNumber]; eauto;
    destruct (plain_toString _ Hv) as [s ->]; cbn; eauto.
Qed.

Lemma plain_assoc (k : string) (fields : list (string * JsVal)) :
  forallb (fun kv => plain kv.2) fields = true -> plain (assoc k fields) = true.
Proof.
  induction fields as [| [k' v] rest IH]; cbn; [reflexivity |].
  intros [Hv Hrest]%andb_prop. destruct (String.eqb k k'); [exact Hv | now apply IH].
Qed.

Lemma plain_get_opt (v : JsVal) (k : string) :
  plain v = true -> plain (get_opt v k) = true.
Proof.
  intros Hv. destruct v; cbn; try reflexivity.
  - now destruct (String.eqb k "length").
  - now destruct (String.eqb k "length").
  - cbn in Hv. apply andb_prop in Hv as [_ Hfields]. now apply plain_assoc.
Qed.

Lemma plain_last (items : list JsVal) :
  forallb plain items = true -> plain (List.last items JUndefined) = true.
Proof.
  induction items as [| x [| y rest] IH]; cbn; [reflexivity | |].
  - now intros [Hx _]%andb_prop.
  - intros [_ Hrest]%andb_prop. now apply IH.
Qed.

Lemma plain_last_of_array (area : JsVal) :
  plain area = true -> plain (ImportAdzuna.last_of_array area) = true.
Proof.
  intros Ha. destruct area; cbn; try reflexivity. now apply plain_last.
Qed.

Lemma get_of_value (r : JsVal) (k : string) :
  nullish r = false -> get r k = Some (get_opt r k).
Proof. unfold get_opt. destruct r; cbn; intros H; try discriminate; reflexivity. Qed.

Lemma coalesce_values (a b : JsVal) :
  coalesce (Some a) (Some b) = Some (if nullish a then b else a).
Proof. unfold coalesce. now destruct (nullish a). Qed.

Lemma plain_if (c : bool) (a b : JsVal) :
  plain a = true -> plain b = true -> plain (if c then a else b) = true.
Proof. now destruct c. Qed.

(** [mapAdzunaToUpsert] keeps every record that is not [null] or
    [undefined] and in which no object carries an entry named [toString]:
    no shape of the data, missing or oddly typed fields included, makes it
    drop such a record. *)
Theorem plain_records_are_kept (r : JsVal) :
  nullish r = false ->
  plain r = true ->
  is_Some (ImportAdzuna.mapAdzunaToUpsert r).
Proof.
  intros Hr Hp. unfold ImportAdzuna.mapAdzunaToUpsert.
  rewrite !(get_of_value r) by exact Hr.
  rewrite !coalesce_values. cbn [mbind option_bind].
  rewrite !coalesce_values. cbn [mbind option_bind].
  assert (Hfield : forall k, plain (get_opt r k) = true)
    by (intros k; now apply plain_get_opt).
  assert (Hnum : forall x, plain x = true -> is_Some (ImportAdzuna.number_if_truthy x)).
  { intros x Hx. unfold ImportAdzuna.number_if_truthy.
    destruct (truthy x); [| eauto].
    destruct (plain_toNumber x Hx) as [n ->]. cbn. eauto. }
  destruct (Hnum _ (Hfield "salary_min")) as [smin ->]. cbn [mbind option_bind].
  destruct (Hnum _ (Hfield "salary_max")) as [smax ->]. cbn [mbind option_bind].
  assert (Hremote : is_Some (ImportAdzuna.contract_is_remote (get_opt r "contract_type"))).
  { unfold ImportAdzuna.contract_is_remote.
    destruct (truthy (get_opt r "contract_type")); [| eauto].
    destruct (plain_toString _ (Hfield "contract_type")) as [s ->]. cbn. eauto. }
  destruct Hremote as [remote ->]. cbn [mbind option_bind].
  assert (Hdesc : is_Some (if truthy (get_opt r "description")
                           then s ← toString (get_opt r "description");
                                Some (Some (slice_to 4000 (strip_tags s)))
                           else Some None)).
  { destruct (truthy (get_opt r "description")); [| eauto].
    destruct (plain_toString _ (Hfield "description")) as [s ->]. cbn. eauto. }
  destruct Hdesc as [desc ->]. cbn [mbind option_bind].
  assert (Hid : is_Some (coalesce (Some (get_opt r "id"))
                           (if truthy (get_opt r "job_id")
                            then JStr <$> toString (get_opt r "job_id")
                            else Some JNull))).
  { unfold coalesce. destruct (nullish (get_opt r "id")); [| eauto].
    destruct (truthy (get_opt r "job_id")); [| eauto].
    destruct (plain_toString _ (Hfield "job_id")) as [s ->]. cbn. eauto. }
  destruct Hid as [sid ->]. cbn [mbind option_bind].
  assert (Hinput : forall a b c d,
             plain a = true -> plain b = true -> plain c = true -> plain d = true ->
             is_Some (ImportAdzuna.hashInput a b c d)).
  { intros a b c d Ha Hb Hc Hd. unfold ImportAdzuna.hashInput.
    destruct (plain_toString a Ha) as [sa ->]. cbn.
    destruct (plain_toString b Hb) as [sb ->]. cbn.
    destruct (plain_toString c Hc) as [sc ->]. cbn.
    destruct (plain_toString (if nullish d then JStr "" else d)) as [sd ->];
      [now apply plain_if | cbn; eauto]. }
  match goal with
  | |- is_Some (ImportAdzuna.hashInput ?a ?b ?c ?d ≫= _) =>
      destruct (Hinput a b c d) as [input ->]
  end; cbn [mbind option_bind]; eauto;
    repeat (apply plain_if || apply plain_get_opt || apply plain_last_of_array
            || apply Hfield || reflexivity || exact Hp).
Qed.

End Plain.

Lemma plain_records_are_kept_witness :
  is_Some (ImportAdzuna.mapAdzunaToUpsert (host := ExampleHost.example_host)
             (JObj [("title", JNum 7); ("company", JArr [JNull; JBool true]);
                    ("description", JObj [("text", JStr "x")])])).
Proof.
  apply (@plain_records_are_kept ExampleHost.example_host
           (JObj [("title", JNum 7); ("company", JArr [JNull; JBool true]);
                  ("description", JObj [("text", JStr "x")])]));
    reflexivity.
Defined.

End NormalizerMore.

(* ===================================================================== *)
(** * Further properties of the filter and sort steps *)
(* ===================================================================== *)

Module QueryMore.
Import Js Jobs.

(** Comparisons with NaN are false. *)
Lemma leb_nan_r (x : float) : PrimFloat.leb x nan = false.
Proof.
  rewrite FloatAxioms.leb_spec. change (FloatOps.Prim2SF nan) with SpecFloat.S754_nan.
  unfold SpecFloat.SFleb, SpecFloat.SFcompare.
  destruct (FloatOps.Prim2SF x) as [| [|] | | [|]]; reflexivity.
Qed.

Lemma leb_nan_l (x : float) : PrimFloat.leb nan x = false.
Proof.
  rewrite FloatAxioms.leb_spec. change (FloatOps.Prim2SF nan) with SpecFloat.S754_nan.
  unfold SpecFloat.SFleb, SpecFloat.SFcompare.
  destruct (FloatOps.Prim2SF x) as [| [|] | | [|]]; reflexivity.
Qed.

Lemma nan_value (x : float) :
  PrimFloat.is_nan x = true -> FloatOps.Prim2SF x = SpecFloat.S754_nan.
Proof. intros H. unfold FloatOps.Prim2SF. now rewrite H. Qed.

Lemma leb_of_nan_l (x y : float) : PrimFloat.is_nan x = true -> PrimFloat.leb x y = false.
Proof.
  intros H. rewrite FloatAxioms.leb_spec, (nan_value x H).
  unfold SpecFloat.SFleb, SpecFloat.SFcompare.
  destruct (FloatOps.Prim2SF y) as [| [|] | | [|]]; reflexivity.
Qed.

Lemma leb_of_nan_r (x y : float) : PrimFloat.is_nan y = true -> PrimFloat.leb x y = false.
Proof.
  intros H. rewrite FloatAxioms.leb_spec, (nan_value y H).
  unfold SpecFloat.SFleb, SpecFloat.SFcompare.
  destruct (FloatOps.Prim2SF x) as [| [|] | | [|]]; reflexivity.
Qed.

Lemma undefined_is_nan {host : Host} (v : JsVal) (n : float) :
  toNumber v = Some n -> PrimFloat.is_nan n = false -> v <> JUndefined.
Proof. intros Hn Hnan ->. cbn in Hn. inversion Hn; subst. discriminate Hnan. Qed.

(** A job inside a box has a latitude and a longitude that convert to
    numbers within the bounds; neither number is NaN, and so neither field
    is [undefined]. *)
Lemma in_box_has_numbers {host : Host} (box : Box) (j : Job) :
  in_box box j = Some true ->
  exists la lo,
    toNumber (lat j) = Some la /\ toNumber (lon j) = Some lo /\
    PrimFloat.leb (minLat box) la = true /\ PrimFloat.leb la (maxLat box) = true /\
    PrimFloat.leb (minLon box) lo = true /\ PrimFloat.leb lo (maxLon box) = true /\
    PrimFloat.is_nan la = false /\ PrimFloat.is_nan lo = false /\
    lat j <> JUndefined /\ lon j <> JUndefined.
Proof.
  unfold in_box, at_least, at_most, and_then. intros H.
  destruct (toNumber (lat j)) as [la |] eqn:Hla; [| discriminate]. cbn in H.
  destruct (PrimFloat.leb (minLat box) la) eqn:H1; [| discriminate].
  destruct (PrimFloat.leb la (maxLat box)) eqn:H2; [| discriminate].
  destruct (toNumber (lon j)) as [lo |] eqn:Hlo; [| discriminate]. cbn in H.
  destruct (PrimFloat.leb (minLon box) lo) eqn:H3; [| discriminate].
  destruct (PrimFloat.leb lo (maxLon box)) eqn:H4; [| discriminate].
  assert (Hnla : PrimFloat.is_nan la = false).
  { destruct (PrimFloat.is_nan la) eqn:E; [| reflexivity].
    now rewrite (leb_of_nan_r _ la E) in H1. }
  assert (Hnlo : PrimFloat.is_nan lo = false).
  { destruct (PrimFloat.is_nan lo) eqn:E; [| reflexivity].
    now rewrite (leb_of_nan_r _ lo E) in H3. }
  exists la, lo. repeat (split; [first [reflexivity | assumption] |]).
  split; [exact (undefined_is_nan _ _ Hla Hnla) | exact (undefined_is_nan _ _ Hlo Hnlo)].
Qed.

(** The references of [items] whose job passes [test]. *)
Definition passing (test : Job -> option bool) (h : Heap) (items : list loc) : list loc :=
  List.filter (fun l => match objects h !! l with
                        | Some j => match test j with
                                    | Some pass => pass
                                    | None => false
                                    end
                        | None => false
                        end) items.

Lemma paired_refs (h : Heap) (items : list loc) paired :
  mapM (fun l => j ← objects h !! l; Some (l, j)) items = Some paired ->
  List.map fst paired = items.
Proof.
  revert paired. induction items as [| l rest IH]; intros paired H.
  - now inversion H.
  - cbn in H. destruct (objects h !! l) as [j |]; [| discriminate]. cbn in H.
    destruct (mapM _ rest) as [paired' |]; [| discriminate]. cbn in H.
    inversion H; subst. cbn. now rewrite (IH paired').
Qed.

Lemma kept_refs_pass (test : Job -> option bool) (h : Heap) (items : list loc) kept :
  mapM (fun l => j ← objects h !! l; pass ← test j; Some (l, pass)) items = Some kept ->
  List.map fst (List.filter snd kept) = passing test h items.
Proof.
  unfold passing. revert kept. induction items as [| l rest IH]; intros kept H.
  - now inversion H.
  - cbn in H. destruct (objects h !! l) as [j |] eqn:Hj; [| discriminate]. cbn in H.
    destruct (test j) as [pass |] eqn:Hpass; [| discriminate]. cbn in H.
    destruct (mapM _ rest) as [kept' |]; [| discriminate]. cbn in H.
    inversion H; subst; clear H. cbn. rewrite Hj, Hpass.
    destruct pass; cbn; now rewrite (IH kept').
Qed.

Section Contents.
Context {host : Host} {engine : SortEngine}.

Lemma sorted_refs_permutation compare (h : Heap) (items sorted : list loc) :
  sorted_refs compare h items = Some sorted -> sorted ≡ₚ items.
Proof.
  unfold sorted_refs. intros H.
  destruct (mapM _ items) as [paired |] eqn:Hp; [| discriminate]. cbn in H.
  inversion H; subst. rewrite <- (paired_refs h items paired Hp).
  apply Permutation_map, engine_sort_permutation.
Qed.

(** What the array [filtered] holds at the end, given what the input array
    held: the references that pass the filter (all of them when there is no
    filter), in some order. *)
Lemma final_contents (q : Query) (h h' : Heap) (input out : loc) (items : list loc) :
  filter_and_sort q h input = Some (out, h') ->
  arrays h !! input = Some items ->
  exists final,
    arrays h' !! out = Some final /\
    final ≡ₚ match job_filter q with
             | Some test => passing test h items
             | None => items
             end.
Proof.
  unfold filter_and_sort. intros H Hitems.
  assert (Hsort : forall h1 arr content,
             arrays h1 !! arr = Some content ->
             (items1 ← arrays h1 !! arr;
              jobs ← jobs_of h1 items1;
              match job_order q jobs with
              | Unsorted => Some (arr, h1)
              | SortBy compare => h2 ← array_sort compare h1 arr; Some (arr, h2)
              | ComparatorRaises => None
              end) = Some (out, h') ->
             exists final, arrays h' !! out = Some final /\ final ≡ₚ content).
  { intros h1 arr content Hc Hrun. rewrite Hc in Hrun. cbn in Hrun.
    destruct (jobs_of h1 content) as [jobs |]; [| discriminate]. cbn in Hrun.
    destruct (job_order q jobs) as [| compare |]; [| | discriminate].
    - inversion Hrun; subst. exists content. split; [exact Hc | reflexivity].
    - unfold array_sort in Hrun. rewrite Hc in Hrun. cbn in Hrun.
      destruct (sorted_refs compare h1 content) as [sorted |] eqn:Hs; [| discriminate].
      cbn in Hrun. inversion Hrun; subst. exists sorted. cbn.
      split; [apply lookup_insert_eq | exact (sorted_refs_permutation _ _ _ _ Hs)]. }
  destruct (job_filter q) as [test |].
  - unfold array_filter in H. rewrite Hitems in H. cbn in H.
    destruct (mapM _ items) as [kept |] eqn:Hkept; [| discriminate]. cbn in H.
    rewrite <- (kept_refs_pass test h items kept Hkept).
    eapply Hsort; [| exact H]. cbn. apply lookup_insert_eq.
  - cbn in H. eapply Hsort; [exact Hitems | exact H].
Qed.

(** The steps never invent, duplicate or lose a job: the array they leave
    holds, in some order, exactly the references of the input array whose
    job passes the filter, each as often as the input array held it; and
    without a filter it holds all of them. *)
Theorem result_is_the_filtered_input
    (q : Query) (h h' : Heap) (input out : loc) (items : list loc) :
  filter_and_sort q h input = Some (out, h') ->
  arrays h !! input = Some items ->
  exists kept final,
    arrays h' !! out = Some final /\
    final ≡ₚ kept /\
    kept `sublist_of` items /\
    (job_filter q = None -> kept = items).
Proof.
  intros H Hitems.
  destruct (final_contents q h h' input out items H Hitems) as (final & Hfinal & Hperm).
  destruct (job_filter q) as [test |].
  - exists (passing test h items), final.
    split; [exact Hfinal |]. split; [exact Hperm |]. split; [| discriminate].
    unfold passing. clear. induction items as [| l rest IH]; cbn; [constructor |].
    match goal with
    | |- context [if ?c then _ else _] =>
        destruct c; [now apply sublist_skip | now apply sublist_cons]
    end.
  - exists items, final. split; [exact Hfinal |]. split; [exact Hperm |].
    split; [reflexivity | reflexivity].
Qed.

(** After a [bbox] filter every job left lies in the box the handler
    read: its [lat] and [lon], converted to numbers the way the comparison
    converts them (a number is itself, [null] is 0, a text is the number it
    spells), are within the bounds.  Neither number is NaN, so a job whose
    [lat] or [lon] is [undefined], or converts to NaN, never passes,
    whatever the box. *)
Theorem bbox_keeps_located_jobs_only
    (q : Query) (h h' : Heap) (input out : loc) (text : string) (a b c d : float)
    (final : list loc) :
  filter_and_sort q h input = Some (out, h') ->
  bbox q = QText text ->
  text <> "" ->
  bbox_parts text = [a; b; c; d] ->
  arrays h' !! out = Some final ->
  forall l j, In l final -> objects h' !! l = Some j ->
    in_box (box_of_parts a b c d) j = Some true /\
    exists la lo,
      toNumber (lat j) = Some la /\ toNumber (lon j) = Some lo /\
      PrimFloat.leb (minLat (box_of_parts a b c d)) la = true /\
      PrimFloat.leb la (maxLat (box_of_parts a b c d)) = true /\
      PrimFloat.leb (minLon (box_of_parts a b c d)) lo = true /\
      PrimFloat.leb lo (maxLon (box_of_parts a b c d)) = true /\
      PrimFloat.is_nan la = false /\ PrimFloat.is_nan lo = false /\
      lat j <> JUndefined /\ lon j <> JUndefined.
Proof.
  intros H Hbbox Htext Hparts Hfinal l j Hl Hj.
  assert (Hfilter : job_filter q = Some (in_box (box_of_parts a b c d))).
  { unfold job_filter. rewrite Hbbox.
    destruct (String.eqb_spec text ""); [contradiction |]. cbn. now rewrite Hparts. }
  assert (Hin : is_Some (arrays h !! input)).
  { unfold filter_and_sort in H. rewrite Hfilter in H. unfold array_filter in H.
    destruct (arrays h !! input); [eauto | discriminate]. }
  destruct Hin as [items Hitems].
  destruct (final_contents q h h' input out items H Hitems) as (final' & Hfinal' & Hperm).
  rewrite Hfinal in Hfinal'. inversion Hfinal'; subst final'. rewrite Hfilter in Hperm.
  assert (Hobjects : objects h' = objects h).
  { unfold filter_and_sort in H. rewrite Hfilter in H.
    destruct (array_filter _ h input) as [[filtered h1] |] eqn:Hf; [| discriminate].
    destruct (QuerySpec.array_filter_allocates _ _ _ _ _ Hf) as (_ & Hobj1 & _).
    cbn in H.
    destruct (arrays h1 !! filtered) as [items1 |]; [| discriminate]. cbn in H.
    destruct (jobs_of h1 items1) as [jobs |]; [| discriminate]. cbn in H.
    destruct (job_order q jobs) as [| compare |]; [| | discriminate].
    - inversion H; subst. exact Hobj1.
    - destruct (array_sort compare h1 filtered) as [h2 |] eqn:Es; [| discriminate].
      cbn in H. inversion H; subst.
      destruct (QuerySpec.array_sort_in_place _ _ _ _ Es) as (Hobj2 & _).
      congruence. }
  assert (Hpass : In l (passing (in_box (box_of_parts a b c d)) h items)).
  { apply list_elem_of_In. rewrite <- Hperm. now apply list_elem_of_In. }
  unfold passing in Hpass. apply filter_In in Hpass as [_ Htest].
  rewrite Hobjects in Hj. rewrite Hj in Htest.
  assert (Hbox : in_box (box_of_parts a b c d) j = Some true).
  { destruct (in_box (box_of_parts a b c d) j) as [[|] |]; (reflexivity || discriminate). }
  split; [exact Hbox | exact (in_box_has_numbers _ _ Hbox)].
Qed.

(** A [bbox] text that is not empty and does not hold exactly four numbers
    switches filtering off altogether, also when a centre and a radius are
    given: the array comes back with all its references. *)
Theorem malformed_bbox_disables_filtering
    (q : Query) (h h' : Heap) (input out : loc) (text : string) (items : list loc) :
  bbox q = QText text ->
  text <> "" ->
  length (bbox_parts text) <> 4%nat ->
  filter_and_sort q h input = Some (out, h') ->
  arrays h !! input = Some items ->
  job_filter q = None /\ out = input /\
  exists final, arrays h' !! input = Some final /\ final ≡ₚ items.
Proof.
  intros Hbbox Htext Hcount H Hitems.
  assert (Hfilter : job_filter q = None).
  { unfold job_filter. rewrite Hbbox.
    destruct (String.eqb_spec text ""); [contradiction |]. cbn.
    destruct (bbox_parts text) as [| a [| b [| c [| d [| e rest]]]]];
      try reflexivity. now destruct Hcount. }
  split; [exact Hfilter |].
  destruct (final_contents q h h' input out items H Hitems) as (final & Hfinal & Hperm).
  rewrite Hfilter in Hperm.
  assert (Hout : out = input).
  { unfold filter_and_sort in H. rewrite Hfilter in H. cbn in H.
    rewrite Hitems in H. cbn in H.
    destruct (jobs_of h items) as [jobs |]; [| discriminate]. cbn in H.
    destruct (job_order q jobs) as [| compare |]; [| | discriminate].
    - now inversion H.
    - destruct (array_sort compare h input); [| discriminate]. cbn in H.
      now inversion H. }
  split; [exact Hout |]. subst out. now exists final.
Qed.

End Contents.

(** ** On the sample heap *)

Definition five_numbers : Query :=
  {| bbox := QText "2.0,48.0,2.5,48.5,7"; center_lat := QText "48.85";
     center_lon := QText "2.35"; radius_km := QText "10"; sort := QAbsent |}.

Lemma result_is_the_filtered_input_witness :
  exists kept final,
    arrays QuerySpec.filtered_heap !! 11%positive = Some final /\
    final ≡ₚ kept /\
    kept `sublist_of` [1%positive; 2%positive] /\
    (job_filter (host := ExampleHost.example_host) QuerySpec.box_and_sort = None ->
     kept = [1%positive; 2%positive]).
Proof.
  apply (@result_is_the_filtered_input ExampleHost.example_host QuerySpec.stable_engine
           QuerySpec.box_and_sort QuerySpec.sample_heap QuerySpec.filtered_heap
           10%positive 11%positive [1%positive; 2%positive]);
    vm_compute; reflexivity.
Defined.

(** A box given as [lat, lon, lat, lon] around the first sample job. *)
Definition lat_first_box : Query :=
  {| bbox := QText "48.0,2.0,48.5,2.5"; center_lat := QAbsent;
     center_lon := QAbsent; radius_km := QAbsent; sort := QAbsent |}.

Definition first_job_kept : Heap :=
  {| arrays := <[11%positive := [1%positive]]> (arrays QuerySpec.sample_heap);
     objects := objects QuerySpec.sample_heap |}.

Lemma bbox_keeps_located_jobs_only_witness :
  in_box (host := ExampleHost.example_host) (box_of_parts 48 2 48.5 2.5)
    (QuerySpec.sample_job "a" 1000 48.2 2.2) = Some true /\
  exists la lo,
    toNumber (host := ExampleHost.example_host)
      (lat (QuerySpec.sample_job "a" 1000 48.2 2.2)) = Some la /\
    toNumber (host := ExampleHost.example_host)
      (lon (QuerySpec.sample_job "a" 1000 48.2 2.2)) = Some lo /\
    PrimFloat.leb (minLat (box_of_parts 48 2 48.5 2.5)) la = true /\
    PrimFloat.leb la (maxLat (box_of_parts 48 2 48.5 2.5)) = true /\
    PrimFloat.leb (minLon (box_of_parts 48 2 48.5 2.5)) lo = true /\
    PrimFloat.leb lo (maxLon (box_of_parts 48 2 48.5 2.5)) = true /\
    PrimFloat.is_nan la = false /\ PrimFloat.is_nan lo = false /\
    lat (QuerySpec.sample_job "a" 1000 48.2 2.2) <> JUndefined /\
    lon (QuerySpec.sample_job "a" 1000 48.2 2.2) <> JUndefined.
Proof.
  apply (@bbox_keeps_located_jobs_only ExampleHost.example_host QuerySpec.stable_engine
           lat_first_box QuerySpec.sample_heap first_job_kept 10%positive 11%positive
           "48.0,2.0,48.5,2.5" 48 2 48.5 2.5 [1%positive])
    with (l := 1%positive).
  - vm_compute. reflexivity.
  - reflexivity.
  - discriminate.
  - vm_compute. reflexivity.
  - vm_compute. reflexivity.
  - now left.
  - vm_compute. reflexivity.
Defined.

Lemma malformed_bbox_disables_filtering_witness :
  job_filter (host := ExampleHost.example_host) five_numbers = None /\
  10%positive = 10%positive /\
  exists final,
    arrays QuerySpec.sample_heap !! 10%positive = Some final /\
    final ≡ₚ [1%positive; 2%positive].
Proof.
  apply (@malformed_bbox_disables_filtering ExampleHost.example_host
           QuerySpec.stable_engine five_numbers
           QuerySpec.sample_heap QuerySpec.sample_heap 10%positive 10%positive
           "2.0,48.0,2.5,48.5,7" [1%positive; 2%positive]).
  - reflexivity.
  - discriminate.
  - vm_compute. discriminate.
  - vm_compute. reflexivity.
  - vm_compute. reflexivity.
Defined.

End QueryMore.

(* ===================================================================== *)
(** * Further properties of the import route *)
(* ===================================================================== *)

Module ImportMore.
Import Js Net ImportAdzuna.

(** What a body contributes to [allResults]. *)
Definition results_of (json : JsVal) : list JsVal :=
  match (if truthy json then get_opt json "results" else JUndefined) with
  | JArr results => results
  | _ => []
  end.

Definition unauthorized : Reply :=
  {| reply_status := 401;
     reply_body := Failure "Unauthorized" "Invalid or missing x-cron-secret header" |}.

Section Route.
Context {host : Host}.
Variable env : ProcessEnv.
Variable network : list Request -> Request -> FetchOutcome.

(** The secret is configured and the header carries it. *)
Definition authorised (x_cron_secret : option string) : bool :=
  negb (empty (CRON_SECRET env)) && String.eqb (or_empty x_cron_secret) (CRON_SECRET env).

(** The four settings of the two services are present. *)
Definition configured : bool :=
  negb (empty (ADZUNA_APP_ID env)) && negb (empty (ADZUNA_APP_KEY env))
  && negb (empty (SUPABASE_URL env)) && negb (empty (SUPABASE_SERVICE_ROLE env)).

Definition page_request (size page : Z) : Request :=
  AdzunaPage (ADZUNA_APP_ID env) (ADZUNA_APP_KEY env) page size.

Definition upsert_request (rows : list JobUpsert) : Request :=
  SupabaseUpsert (drop_final_slash (SUPABASE_URL env) +:+ "/rest/v1/jobs?on_conflict=uniq_hash")
    (SUPABASE_SERVICE_ROLE env) rows.

(** What a page request comes to: the message of the error
    [fetchAdzunaPage] raises (the network's, the one built from a status
    that is not OK, or the parser's), or [None] when the page is
    fetched. *)
Definition page_failure (outcome : FetchOutcome) : option string :=
  match outcome with
  | Rejected reason => Some reason
  | Fulfilled r =>
      if negb (ok r) then
        Some ("Adzuna fetch failed " +:+ pretty (status r) +:+ ": " +:+ text r)
      else
        match json r with
        | Some _ => None
        | None => Some (json_error r)
        end
  end.

(** What the [n]-th page request of a run (counting from 0) is answered
    with, when the run started with [sent] and the pages before it were
    asked for. *)
Definition page_answer (pages : list Z) (size : Z) (sent : list Request) (n : nat)
    : FetchOutcome :=
  network (sent ++ List.map (page_request size) (take n pages))%list
    (page_request size (nth n pages 0)).

Lemma fetchAdzunaPage_fails page size sent message :
  page_failure (network sent (page_request size page)) = Some message ->
  fetchAdzunaPage env network page size sent
  = (Thrown message, (sent ++ [page_request size page])%list).
Proof.
  unfold page_failure, fetchAdzunaPage, bind, fetch, read_json, throw, ret, page_request.
  destruct (network sent _) as [reason | r]; [now intros [= ->] |].
  destruct (negb (ok r)); [now intros [= ->] |].
  destruct (json r); [discriminate | now intros [= ->]].
Qed.

Lemma fetchAdzunaPage_fetches page size sent :
  page_failure (network sent (page_request size page)) = None ->
  exists body,
    fetchAdzunaPage env network page size sent
    = (Returned body, (sent ++ [page_request size page])%list).
Proof.
  unfold page_failure, fetchAdzunaPage, bind, fetch, read_json, throw, ret, page_request.
  destruct (network sent _) as [reason | r]; [discriminate |].
  destruct (negb (ok r)); [discriminate |].
  destruct (json r) as [body |]; [eauto | discriminate].
Qed.

(** The loop stops at the first page that fails: the pages up to it have
    been asked for, the later ones have not. *)
Lemma fetch_pages_stops_at_failure pages : forall size acc sent k message,
  (k < length pages)%nat ->
  (forall n, (n < k)%nat -> page_failure (page_answer pages size sent n) = None) ->
  page_failure (page_answer pages size sent k) = Some message ->
  fetch_pages env network pages size acc sent
  = (Thrown message, (sent ++ List.map (page_request size) (take (S k) pages))%list).
Proof.
  induction pages as [| p rest IH]; intros size acc sent k message Hk Hbefore Hfail.
  - cbn in Hk. lia.
  - cbn [fetch_pages]. unfold bind.
    destruct k as [| k].
    + unfold page_answer in Hfail. cbn in Hfail. rewrite app_nil_r in Hfail.
      rewrite (fetchAdzunaPage_fails p size sent message Hfail). cbn.
      now rewrite take_0.
    + pose proof (Hbefore 0%nat ltac:(lia)) as H0.
      unfold page_answer in H0. cbn in H0. rewrite app_nil_r in H0.
      destruct (fetchAdzunaPage_fetches p size sent H0) as [body ->].
      assert (Hnext : forall acc',
                 fetch_pages env network rest size acc' (sent ++ [page_request size p])%list
                 = (Thrown message,
                    (sent ++ List.map (page_request size) (take (S (S k)) (p :: rest)))%list)).
      { intros acc'.
        rewrite (IH size acc' (sent ++ [page_request size p])%list k message).
        - cbn. now rewrite <- app_assoc.
        - cbn in Hk. lia.
        - intros n Hn. pose proof (Hbefore (S n) ltac:(lia)) as Hn'.
          unfold page_answer in Hn' |- *. cbn in Hn'.
          now rewrite <- app_assoc.
        - unfold page_answer in Hfail |- *. cbn in Hfail.
          now rewrite <- app_assoc. }
      destruct (if truthy body then get_opt body "results" else JUndefined);
        apply Hnext.
Qed.

(** When no page fails the loop asks for all of them and returns. *)
Lemma fetch_pages_completes pages : forall size acc sent,
  (forall n, (n < length pages)%nat ->
             page_failure (page_answer pages size sent n) = None) ->
  exists allResults,
    fetch_pages env network pages size acc sent
    = (Returned allResults, (sent ++ List.map (page_request size) pages)%list).
Proof.
  induction pages as [| p rest IH]; intros size acc sent Hall.
  - exists acc. cbn. now rewrite app_nil_r.
  - cbn [fetch_pages]. unfold bind.
    pose proof (Hall 0%nat ltac:(cbn; lia)) as H0.
    unfold page_answer in H0. cbn in H0. rewrite app_nil_r in H0.
    destruct (fetchAdzunaPage_fetches p size sent H0) as [body ->].
    assert (Hnext : forall acc', exists allResults,
               fetch_pages env network rest size acc' (sent ++ [page_request size p])%list
               = (Returned allResults,
                  (sent ++ List.map (page_request size) (p :: rest))%list)).
    { intros acc'.
      destruct (IH size acc' (sent ++ [page_request size p])%list) as [allResults ->].
      - intros n Hn. pose proof (Hall (S n) ltac:(cbn; lia)) as Hn'.
        unfold page_answer in Hn' |- *. cbn in Hn'.
        now rewrite <- app_assoc.
      - exists allResults. cbn. now rewrite <- app_assoc. }
    destruct (if truthy body then get_opt body "results" else JUndefined);
      apply Hnext.
Qed.

(** Either some page is the first to fail, or none fails. *)
Lemma first_failing_page pages size sent (bound : nat) :
  (exists k message,
      (k < bound)%nat /\
      (forall n, (n < k)%nat -> page_failure (page_answer pages size sent n) = None) /\
      page_failure (page_answer pages size sent k) = Some message) \/
  (forall n, (n < bound)%nat -> page_failure (page_answer pages size sent n) = None).
Proof.
  induction bound as [| bound IH].
  - right. intros n Hn. lia.
  - destruct IH as [(k & message & Hk & Hbefore & Hfail) | Hnone].
    + left. exists k, message. split; [lia | auto].
    + destruct (page_failure (page_answer pages size sent bound)) as [message |] eqn:E.
      * left. exists bound, message. auto.
      * right. intros n Hn. destruct (Nat.eq_dec n bound) as [-> | Hne]; [exact E |].
        apply Hnone. lia.
Qed.

Lemma fetchAdzunaPage_sends_one page size sent :
  (fetchAdzunaPage env network page size sent).2 = (sent ++ [page_request size page])%list.
Proof.
  unfold fetchAdzunaPage, bind, fetch, read_json, throw, ret, page_request.
  destruct (network sent _) as [reason | r]; cbn; [reflexivity |].
  destruct (negb (ok r)); [| destruct (json r)]; reflexivity.
Qed.

(** The page loop asks for the pages in order and stops at the first one
    that fails. *)
Lemma fetch_pages_sends_prefix pages : forall size acc sent,
  exists k,
    (k <= length pages)%nat /\
    (fetch_pages env network pages size acc sent).2
    = (sent ++ List.map (page_request size) (take k pages))%list /\
    (forall all, (fetch_pages env network pages size acc sent).1 = Returned all ->
                 k = length pages).
Proof.
  induction pages as [| p rest IH]; intros size acc sent.
  - exists 0%nat. cbn. rewrite app_nil_r. auto.
  - cbn [fetch_pages]. unfold bind.
    pose proof (fetchAdzunaPage_sends_one p size sent) as Hp.
    destruct (fetchAdzunaPage env network p size sent) as [[json | msg] sent1];
      cbn in Hp; subst sent1.
    + assert (Hnext : forall acc', exists k,
                 (k <= length (p :: rest))%nat /\
                 (fetch_pages env network rest size acc' (sent ++ [page_request size p])%list).2
                 = (sent ++ List.map (page_request size) (take k (p :: rest)))%list /\
                 (forall all,
                     (fetch_pages env network rest size acc' (sent ++ [page_request size p])%list).1
                     = Returned all -> k = length (p :: rest))).
      { intros acc'. destruct (IH size acc' (sent ++ [page_request size p])%list)
          as (k & Hk & Hsent & Hall).
        exists (S k). cbn. split; [lia |]. split.
        - rewrite Hsent, <- app_assoc. reflexivity.
        - intros all Hret. now rewrite (Hall all Hret). }
      destruct (if truthy json then get_opt json "results" else JUndefined);
        apply Hnext.
    + exists 1%nat. cbn. split; [lia |]. split; [now rewrite take_0 |]. discriminate.
Qed.

(** The route, branch by branch. *)
Lemma POST_unfolded (x_cron_secret : option string) (sent : list Request) :
  POST env network x_cron_secret sent =
  if negb (authorised x_cron_secret) then (Returned unauthorized, sent)
  else if negb configured then
    (Returned {| reply_status := 500;
                 reply_body := Failure "Server misconfiguration"
                   (if empty (ADZUNA_APP_ID env) || empty (ADZUNA_APP_KEY env)
                    then "ADZUNA_APP_ID and ADZUNA_APP_KEY must be set"
                    else "SUPABASE_URL and SUPABASE_SERVICE_ROLE must be set") |}, sent)
  else
    match fetch_pages env network [1; 2; 3] 50 [] sent with
    | (Thrown message, sent1) =>
        (Returned {| reply_status := 500; reply_body := Failure "Import failed" message |},
         sent1)
    | (Returned allResults, sent1) =>
        match upserts_of allResults with
        | [] => (Returned {| reply_status := 200; reply_body := Imported 0 |}, sent1)
        | _ :: _ =>
            let rows := upserts_of allResults in
            match network sent1 (upsert_request rows) with
            | Rejected message =>
                (Returned {| reply_status := 500;
                             reply_body := Failure "Import failed" message |},
                 (sent1 ++ [upsert_request rows])%list)
            | Fulfilled resp =>
                (Returned (if ok resp
                           then {| reply_status := 200;
                                   reply_body := Imported (imported_count resp rows) |}
                           else {| reply_status := 502;
                                   reply_body := Failure "Failed to upsert to Supabase"
                                                   (text resp) |}),
                 (sent1 ++ [upsert_request rows])%list)
            end
        end
    end.
Proof.
  unfold POST, try_catch, authorised, configured.
  destruct (empty (CRON_SECRET env)); [reflexivity |].
  destruct (String.eqb (or_empty x_cron_secret) (CRON_SECRET env)); [| reflexivity].
  cbn [negb andb orb].
  destruct (empty (ADZUNA_APP_ID env)); [reflexivity |].
  destruct (empty (ADZUNA_APP_KEY env)); [reflexivity |].
  cbn [negb andb orb].
  destruct (empty (SUPABASE_URL env)); [reflexivity |].
  destruct (empty (SUPABASE_SERVICE_ROLE env)); [reflexivity |].
  cbn [negb andb orb].
  unfold bind at 1.
  destruct (fetch_pages env network [1; 2; 3] 50 [] sent) as [[allResults | message] sent1];
    [| reflexivity].
  cbv zeta.
  destruct (upserts_of allResults) as [| row rows]; [reflexivity |].
  cbv iota.
  cbn [length Nat.eqb]. unfold bind, fetch, upsert_request, ret.
  match goal with
  | |- context [network sent1 ?req] =>
      destruct (network sent1 req) as [message | resp]; [reflexivity |]
  end.
  now destruct (ok resp).
Qed.

(** The route never raises, and it answers with one of four statuses. *)
Theorem POST_always_answers (x_cron_secret : option string) (sent : list Request) :
  exists reply sent',
    POST env network x_cron_secret sent = (Returned reply, sent') /\
    (reply_status reply = 200 \/ reply_status reply = 401 \/
     reply_status reply = 500 \/ reply_status reply = 502).
Proof.
  rewrite POST_unfolded.
  destruct (negb (authorised x_cron_secret)); [eexists _, _; split; [reflexivity | auto] |].
  destruct (negb configured); [eexists _, _; split; [reflexivity | cbn; auto] |].
  destruct (fetch_pages env network [1; 2; 3] 50 [] sent) as [[allResults | message] sent1];
    [| eexists _, _; split; [reflexivity | cbn; auto]].
  destruct (upserts_of allResults) as [| row rows];
    [eexists _, _; split; [reflexivity | cbn; auto] |].
  cbv iota zeta.
  match goal with
  | |- context [network sent1 ?req] =>
      destruct (network sent1 req) as [message | resp];
        [eexists _, _; split; [reflexivity | cbn; auto] |]
  end.
  destruct (ok resp); eexists _, _; (split; [reflexivity | cbn; auto]).
Qed.

(** Unless the request is authorised and the four settings are present,
    the route sends nothing at all: a wrong or missing header is answered
    401, a missing setting 500. *)
Theorem nothing_sent_unless_authorised_and_configured
    (x_cron_secret : option string) (sent : list Request) :
  authorised x_cron_secret && configured = false ->
  exists reply,
    POST env network x_cron_secret sent = (Returned reply, sent) /\
    (if authorised x_cron_secret then reply_status reply = 500
     else reply = unauthorized).
Proof.
  intros Hgate. rewrite POST_unfolded.
  destruct (authorised x_cron_secret); cbn [negb andb] in *.
  - rewrite Hgate. cbn [negb]. eexists. split; reflexivity.
  - eexists. split; reflexivity.
Qed.

(** The requests of an authorised run with its settings present, in
    order: the pages 1, 2, 3 up to and including the first one that fails,
    and nothing after a failure; or, when none fails, the three pages
    followed by one upsert of the rows the records gave, unless they gave
    none, in which case no upsert is sent. *)
Theorem requests_of_a_run (x_cron_secret : option string) (sent : list Request) :
  authorised x_cron_secret = true ->
  configured = true ->
  exists k upsert,
    (1 <= k <= 3)%nat /\
    (POST env network x_cron_secret sent).2
    = (sent ++ List.map (page_request 50) (take k [1; 2; 3]) ++ upsert)%list /\
    (forall n, (S n < k)%nat ->
               page_failure (page_answer [1; 2; 3] 50 sent n) = None) /\
    ((exists message,
         page_failure (page_answer [1; 2; 3] 50 sent (k - 1)) = Some message /\
         upsert = []) \/
     (k = 3%nat /\
      page_failure (page_answer [1; 2; 3] 50 sent 2) = None /\
      exists allResults,
        (fetch_pages env network [1; 2; 3] 50 [] sent).1 = Returned allResults /\
        upsert = match upserts_of allResults with
                 | [] => []
                 | _ :: _ => [upsert_request (upserts_of allResults)]
                 end)).
Proof.
  intros Hauth Hconf. rewrite POST_unfolded, Hauth, Hconf. cbn [negb].
  destruct (first_failing_page [1; 2; 3] 50 sent 3)
    as [(k & message & Hk & Hbefore & Hfail) | Hnone].
  - rewrite (fetch_pages_stops_at_failure [1; 2; 3] 50 [] sent k message
               ltac:(cbn; lia) Hbefore Hfail).
    exists (S k), []. cbn [snd]. split; [lia |].
    split; [now rewrite app_nil_r |].
    split; [intros n Hn; apply Hbefore; lia |].
    left. exists message. replace (S k - 1)%nat with k by lia. auto.
  - destruct (fetch_pages_completes [1; 2; 3] 50 [] sent Hnone) as [allResults Hrun].
    rewrite Hrun.
    assert (Hlast : page_failure (page_answer [1; 2; 3] 50 sent 2) = None)
      by (apply Hnone; lia).
    destruct (upserts_of allResults) as [| row rows] eqn:Hrows.
    + exists 3%nat, []. cbn [snd]. split; [lia |].
      split; [now rewrite app_nil_r |].
      split; [intros n Hn; apply Hnone; lia |].
      right. split; [reflexivity |]. split; [exact Hlast |].
      exists allResults. now rewrite Hrows.
    + cbv iota zeta.
      destruct (network _ (upsert_request (row :: rows))) as [message | resp];
        exists 3%nat, [upsert_request (row :: rows)]; cbn [snd];
        (split; [lia |]); (split; [now rewrite <- app_assoc |]);
        (split; [intros n Hn; apply Hnone; lia |]);
        right; (split; [reflexivity |]); (split; [exact Hlast |]);
        exists allResults; now rewrite Hrows.
Qed.

(** A page that cannot be fetched aborts the run.  When the request is
    authorised, the settings are present, and a page is the first to fail
    (the network fails: the error's message; the answer is not OK: a
    message built from its status and text; its body is not JSON: the
    parser's message), the route answers 500 with that message as hint,
    and the requests sent are the pages up to that one: no later page is
    asked for and nothing is upserted, whatever the earlier pages
    brought. *)
Theorem failing_page_aborts_the_import
    (x_cron_secret : option string) (sent : list Request) (k : nat) (message : string) :
  authorised x_cron_secret = true ->
  configured = true ->
  (k < 3)%nat ->
  (forall n, (n < k)%nat -> page_failure (page_answer [1; 2; 3] 50 sent n) = None) ->
  page_failure (page_answer [1; 2; 3] 50 sent k) = Some message ->
  POST env network x_cron_secret sent
  = (Returned {| reply_status := 500; reply_body := Failure "Import failed" message |},
     (sent ++ List.map (page_request 50) (take (S k) [1; 2; 3]))%list).
Proof.
  intros Hauth Hconf Hk Hbefore Hfail.
  rewrite POST_unfolded, Hauth, Hconf. cbn [negb].
  now rewrite (fetch_pages_stops_at_failure [1; 2; 3] 50 [] sent k message
                 ltac:(cbn; lia) Hbefore Hfail).
Qed.

(** When the store refuses the rows, the route answers 502 and hands on
    the store's text; when it accepts them, the count reported is read
    from the store's answer and not from the rows sent: the length of an
    array, 1 for an object, 0 for any other JSON value, and the number of
    rows sent only when the answer is not JSON. *)
Theorem reply_follows_the_store
    (x_cron_secret : option string) (sent sent1 : list Request)
    (allResults : list JsVal) (resp : Response) :
  authorised x_cron_secret = true ->
  configured = true ->
  fetch_pages env network [1; 2; 3] 50 [] sent = (Returned allResults, sent1) ->
  upserts_of allResults <> [] ->
  network sent1 (upsert_request (upserts_of allResults)) = Fulfilled resp ->
  exists reply,
    POST env network x_cron_secret sent
    = (Returned reply, (sent1 ++ [upsert_request (upserts_of allResults)])%list) /\
    (ok resp = false ->
       reply = {| reply_status := 502;
                  reply_body := Failure "Failed to upsert to Supabase" (text resp) |}) /\
    (ok resp = true ->
       reply_status reply = 200 /\
       reply_body reply
       = Imported (match json resp with
                   | Some (JArr rows) => Z.of_nat (length rows)
                   | Some (JObj _) => 1
                   | Some _ => 0
                   | None => Z.of_nat (length (upserts_of allResults))
                   end)).
Proof.
  intros Hauth Hconf Hpages Hrows Hnet.
  rewrite POST_unfolded, Hauth, Hconf, Hpages. cbn [negb].
  destruct (upserts_of allResults) as [| row rows] eqn:E; [contradiction |].
  cbv iota zeta. rewrite Hnet. eexists. split; [reflexivity |].
  destruct (ok resp); split; intros; try discriminate; try reflexivity.
  split; reflexivity.
Qed.

(** When every page is answered OK with a JSON body, whatever was asked
    before, the loop returns the [results] arrays of the three bodies one
    after the other, in page order; a body that is falsy or has no
    [results] array adds nothing and does not stop the loop. *)
Theorem fetch_pages_concatenates (pages : list Z) (size : Z) (body : Z -> JsVal)
    (acc : list JsVal) (sent : list Request) :
  (forall history page,
      In page pages ->
      exists r, network history (page_request size page) = Fulfilled r /\
                ok r = true /\ json r = Some (body page)) ->
  (fetch_pages env network pages size acc sent).1
  = Returned (acc ++ concat (List.map (fun p => results_of (body p)) pages))%list.
Proof.
  revert acc sent. induction pages as [| p rest IH]; intros acc sent Hnet.
  - cbn. now rewrite app_nil_r.
  - cbn [fetch_pages]. unfold bind at 1.
    unfold fetchAdzunaPage, bind, fetch.
    destruct (Hnet sent p (or_introl eq_refl)) as (r & Hr & Hok & Hjson).
    unfold page_request in Hr. rewrite Hr, Hok. cbn [negb].
    unfold read_json. rewrite Hjson. unfold ret at 1.
    assert (Hrest : forall history page, In page rest ->
               exists r, network history (page_request size page) = Fulfilled r /\
                         ok r = true /\ json r = Some (body page)).
    { intros history page Hin. apply Hnet. now right. }
    cbn [List.map concat]. unfold results_of at 1.
    destruct (if truthy (body p) then get_opt (body p) "results" else JUndefined);
      rewrite (IH _ _ Hrest); rewrite ?app_nil_l, ?app_assoc; reflexivity.
Qed.

End Route.

(** ** On concrete runs *)

(** Page 2 cannot be fetched. *)
Definition second_page_down : list Request -> Request -> FetchOutcome :=
  fun _ req =>
    match req with
    | AdzunaPage _ _ 2 _ => Rejected "ETIMEDOUT"
    | AdzunaPage _ _ _ _ =>
        ImportSpec.reply_with (JObj [("results", JArr [JObj [("title", JStr "Dev")]])])
    | SupabaseUpsert _ _ _ => ImportSpec.reply_with (JArr [])
    end.

(** One record on page 1; the store refuses the rows. *)
Definition store_refuses : list Request -> Request -> FetchOutcome :=
  fun _ req =>
    match req with
    | AdzunaPage _ _ 1 _ =>
        ImportSpec.reply_with (JObj [("results", JArr [JObj [("title", JStr "Dev")]])])
    | AdzunaPage _ _ _ _ => ImportSpec.reply_with JNull
    | SupabaseUpsert _ _ _ =>
        Fulfilled {| ok := false; status := 409; text := "conflict"; json := None;
                     json_error := "Unexpected end of JSON input" |}
    end.

Lemma nothing_sent_unless_authorised_and_configured_witness :
  exists reply,
    POST (host := ExampleHost.example_host) ImportSpec.configured ImportSpec.null_pages
      (Some "guess") [] = (Returned reply, []) /\
    (if authorised ImportSpec.configured (Some "guess") then reply_status reply = 500
     else reply = unauthorized).
Proof.
  apply (@nothing_sent_unless_authorised_and_configured ExampleHost.example_host
           ImportSpec.configured ImportSpec.null_pages (Some "guess") []).
  reflexivity.
Defined.

(** Page 2 is answered with a body that is not JSON. *)
Definition second_page_garbled : list Request -> Request -> FetchOutcome :=
  fun _ req =>
    match req with
    | AdzunaPage _ _ 2 _ =>
        Fulfilled {| ok := true; status := 200; text := "<html>"; json := None;
                     json_error := "Unexpected token < in JSON at position 0" |}
    | AdzunaPage _ _ _ _ =>
        ImportSpec.reply_with (JObj [("results", JArr [JObj [("title", JStr "Dev")]])])
    | SupabaseUpsert _ _ _ => ImportSpec.reply_with (JArr [])
    end.

Lemma failing_page_aborts_the_import_witness :
  POST (host := ExampleHost.example_host) ImportSpec.configured second_page_garbled
    (Some "s3cret") []
  = (Returned {| reply_status := 500;
                 reply_body := Failure "Import failed"
                                 "Unexpected token < in JSON at position 0" |},
     ([] ++ List.map (page_request ImportSpec.configured 50) (take 2 [1; 2; 3]))%list).
Proof.
  apply (@failing_page_aborts_the_import ExampleHost.example_host ImportSpec.configured
           second_page_garbled (Some "s3cret") [] 1
           "Unexpected token < in JSON at position 0").
  - reflexivity.
  - reflexivity.
  - lia.
  - intros n Hn. assert (n = 0%nat) as -> by lia. reflexivity.
  - reflexivity.
Defined.

Lemma requests_of_a_run_witness :
  exists k upsert,
    (1 <= k <= 3)%nat /\
    (POST (host := ExampleHost.example_host) ImportSpec.configured second_page_down
       (Some "s3cret") []).2
    = ([] ++ List.map (page_request ImportSpec.configured 50) (take k [1; 2; 3])
          ++ upsert)%list /\
    (forall n, (S n < k)%nat ->
               page_failure (page_answer ImportSpec.configured second_page_down
                               [1; 2; 3] 50 [] n) = None) /\
    ((exists message,
         page_failure (page_answer ImportSpec.configured second_page_down
                         [1; 2; 3] 50 [] (k - 1)) = Some message /\
         upsert = []) \/
     (k = 3%nat /\
      page_failure (page_answer ImportSpec.configured second_page_down
                      [1; 2; 3] 50 [] 2) = None /\
      exists allResults,
        (fetch_pages ImportSpec.configured second_page_down [1; 2; 3] 50 [] []).1
        = Returned allResults /\
        upsert = match upserts_of (host := ExampleHost.example_host) allResults with
                 | [] => []
                 | _ :: _ =>
                     [upsert_request ImportSpec.configured
                        (upserts_of (host := ExampleHost.example_host) allResults)]
                 end)).
Proof.
  apply (@requests_of_a_run ExampleHost.example_host ImportSpec.configured
           second_page_down (Some "s3cret") []); reflexivity.
Defined.

Lemma reply_follows_the_store_witness :
  exists reply,
    POST (host := ExampleHost.example_host) ImportSpec.configured store_refuses
      (Some "s3cret") []
    = (Returned reply,
       (ImportSpec.three_pages
        ++ [upsert_request ImportSpec.configured
              (upserts_of (host := ExampleHost.example_host) [JObj [("title", JStr "Dev")]])])%list) /\
    (false = false ->
       reply = {| reply_status := 502;
                  reply_body := Failure "Failed to upsert to Supabase" "conflict" |}) /\
    (false = true ->
       reply_status reply = 200 /\
       reply_body reply
       = Imported (Z.of_nat (length (upserts_of (host := ExampleHost.example_host)
                                       [JObj [("title", JStr "Dev")]])))).
Proof.
  apply (@reply_follows_the_store ExampleHost.example_host ImportSpec.configured
           store_refuses (Some "s3cret") [] ImportSpec.three_pages
           [JObj [("title", JStr "Dev")]]
           {| ok := false; status := 409; text := "conflict"; json := None;
              json_error := "Unexpected end of JSON input" |}).
  - reflexivity.
  - reflexivity.
  - vm_compute. reflexivity.
  - vm_compute. discriminate.
  - reflexivity.
Defined.

Lemma fetch_pages_concatenates_witness :
  (fetch_pages ImportSpec.configured store_refuses [1; 2; 3] 50 [] []).1
  = Returned ([] ++ concat (List.map
                (fun p => results_of
                            (if (p =? 1)%Z
                             then JObj [("results", JArr [JObj [("title", JStr "Dev")]])]
                             else JNull))
                [1; 2; 3]))%list.
Proof.
  apply (fetch_pages_concatenates ImportSpec.configured store_refuses [1; 2; 3] 50
           (fun p => if (p =? 1)%Z
                     then JObj [("results", JArr [JObj [("title", JStr "Dev")]])]
                     else JNull) [] []).
  intros history page [<- | [<- | [<- | []]]]; eexists; repeat split; reflexivity.
Defined.

End ImportMore.

(* ===================================================================== *)
(** * The health checker and the health route *)
(* ===================================================================== *)

Module HealthSpec.
Import Js Net CheckHealth.

Section Checker.
Context {host : Host}.
Variable answers : nat -> Answer.

(** Every attempt before the [k]-th fails. *)
Definition all_fail_before (k : nat) : Prop :=
  forall n, (n < k)%nat -> attempt_of (answers n) = Fails.

Lemma same_progress (r r' : nat) (w w' : Z) :
  r = r' -> w = w' -> {| requests := r; waited_ms := w |} = {| requests := r'; waited_ms := w' |}.
Proof. now intros -> ->. Qed.

(** After [k] failed attempts, the attempt that does not fail decides. *)
Lemma tryFetch_decides (k : nat) : forall fuel attempt p,
  (k < fuel)%nat ->
  attempt + Z.of_nat k <= RETRIES ->
  (forall n, (n < k)%nat -> attempt_of (answers (requests p + n)%nat) = Fails) ->
  attempt_of (answers (requests p + k)%nat) <> Fails ->
  tryFetch fuel answers attempt p
  = Some (match attempt_of (answers (requests p + k)%nat) with
          | Healthy line => Exits (ExitOk line)
          | _ => NeverEnds
          end,
          {| requests := S (requests p + k);
             waited_ms := waited_ms p + RETRY_DELAY_MS * Z.of_nat k |}).
Proof.
  induction k as [| k IH]; intros fuel attempt p Hfuel Hroom Hfail Hend.
  - destruct fuel as [| fuel]; [lia |]. cbn [tryFetch].
    rewrite Nat.add_0_r in Hend |- *.
    destruct (attempt_of (answers (requests p))) as [line | |]; [| contradiction |];
      do 2 f_equal;
      apply same_progress; cbn [requests waited_ms]; unfold RETRY_DELAY_MS; lia.
  - destruct fuel as [| fuel]; [lia |]. cbn [tryFetch].
    pose proof (Hfail 0%nat ltac:(lia)) as H0. rewrite Nat.add_0_r in H0. rewrite H0.
    destruct (Z.geb_spec attempt RETRIES) as [Hlast | _]; [lia |].
    rewrite (IH fuel (attempt + 1)); cbn [requests waited_ms].
    + replace (S (requests p) + k)%nat with (requests p + S k)%nat by lia.
      f_equal. f_equal. apply same_progress; unfold RETRY_DELAY_MS; lia.
    + lia.
    + lia.
    + intros n Hn. replace (S (requests p) + n)%nat with (requests p + S n)%nat by lia.
      apply Hfail. lia.
    + replace (S (requests p) + k)%nat with (requests p + S k)%nat by lia. exact Hend.
Qed.

Lemma tryFetch_gives_up (k : nat) : forall fuel attempt p,
  (k < fuel)%nat ->
  attempt + Z.of_nat k = RETRIES ->
  (forall n, (n <= k)%nat -> attempt_of (answers (requests p + n)%nat) = Fails) ->
  tryFetch fuel answers attempt p
  = Some (Exits (ExitFailed RETRIES),
          {| requests := S (requests p + k);
             waited_ms := waited_ms p + RETRY_DELAY_MS * Z.of_nat k |}).
Proof.
  induction k as [| k IH]; intros fuel attempt p Hfuel Hroom Hfail.
  - destruct fuel as [| fuel]; [lia |]. cbn [tryFetch].
    pose proof (Hfail 0%nat ltac:(lia)) as H0. rewrite Nat.add_0_r in H0. rewrite H0.
    destruct (Z.geb_spec attempt RETRIES) as [_ | Hnot]; [| lia].
    f_equal. f_equal; [do 2 f_equal; lia |].
    apply same_progress; cbn [requests waited_ms]; unfold RETRY_DELAY_MS; lia.
  - destruct fuel as [| fuel]; [lia |]. cbn [tryFetch].
    pose proof (Hfail 0%nat ltac:(lia)) as H0. rewrite Nat.add_0_r in H0. rewrite H0.
    destruct (Z.geb_spec attempt RETRIES) as [Hlast | _]; [lia |].
    rewrite (IH fuel (attempt + 1)); cbn [requests waited_ms].
    + do 2 f_equal. apply same_progress; unfold RETRY_DELAY_MS; lia.
    + lia.
    + lia.
    + intros n Hn. replace (S (requests p) + n)%nat with (requests p + S n)%nat by lia.
      apply Hfail. lia.
Qed.

(** The script stops at the first healthy answer among its first ten
    requests: it exits with code 0 after logging the line, having sent one
    request per attempt and waited one second after each failed one. *)
Theorem first_healthy_answer_ends_the_check (k : nat) (line : string) (fuel : nat) :
  (k < 10)%nat ->
  (10 <= fuel)%nat ->
  all_fail_before k ->
  attempt_of (answers k) = Healthy line ->
  run fuel answers
  = Some (Exits (ExitOk line), {| requests := S k; waited_ms := 1000 * Z.of_nat k |}).
Proof.
  intros Hk Hfuel Hfail Hok. unfold run.
  rewrite (tryFetch_decides k fuel 1); cbn [requests waited_ms Nat.add].
  - rewrite Hok. unfold RETRY_DELAY_MS. reflexivity.
  - lia.
  - unfold RETRIES. lia.
  - intros n Hn. now apply Hfail.
  - rewrite Hok. discriminate.
Qed.

(** When none of the first ten attempts is healthy or left waiting, the
    script gives up: it exits with code 1 after exactly ten requests and
    nine waits of one second, whatever the later answers would have
    been. *)
Theorem ten_failures_exit_with_code_one (fuel : nat) :
  (10 <= fuel)%nat ->
  all_fail_before 10 ->
  run fuel answers
  = Some (Exits (ExitFailed 10), {| requests := 10; waited_ms := 9000 |}).
Proof.
  intros Hfuel Hfail. unfold run.
  rewrite (tryFetch_gives_up 9 fuel 1); cbn [requests waited_ms].
  - reflexivity.
  - lia.
  - reflexivity.
  - intros n Hn. apply Hfail. cbn. lia.
Qed.

(** Ten units of fuel decide every run.  It sends between one and ten
    requests, one second apart, all but the last of them failing, and
    comes to one of three ends: exit code 0 at a healthy answer; exit code
    1 after ten failures; or, at a response with status 200 whose body
    never arrives, a wait without end (the abort timer is cleared before
    the body is read).  So the script ends whenever none of its requests
    meets such a response. *)
Theorem check_ends_unless_a_body_stalls :
  exists outcome p,
    run 10 answers = Some (outcome, p) /\
    (1 <= requests p <= 10)%nat /\
    waited_ms p = 1000 * (Z.of_nat (requests p) - 1) /\
    all_fail_before (requests p - 1) /\
    match outcome with
    | Exits (ExitOk line) => attempt_of (answers (requests p - 1)%nat) = Healthy line
    | Exits (ExitFailed attempts) =>
        attempts = 10 /\ requests p = 10%nat /\ all_fail_before 10
    | NeverEnds => attempt_of (answers (requests p - 1)%nat) = Waits
    end /\
    ((forall n, (n < 10)%nat -> attempt_of (answers n) <> Waits) ->
     exists exit, outcome = Exits exit).
Proof.
  assert (Hsearch : forall k, (k <= 10)%nat ->
            all_fail_before k \/
            exists n, (n < k)%nat /\ all_fail_before n /\
                      attempt_of (answers n) <> Fails).
  { induction k as [| k IH]; intros Hk.
    - left. intros n Hn. lia.
    - destruct (IH ltac:(lia)) as [Hfail | (n & Hn & Hfail & Hend)].
      + destruct (attempt_of (answers k)) as [line | |] eqn:E.
        * right. exists k. rewrite E. repeat split; auto; discriminate.
        * left. intros n Hn. destruct (Nat.eq_dec n k) as [-> | Hne]; [exact E |].
          apply Hfail. lia.
        * right. exists k. rewrite E. repeat split; auto; discriminate.
      + right. exists n. split; [lia | auto]. }
  destruct (Hsearch 10%nat ltac:(lia)) as [Hfail | (n & Hn & Hfail & Hend)].
  - eexists _, _. split.
    + unfold run. apply (tryFetch_gives_up 9 10 1); [lia | reflexivity |].
      intros n Hn. apply Hfail. cbn. lia.
    + cbn [requests waited_ms Nat.add]. split; [lia |]. split; [reflexivity |].
      split; [intros n Hn; apply Hfail; lia |].
      split; [repeat split; exact Hfail |]. eauto.
  - eexists _, _. split.
    + unfold run. apply (tryFetch_decides n 10 1); [lia | unfold RETRIES; lia | |].
      * intros m Hm. now apply Hfail.
      * exact Hend.
    + cbn [requests waited_ms Nat.add].
      replace (S n - 1)%nat with n by lia.
      split; [lia |]. split; [unfold RETRY_DELAY_MS; lia |].
      split; [exact Hfail |].
      destruct (attempt_of (answers n)) as [line | |] eqn:E.
      * split; [reflexivity | eauto].
      * contradiction.
      * split; [reflexivity |]. intros Hnone. now destruct (Hnone n Hn).
Qed.

End Checker.

(** The answer of the health route always satisfies the checker: whatever
    the environment of the server, a response carrying the route's status
    and body makes the script exit with code 0 at its first request, and
    the line it logs names the mode, [live] or [demo]. *)
Theorem health_route_satisfies_checker {host : Host}
    (env : Health.HealthEnv) (answers : nat -> Answer) (res : Response) :
  answers 0%nat = Settled (Fulfilled res) ->
  status res = Health.reply_status (Health.GET env) ->
  json res = Some (Health.reply_json (Health.GET env)) ->
  run 10 answers
  = Some (Exits (ExitOk ("Health OK (" +:+ Health.mode env +:+ ")")),
          {| requests := 1; waited_ms := 0 |}) /\
  (Health.mode env = "live" \/ Health.mode env = "demo").
Proof.
  intros Hanswer Hstatus Hjson. split.
  - unfold run. cbn [tryFetch requests waited_ms]. rewrite Hanswer.
    unfold attempt_of, health_line. rewrite Hstatus, Hjson. reflexivity.
  - unfold Health.mode. destruct (Health.USE_SUPABASE env); [now left |].
    destruct (Health.hasAdzuna env); [now left | now right].
Qed.

(** ** On concrete runs *)

Definition healthy : Answer :=
  Settled (Fulfilled {| ok := true; status := 200; text := "";
                        json := Some (JObj [("ok", JBool true); ("mode", JStr "demo")]);
                        json_error := "" |}).

(** The server comes up at the fourth request. *)
Definition slow_start : nat -> Answer :=
  fun n => if (n <? 3)%nat then Settled (Rejected "ECONNREFUSED") else healthy.

(** The server answers 503 throughout. *)
Definition unavailable : nat -> Answer :=
  fun _ => Settled (Fulfilled {| ok := false; status := 503; text := ""; json := None;
                                 json_error := "Unexpected end of JSON input" |}).

(** The second request gets the head of a response and never its body. *)
Definition stalls_at_second : nat -> Answer :=
  fun n => if (n <? 1)%nat then Settled (Rejected "ECONNREFUSED") else BodyNeverArrives 200.

Definition bare : Health.HealthEnv :=
  {| Health.env_USE_SUPABASE := None; Health.env_ADZUNA_APP_ID := Some "app";
     Health.env_ADZUNA_APP_KEY := None |}.

Lemma first_healthy_answer_ends_the_check_witness :
  run (host := ExampleHost.example_host) 10 slow_start
  = Some (Exits (ExitOk "Health OK (demo)"),
          {| requests := 4; waited_ms := 1000 * Z.of_nat 3 |}).
Proof.
  apply (@first_healthy_answer_ends_the_check ExampleHost.example_host slow_start 3
           "Health OK (demo)" 10).
  - lia.
  - lia.
  - intros n Hn. do 3 (destruct n as [| n]; [reflexivity |]). lia.
  - reflexivity.
Defined.

Lemma ten_failures_exit_with_code_one_witness :
  run (host := ExampleHost.example_host) 12 unavailable
  = Some (Exits (ExitFailed 10), {| requests := 10; waited_ms := 9000 |}).
Proof.
  apply (@ten_failures_exit_with_code_one ExampleHost.example_host unavailable 12).
  - lia.
  - intros n Hn. reflexivity.
Defined.

(** A run that never ends. *)
Lemma stalled_body_never_ends :
  run (host := ExampleHost.example_host) 10 stalls_at_second
  = Some (NeverEnds, {| requests := 2; waited_ms := 1000 |}).
Proof. reflexivity. Qed.

Lemma health_route_satisfies_checker_witness :
  run (host := ExampleHost.example_host) 10 (fun _ => healthy)
  = Some (Exits (ExitOk ("Health OK (" +:+ Health.mode bare +:+ ")")),
          {| requests := 1; waited_ms := 0 |}) /\
  (Health.mode bare = "live" \/ Health.mode bare = "demo").
Proof.
  apply (@health_route_satisfies_checker ExampleHost.example_host bare (fun _ => healthy)
           {| ok := true; status := 200; text := "";
              json := Some (JObj [("ok", JBool true); ("mode", JStr "demo")]);
              json_error := "" |});
    reflexivity.
Defined.

End HealthSpec.
